(** * A* maze solver: a shallow embedding of [maze_solver.py]

    The development follows the source file top to bottom: cell codes,
    search nodes, the binary heap of Python's [heapq] that backs the open
    set, the [MazeSolver] class ([__init__], [_find_start_goal],
    [heuristic], [_is_valid], [_get_movement_cost], [_reconstruct_path],
    [solve], [get_solution_maze]), and then the properties of the search.

    Conventions.
    - Python [int] is [Z]; Python [float] is a binary64 primitive [float],
      so [1.414] and the sums made of it round exactly as they do in
      CPython.  An [int] that meets a [float] in an arithmetic operation is
      first converted with [float_of_int] (round to nearest even).
    - A Python exception is a value [Raise e] of the result type [res].
    - The [while] loop of [solve] is driven by a step budget; the theorems
      at the end show that a budget always exists and that the outcome
      does not depend on it.
    - Lists indexed with a Python subscript go through [getitem], which
      implements negative indices and [IndexError]. *)

From Stdlib Require Import ZArith Floats Lia.
From stdpp Require Import gmap strings list sorting.

#[local] Set Warnings "-inexact-float,-register-all".
#[local] Open Scope Z_scope.

(** ** Results and exceptions *)

Inductive exn : Set := IndexError | TypeError.

Inductive res (A : Type) : Type :=
| Ok (a : A)
| Raise (e : exn).
Arguments Ok {A} a.
Arguments Raise {A} e.

#[global] Instance res_ret : MRet res := λ A a, Ok a.
#[global] Instance res_bind : MBind res := λ A B f m,
  match m with
  | Ok a => f a
  | Raise e => Raise e
  end.

(** [for x in xs: body] over a piece of state, stopping at the first
    exception. *)
Fixpoint for_each {A S : Type} (xs : list A) (body : S → A → res S) (st : S)
  : res S :=
  match xs with
  | [] => Ok st
  | x :: xs' => st' ← body st x; for_each xs' body st'
  end.

(** The offset that the subscript [i] denotes in a list of length [n]:
    negative subscripts count from the end, and a subscript outside
    [-n, n) denotes none. *)
Definition index (n : nat) (i : Z) : option nat :=
  let k := if i <? 0 then i + Z.of_nat n else i in
  if (0 <=? k) && (k <? Z.of_nat n) then Some (Z.to_nat k) else None.

(** [l[i]] for a Python list, with its [IndexError]. *)
Definition getitem {A : Type} (l : list A) (i : Z) : res A :=
  match index (length l) i ≫= (l !!.) with
  | Some x => Ok x
  | None => Raise IndexError
  end.

(** [range(n)] *)
Definition range (n : Z) : list Z := seqZ 0 n.

(** Conversion of a Python [int] to [float]: the nearest binary64 value,
    ties to even. *)
Definition float_of_int (z : Z) : float :=
  SF2Prim (binary_normalize prec emax z 0 false).

(** ** Cell codes *)

Inductive CellType : Set := EMPTY | WALL | START | GOAL | PATH | VISITED.

Definition value (c : CellType) : Z :=
  match c with
  | EMPTY => 0
  | WALL => 1
  | START => 2
  | GOAL => 3
  | PATH => 4
  | VISITED => 5
  end.

Abbreviation pos := (Z * Z)%type (only parsing).

(** ** Search nodes *)

(** [@dataclass(order=True) class Node]: only [f_score] takes part in the
    comparison, the other fields are declared [compare=False]. *)
Inductive Node : Type := mkNode {
  f_score : float;
  position : pos;
  g_score : float;
  h_score : float;
  parent : option Node
}.

(** [a < b] on nodes, i.e. [(a.f_score,) < (b.f_score,)]. *)
Definition node_lt (a b : Node) : bool := PrimFloat.ltb (f_score a) (f_score b).

Inductive HeuristicType : Set := MANHATTAN | EUCLIDEAN | CHEBYSHEV.

Definition heuristic_name (h : HeuristicType) : string :=
  match h with
  | MANHATTAN => "manhattan"
  | EUCLIDEAN => "euclidean"
  | CHEBYSHEV => "chebyshev"
  end.

(** ** The open set: Python's [heapq] on a list

    [heappush], [heappop], [_siftdown] and [_siftup] as in CPython's
    [heapq]; the list is the array, updated in place by index.  The two
    sift loops move an index that strictly decreases (respectively
    increases below [len heap]); the first argument of the loop functions
    bounds the number of iterations and is always given a value the loop
    cannot exceed. *)
Module heapq.

Fixpoint _siftdown_loop (n : nat) (heap : list Node) (newitem : Node)
    (startpos pos : nat) : list Node :=
  match n with
  | O => <[pos := newitem]> heap
  | S n' =>
      if (startpos <? pos)%nat then
        let parentpos := Nat.shiftr (pos - 1) 1 in
        match heap !! parentpos with
        | Some parent =>
            if node_lt newitem parent
            then _siftdown_loop n' (<[pos := parent]> heap) newitem
                   startpos parentpos
            else <[pos := newitem]> heap
        | None => <[pos := newitem]> heap
        end
      else <[pos := newitem]> heap
  end.

Definition _siftdown (heap : list Node) (startpos pos : nat) : list Node :=
  match heap !! pos with
  | Some newitem => _siftdown_loop pos heap newitem startpos pos
  | None => heap
  end.

Definition heappush (heap : list Node) (item : Node) : list Node :=
  let heap := heap ++ [item] in
  _siftdown heap 0 (length heap - 1).

(** The bubbling loop of [_siftup]: returns the array and the final
    value of [pos]. *)
Fixpoint _siftup_loop (n : nat) (heap : list Node) (endpos pos : nat)
  : list Node * nat :=
  match n with
  | O => (heap, pos)
  | S n' =>
      let childpos := (2 * pos + 1)%nat in
      if (childpos <? endpos)%nat then
        let rightpos := (childpos + 1)%nat in
        let childpos :=
          match heap !! childpos, heap !! rightpos with
          | Some c, Some r =>
              if (rightpos <? endpos)%nat && negb (node_lt c r)
              then rightpos else childpos
          | _, _ => childpos
          end in
        match heap !! childpos with
        | Some c => _siftup_loop n' (<[pos := c]> heap) endpos childpos
        | None => (heap, pos)
        end
      else (heap, pos)
  end.

Definition _siftup (heap : list Node) (pos : nat) : list Node :=
  let endpos := length heap in
  let startpos := pos in
  match heap !! pos with
  | Some newitem =>
      let '(heap, pos) := _siftup_loop endpos heap endpos pos in
      let heap := <[pos := newitem]> heap in
      _siftdown heap startpos pos
  | None => heap
  end.

(** [heappop]: [None] stands for the [IndexError] of popping an empty
    list. *)
Definition heappop (heap : list Node) : option (Node * list Node) :=
  match last heap with
  | None => None
  | Some lastelt =>
      let heap := removelast heap in
      match heap with
      | [] => Some (lastelt, heap)
      | returnitem :: _ =>
          let heap := <[0%nat := lastelt]> heap in
          Some (returnitem, _siftup heap 0)
      end
  end.

End heapq.

(** ** The solver object *)

(** One entry of [search_steps]. *)
Record Step : Type := mkStep {
  step_position : pos;
  step_f_score : float;
  step_g_score : float;
  step_h_score : float;
  open_count : Z;
  closed_count : Z
}.

Record MazeSolver : Type := mkSolver {
  maze : list (list Z);
  rows : Z;
  cols : Z;
  heuristic_type : HeuristicType;
  directions : list (Z * Z);
  start : option pos;
  goal : option pos;
  visited_order : list pos;
  search_steps : list Step
}.

Definition set_start (s : MazeSolver) (p : option pos) : MazeSolver :=
  mkSolver (maze s) (rows s) (cols s) (heuristic_type s) (directions s)
    p (goal s) (visited_order s) (search_steps s).

Definition set_goal (s : MazeSolver) (p : option pos) : MazeSolver :=
  mkSolver (maze s) (rows s) (cols s) (heuristic_type s) (directions s)
    (start s) p (visited_order s) (search_steps s).

Definition set_tracking (s : MazeSolver) (vo : list pos) (ss : list Step)
  : MazeSolver :=
  mkSolver (maze s) (rows s) (cols s) (heuristic_type s) (directions s)
    (start s) (goal s) vo ss.

Definition DIRECTIONS_4 : list (Z * Z) := [(-1, 0); (1, 0); (0, -1); (0, 1)].

Definition DIRECTIONS_8 : list (Z * Z) :=
  [(-1, 0); (1, 0); (0, -1); (0, 1);
   (-1, -1); (-1, 1); (1, -1); (1, 1)].

(** [self.maze[i][j]] *)
Definition cell (mz : list (list Z)) (i j : Z) : res Z :=
  row ← getitem mz i; getitem row j.

(** The body of the two nested loops of [_find_start_goal]. *)
Definition find_cell (i : Z) (s : MazeSolver) (j : Z) : res MazeSolver :=
  v ← cell (maze s) i j;
  if v =? value START then Ok (set_start s (Some (i, j)))
  else if v =? value GOAL then Ok (set_goal s (Some (i, j)))
  else Ok s.

Definition _find_start_goal (s : MazeSolver) : res MazeSolver :=
  for_each (range (rows s))
    (λ s i, for_each (range (cols s)) (find_cell i) s) s.

(** [MazeSolver(maze, heuristic, allow_diagonal)].  [row[:]] copies a row
    value; the aliasing side of this copy is treated in [Module Rows]. *)
Definition __init__ (mz : list (list Z)) (heuristic : HeuristicType)
    (allow_diagonal : bool) : res MazeSolver :=
  _find_start_goal
    {| maze := mz;
       rows := Z.of_nat (length mz);
       cols := match mz with
               | row0 :: _ => Z.of_nat (length row0)
               | [] => 0
               end;
       heuristic_type := heuristic;
       directions := if allow_diagonal then DIRECTIONS_8 else DIRECTIONS_4;
       start := None;
       goal := None;
       visited_order := [];
       search_steps := [] |}.

(** [x ** 0.5] is taken to be the correctly rounded square root. *)
Definition heuristic (s : MazeSolver) (p : pos) : float :=
  match goal s with
  | None => float_of_int 0
  | Some g =>
      let dr := Z.abs (p.1 - g.1) in
      let dc := Z.abs (p.2 - g.2) in
      match heuristic_type s with
      | MANHATTAN => float_of_int (dr + dc)
      | EUCLIDEAN => PrimFloat.sqrt (float_of_int (dr ^ 2 + dc ^ 2))
      | CHEBYSHEV => float_of_int (Z.max dr dc)
      end
  end.

Definition _is_valid (s : MazeSolver) (row col : Z) : res bool :=
  if (0 <=? row) && (row <? rows s) && (0 <=? col) && (col <? cols s) then
    v ← cell (maze s) row col;
    Ok (negb (v =? value WALL))
  else Ok false.

Definition _get_movement_cost (dr dc : Z) : float :=
  if negb (dr =? 0) && negb (dc =? 0) then 1.414%float else 1.0%float.

(** The [while current:] walk, goal first. *)
Fixpoint path_to_root (node : Node) : list pos :=
  position node ::
  match parent node with
  | Some p => path_to_root p
  | None => []
  end.

Definition _reconstruct_path (node : Node) : list pos :=
  rev (path_to_root node).

(** ** Statistics dictionaries *)

Inductive pyval : Type :=
| PyBool (b : bool)
| PyInt (z : Z)
| PyFloat (x : float)
| PyStr (t : string).

(** A [dict] literal, in source order. *)
Definition Stats := list (string * pyval).

Fixpoint stats_get (d : Stats) (k : string) : option pyval :=
  match d with
  | [] => None
  | (k', v) :: d' => if String.eqb k k' then Some v else stats_get d' k
  end.

(** ** [solve] *)

(** The local variables of [solve] that the loop updates, together with
    the two tracking attributes of [self]. *)
Record Search : Type := mkSearch {
  open_set : list Node;
  closed_set : gset pos;
  g_scores : gmap pos float;
  nodes_explored : Z;
  visited : list pos;
  steps : list Step
}.

(** One pass of [for dr, dc in self.directions] for the node [current];
    the loop only touches [open_set] and [g_scores]. *)
Definition expand (s : MazeSolver) (closed : gset pos) (current : Node)
    (acc : list Node * gmap pos float) (d : Z * Z)
  : res (list Node * gmap pos float) :=
  let '(dr, dc) := d in
  let new_row := (position current).1 + dr in
  let new_col := (position current).2 + dc in
  let neighbor_pos := (new_row, new_col) in
  valid ← _is_valid s new_row new_col;
  if negb valid then Ok acc
  else if bool_decide (neighbor_pos ∈ closed) then Ok acc
  else
    let move_cost := _get_movement_cost dr dc in
    let tentative_g := (g_score current + move_cost)%float in
    let skip :=
      match acc.2 !! neighbor_pos with
      | Some g => PrimFloat.leb g tentative_g
      | None => false
      end in
    if skip then Ok acc
    else
      let h := heuristic s neighbor_pos in
      let neighbor_node :=
        mkNode (tentative_g + h)%float neighbor_pos tentative_g h
          (Some current) in
      Ok (heapq.heappush acc.1 neighbor_node,
          <[neighbor_pos := tentative_g]> acc.2).

(** What one iteration of [while open_set] leads to. *)
Inductive Outcome : Type :=
| Continue (st : Search)
| Return (st : Search) (path : list pos) (stats : Stats).

Definition found_stats (s : MazeSolver) (path : list pos) (current : Node)
    (explored : Z) : Stats :=
  [("path_found", PyBool true);
   ("path_length", PyInt (Z.of_nat (length path)));
   ("path_cost", PyFloat (g_score current));
   ("nodes_explored", PyInt explored);
   ("heuristic", PyStr (heuristic_name (heuristic_type s)))].

Definition unreachable_stats (s : MazeSolver) (explored : Z) : Stats :=
  [("path_found", PyBool false);
   ("nodes_explored", PyInt explored);
   ("heuristic", PyStr (heuristic_name (heuristic_type s)));
   ("error", PyStr "Goal is unreachable - no valid path exists")].

Definition missing_stats : Stats :=
  [("error", PyStr "Start or goal not found in maze")].

(** The body of [while open_set]; the open set is known to be non-empty. *)
Definition iteration (s : MazeSolver) (st : Search) : res Outcome :=
  match heapq.heappop (open_set st) with
  | None => Raise IndexError
  | Some (current, open) =>
      if bool_decide (position current ∈ closed_set st) then
        Ok (Continue (mkSearch open (closed_set st) (g_scores st)
                        (nodes_explored st) (visited st) (steps st)))
      else
        let explored := nodes_explored st + 1 in
        let closed := closed_set st ∪ {[position current]} in
        let vis := visited st ++ [position current] in
        let stp := steps st ++
          [mkStep (position current) (f_score current) (g_score current)
             (h_score current) (Z.of_nat (length open))
             (Z.of_nat (size closed))] in
        if bool_decide (Some (position current) = goal s) then
          let path := _reconstruct_path current in
          Ok (Return (mkSearch open closed (g_scores st) explored vis stp)
                path (found_stats s path current explored))
        else
          '(open', gs') ← for_each (directions s) (expand s closed current)
                            (open, g_scores st);
          Ok (Continue (mkSearch open' closed gs' explored vis stp))
  end.

(** [while open_set: ...] followed by the "no path found" exit.  [None]
    means that the budget [fuel] was too small. *)
Fixpoint search (fuel : nat) (s : MazeSolver) (st : Search)
  : option (res (Search * option (list pos) * Stats)) :=
  match open_set st with
  | [] => Some (Ok (st, None, unreachable_stats s (nodes_explored st)))
  | _ :: _ =>
      match fuel with
      | O => None
      | S fuel' =>
          match iteration s st with
          | Raise e => Some (Raise e)
          | Ok (Return st' path stats) => Some (Ok (st', Some path, stats))
          | Ok (Continue st') => search fuel' s st'
          end
      end
  end.

Definition initial_search (s : MazeSolver) (start : pos) : Search :=
  let h := heuristic s start in
  let start_node := mkNode h start (float_of_int 0) h None in
  mkSearch (heapq.heappush [] start_node) ∅
    (<[start := float_of_int 0]> ∅) 0 [] [].

(** [solve]: the solver after the call (its tracking attributes are
    rewritten) and the returned pair [(path, stats)]. *)
Definition solve (fuel : nat) (s : MazeSolver)
  : option (res (MazeSolver * option (list pos) * Stats)) :=
  match start s, goal s with
  | Some st, Some _ =>
      match search fuel s (initial_search s st) with
      | None => None
      | Some (Raise e) => Some (Raise e)
      | Some (Ok (final, path, stats)) =>
          Some (Ok (set_tracking s (visited final) (steps final), path, stats))
      end
  | _, _ => Some (Ok (s, None, missing_stats))
  end.

(** ** [get_solution_maze] *)

(** [l[i] = x] for a Python list. *)
Definition setitem {A : Type} (l : list A) (i : Z) (x : A) : res (list A) :=
  match index (length l) i with
  | Some k => Ok (<[k := x]> l)
  | None => Raise IndexError
  end.

(** [if test(result[r][c]): result[r][c] = v], on the rows as values. *)
Definition mark_cell (test : Z → bool) (v : Z) (result : list (list Z))
    (p : pos) : res (list (list Z)) :=
  row ← getitem result p.1;
  x ← getitem row p.2;
  if test x then
    row' ← setitem row p.2 v;
    setitem result p.1 row'
  else Ok result.

Definition is_empty (x : Z) : bool := x =? value EMPTY.

(** [x not in [START, GOAL]] *)
Definition not_endpoint (x : Z) : bool :=
  negb ((x =? value START) || (x =? value GOAL)).

(** The grid that [get_solution_maze] returns. *)
Definition get_solution_maze (s : MazeSolver) (path : list pos)
  : res (list (list Z)) :=
  let result := maze s in
  result ← for_each (visited_order s) (mark_cell is_empty (value VISITED))
             result;
  for_each path (mark_cell not_endpoint (value PATH)) result.

(** ** Rows as objects

    A grid in Python is a list of references to row objects, and
    [result[r][c] = v] writes into the row object that [result[r]] refers
    to.  This module replays [row[:] for row in ...] and the two marking
    loops on an explicit store of row objects, so that what is shared and
    what is fresh can be stated. *)
Module Rows.

(** The store of row objects, by address, and a grid as the addresses of
    its rows. *)
Abbreviation store := (gmap nat (list Z)) (only parsing).
Abbreviation grid := (list nat) (only parsing).

(** The rows a grid refers to. *)
Definition read (σ : store) (g : grid) : option (list (list Z)) :=
  mapM (λ l, σ !! l) g.

(** [row[:]]: a new object with the items of [row]. *)
Definition copy_row (σ : store) (row : list Z) : store * nat :=
  let l := fresh (dom σ) in (<[l := row]> σ, l).

(** [[row[:] for row in g]]; a dangling reference, which Python cannot
    have, is reported as [TypeError]. *)
Fixpoint copy_rows (σ : store) (g : grid) : res (store * grid) :=
  match g with
  | [] => Ok (σ, [])
  | l :: g' =>
      match σ !! l with
      | None => Raise TypeError
      | Some row =>
          let '(σ1, l1) := copy_row σ row in
          '(σ2, ls) ← copy_rows σ1 g';
          Ok (σ2, l1 :: ls)
      end
  end.

(** [if test(result[r][c]): result[r][c] = v] on the store. *)
Definition mark_cell (test : Z → bool) (v : Z) (result : grid) (σ : store)
    (p : pos) : res store :=
  l ← getitem result p.1;
  match σ !! l with
  | None => Raise TypeError
  | Some row =>
      x ← getitem row p.2;
      if test x then
        row' ← setitem row p.2 v;
        Ok (<[l := row']> σ)
      else Ok σ
  end.

(** [get_solution_maze] for a solver whose [maze] attribute is the grid
    [maze_rows]: the store after the call and the grid returned. *)
Definition get_solution_maze (σ : store) (maze_rows : grid)
    (visited_order path : list pos) : res (store * grid) :=
  '(σ, result) ← copy_rows σ maze_rows;
  σ ← for_each visited_order (mark_cell is_empty (value VISITED) result) σ;
  σ ← for_each path (mark_cell not_endpoint (value PATH) result) σ;
  Ok (σ, result).

End Rows.

(** * Specification vocabulary *)

(** The cells visited by the two loops of [_find_start_goal], in order. *)
Definition grid_cells (r c : Z) : list pos :=
  i ← range r; (λ j, (i, j)) <$> range c.

Definition readable (mz : list (list Z)) (p : pos) : Prop :=
  ∃ v, cell mz p.1 p.2 = Ok v.

Definition marked (mz : list (list Z)) (c : CellType) (p : pos) : Prop :=
  cell mz p.1 p.2 = Ok (value c).

#[global] Instance exn_eq_dec : EqDecision exn.
Proof. solve_decision. Defined.

#[global] Instance res_eq_dec {A} `{EqDecision A} : EqDecision (res A).
Proof. solve_decision. Defined.

#[global] Instance marked_dec mz c p : Decision (marked mz c p).
Proof. unfold marked. apply _. Defined.

(** The last cell of [cs] carrying the code [c], if any. *)
Definition last_marked (mz : list (list Z)) (c : CellType) (cs : list pos)
  : option pos :=
  last (filter (marked mz c) cs).

Definition first_row_len (mz : list (list Z)) : Z :=
  match mz with
  | row0 :: _ => Z.of_nat (length row0)
  | [] => 0
  end.

(** Every row is at least as long as the first one: the rows that
    [_find_start_goal] can scan without leaving a row. *)
Definition scannable (mz : list (list Z)) : Prop :=
  Forall (λ row, first_row_len mz ≤ Z.of_nat (length row)) mz.

Definition rectangular (mz : list (list Z)) : Prop :=
  Forall (λ row, Z.of_nat (length row) = first_row_len mz) mz.

#[global] Instance scannable_dec mz : Decision (scannable mz).
Proof. unfold scannable. apply _. Defined.

#[global] Instance rectangular_dec mz : Decision (rectangular mz).
Proof. unfold rectangular. apply _. Defined.

Definition scan_body (s : MazeSolver) (p : pos) : res MazeSolver :=
  find_cell p.1 s p.2.

(** The fields that [_find_start_goal] never assigns. *)
Definition same_grid (s s' : MazeSolver) : Prop :=
  maze s' = maze s ∧ rows s' = rows s ∧ cols s' = cols s ∧
  heuristic_type s' = heuristic_type s ∧ directions s' = directions s ∧
  visited_order s' = visited_order s ∧ search_steps s' = search_steps s.

Definition or_else {A : Type} (o o' : option A) : option A :=
  match o with
  | Some x => Some x
  | None => o'
  end.

(** The solver that [__init__] builds from a grid it can scan. *)
Definition constructed (mz : list (list Z)) (heuristic : HeuristicType)
    (allow_diagonal : bool) : MazeSolver :=
  let cs := grid_cells (Z.of_nat (length mz)) (first_row_len mz) in
  {| maze := mz;
     rows := Z.of_nat (length mz);
     cols := first_row_len mz;
     heuristic_type := heuristic;
     directions := if allow_diagonal then DIRECTIONS_8 else DIRECTIONS_4;
     start := last_marked mz START cs;
     goal := last_marked mz GOAL cs;
     visited_order := [];
     search_steps := [] |}.


(** Row-major (lexicographic) order on positions. *)
Definition lex_lt (p q : pos) : Prop := p.1 < q.1 ∨ (p.1 = q.1 ∧ p.2 < q.2).
Definition lex_le (p q : pos) : Prop := p = q ∨ lex_lt p q.

(** [p] is a cell of the grid [mz] (a non-negative index pair inside the
    first row's width). *)
Definition in_grid (mz : list (list Z)) (p : pos) : Prop :=
  0 ≤ p.1 < Z.of_nat (length mz) ∧ 0 ≤ p.2 < first_row_len mz.

(** A solver as [__init__] leaves it; the tracking attributes, which
    [solve] rewrites, are free. *)
Definition well_formed (s : MazeSolver) : Prop :=
  rows s = Z.of_nat (length (maze s)) ∧
  cols s = first_row_len (maze s) ∧
  scannable (maze s) ∧
  start s = last_marked (maze s) START (grid_cells (rows s) (cols s)) ∧
  goal s = last_marked (maze s) GOAL (grid_cells (rows s) (cols s)).

(** In bounds and not a wall. *)
Definition passable (s : MazeSolver) (p : pos) : Prop :=
  (0 ≤ p.1 < rows s ∧ 0 ≤ p.2 < cols s) ∧
  ∃ v, cell (maze s) p.1 p.2 = Ok v ∧ v ≠ value WALL.

#[global] Instance passable_dec s p : Decision (passable s p).
Proof.
  unfold passable. apply and_dec; [apply _|].
  destruct (cell (maze s) p.1 p.2) as [v|e].
  - destruct (decide (v = value WALL)) as [->|Hv].
    + right. intros (v' & [= <-] & Hne). done.
    + left. by exists v.
  - right. intros (v' & [=] & _).
Defined.

Definition step (p : pos) (d : Z * Z) : pos := (p.1 + d.1, p.2 + d.2).

(** One legal move of the configured topology. *)
Definition move (s : MazeSolver) (p q : pos) : Prop :=
  ∃ d, d ∈ directions s ∧ q = step p d ∧ passable s q.

Definition reachable (s : MazeSolver) : pos → pos → Prop := rtc (move s).

(** Consecutive positions of [path] are one direction apart. *)
Definition linked (s : MazeSolver) (path : list pos) : Prop :=
  ∀ i p q, path !! i = Some p → path !! S i = Some q →
           ∃ d, d ∈ directions s ∧ q = step p d.

(** A node whose parent links lead back to a root at [st] through legal
    moves, each adding its movement cost to the cost so far. *)
Inductive chain (s : MazeSolver) (st : pos) : Node → Prop :=
| chain_root n :
    parent n = None → position n = st → g_score n = float_of_int 0 →
    chain s st n
| chain_step n p d :
    parent n = Some p → chain s st p → d ∈ directions s →
    position n = step (position p) d → passable s (position n) →
    g_score n = (g_score p + _get_movement_cost d.1 d.2)%float →
    chain s st n.

(** What holds of the loop state of [solve] at the top of every
    iteration, for the solver [s] searching from [st]. *)
Record invariant (s : MazeSolver) (st : pos) (σ : Search) : Prop := {
  inv_chain : ∀ n, n ∈ open_set σ → chain s st n;
  inv_nodup : NoDup (visited σ);
  inv_closed : ∀ p, p ∈ closed_set σ ↔ p ∈ visited σ;
  inv_steps : step_position <$> steps σ = visited σ;
  inv_count : nodes_explored σ = Z.of_nat (length (visited σ));
  inv_reach : ∀ p, p ∈ closed_set σ → reachable s st p ∧ passable s p;
  inv_front : ∀ p, is_Some (g_scores σ !! p) →
                   p ∈ closed_set σ ∨ ∃ n, n ∈ open_set σ ∧ position n = p;
  inv_rec : ∀ n, n ∈ open_set σ → is_Some (g_scores σ !! position n);
  inv_closed_rec : ∀ p, p ∈ closed_set σ → is_Some (g_scores σ !! p);
  inv_nbr : ∀ p q, p ∈ closed_set σ → move s p q →
                   is_Some (g_scores σ !! q);
  inv_start : is_Some (g_scores σ !! st);
  inv_goal : ∀ g, goal s = Some g → g ∉ closed_set σ
}.

(** A bound on the iterations the loop can still make. *)
Definition potential (s : MazeSolver) (σ : Search) : nat :=
  length (open_set σ) +
  length (directions s) *
    (length (grid_cells (rows s) (cols s)) - length (visited σ)).

(** What holds when the loop of [solve] is left. *)
Definition search_post (s : MazeSolver) (st : pos) (σ : Search)
    (found : option (list pos)) (stats : Stats) : Prop :=
  NoDup (visited σ) ∧
  step_position <$> steps σ = visited σ ∧
  (∀ p, p ∈ visited σ → reachable s st p ∧ passable s p) ∧
  match found with
  | Some path =>
      ∃ cur, goal s = Some (position cur) ∧ chain s st cur ∧
             path = _reconstruct_path cur ∧
             stats = found_stats s path cur (Z.of_nat (length (visited σ))) ∧
             last (visited σ) = Some (position cur)
  | None =>
      stats = unreachable_stats s (Z.of_nat (length (visited σ))) ∧
      (∀ p, reachable s st p → p ∈ visited σ) ∧
      (∀ g, goal s = Some g → g ∉ visited σ)
  end.

(** The position a direction leads to from [current], the tentative
    cost of reaching it through [current], and the node [solve] pushes
    for it. *)
Definition tentative_g (current : Node) (d : Z * Z) : float :=
  (g_score current + _get_movement_cost d.1 d.2)%float.

Definition neighbor_node (s : MazeSolver) (current : Node) (d : Z * Z) : Node :=
  let neighbor_pos := step (position current) d in
  let h := heuristic s neighbor_pos in
  mkNode (tentative_g current d + h)%float neighbor_pos (tentative_g current d)
    h (Some current).

(** No best-g recorded yet, or a strictly smaller tentative one. *)
Definition improves (gs : gmap pos float) (q : pos) (tg : float) : Prop :=
  gs !! q = None ∨ ∃ g, gs !! q = Some g ∧ PrimFloat.ltb tg g = true.

Definition pushes (s : MazeSolver) (closed : gset pos) (gs : gmap pos float)
    (current : Node) (d : Z * Z) : Prop :=
  passable s (step (position current) d) ∧
  (step (position current) d ∉ closed) ∧
  improves gs (step (position current) d) (tentative_g current d).

(** The code of the cell with original code [x] at [p] in the annotated
    copy: [PATH] on the path unless the cell is a start or goal marker,
    else [VISITED] if the cell was visited and empty, else unchanged. *)
Definition annotation (visited_order path : list pos) (p : pos) (x : Z) : Z :=
  if decide (p ∈ path ∧ x ≠ value START ∧ x ≠ value GOAL) then value PATH
  else if decide (p ∈ visited_order ∧ x = value EMPTY) then value VISITED
  else x.

(** [p] indexes a cell of [mz] with non-negative indices. *)
Definition indexes (mz : list (list Z)) (p : pos) : Prop :=
  0 ≤ p.1 ∧ 0 ≤ p.2 ∧ ∃ x, cell mz p.1 p.2 = Ok x.

(** The code at offsets [i], [j] of a grid, if there is such a cell. *)
Definition cell_at (mz : list (list Z)) (i j : nat) : option Z :=
  mz !! i ≫= (.!! j).

(** What one marking loop does to a code. *)
Definition marked_code (test : Z → bool) (v x : Z) : Z :=
  if test x then v else x.

(** The rows that the addresses of [g] hold in the store [σ]. *)
Definition holds (σ : gmap nat (list Z)) (g : list nat) (mz : list (list Z))
  : Prop :=
  Forall2 (λ l row, σ !! l = Some row) g mz.

(** ** Vocabulary for the cost of a path *)

(** A path of the configured topology from [a] to [b]: consecutive
    positions one direction apart, every position passable. *)
Definition route (s : MazeSolver) (a b : pos) (path : list pos) : Prop :=
  head path = Some a ∧ last path = Some b ∧ linked s path ∧
  Forall (passable s) path.

(** The cost that [solve] attaches to a path: starting from the [0] of
    the start node, the movement cost of each step is added in path
    order, in binary64. *)
Fixpoint accumulate (g : float) (p : pos) (path : list pos) : float :=
  match path with
  | [] => g
  | q :: path' =>
      accumulate (g + _get_movement_cost (q.1 - p.1) (q.2 - p.2))%float q path'
  end.

Definition accumulated_cost (path : list pos) : float :=
  match path with
  | [] => float_of_int 0
  | p :: path' => accumulate (float_of_int 0) p path'
  end.

(** The movement costs as exact decimals, in thousandths. *)
Definition milli_cost (dr dc : Z) : Z :=
  if negb (dr =? 0) && negb (dc =? 0) then 1414 else 1000.

Fixpoint exact_from (p : pos) (path : list pos) : Z :=
  match path with
  | [] => 0
  | q :: path' => milli_cost (q.1 - p.1) (q.2 - p.2) + exact_from q path'
  end.

(** The cost of a path without rounding, in thousandths. *)
Definition exact_cost (path : list pos) : Z :=
  match path with
  | [] => 0
  | p :: path' => exact_from p path'
  end.

(** The value of the Manhattan and Chebyshev heuristics as an integer. *)
Definition whole_heuristic (s : MazeSolver) (p : pos) : Z :=
  match goal s with
  | None => 0
  | Some g =>
      let dr := Z.abs (p.1 - g.1) in
      let dc := Z.abs (p.2 - g.2) in
      match heuristic_type s with
      | MANHATTAN => dr + dc
      | _ => Z.max dr dc
      end
  end.

(** The number of moves on the parent walk of a node. *)
Definition depth (n : Node) : Z := Z.of_nat (length (path_to_root n)) - 1.

(** The priority of a node whose costs are whole numbers. *)
Definition key (s : MazeSolver) (n : Node) : Z :=
  depth n + whole_heuristic s (position n).

(** [g_score] and [f_score] are the floats of the node's depth and key. *)
Definition whole (s : MazeSolver) (n : Node) : Prop :=
  g_score n = float_of_int (depth n) ∧ f_score n = float_of_int (key s n).

(** The heap order of [heapq] for priorities [k]: no item is below its
    parent at [(j - 1) >> 1]. *)
Definition heap_ok (k : Node → Z) (heap : list Node) : Prop :=
  ∀ j x y, (0 < j)%nat → heap !! j = Some y →
           heap !! Nat.shiftr (j - 1) 1 = Some x → k x ≤ k y.

(** Binary64 adds and compares the whole numbers of [0, B] exactly. *)
Definition whole_costs_exact (B : Z) : Prop :=
  (∀ a b, 0 ≤ a → 0 ≤ b → a + b ≤ B →
     (float_of_int a + float_of_int b)%float = float_of_int (a + b)) ∧
  (∀ a b, 0 ≤ a ≤ B → 0 ≤ b ≤ B →
     PrimFloat.ltb (float_of_int a) (float_of_int b) = (a <? b) ∧
     PrimFloat.leb (float_of_int a) (float_of_int b) = (a <=? b)).

(** The floats of the whole numbers of [0, B], computed once. *)
Definition whole_floats (B : Z) : gmap Z float :=
  list_to_map ((λ a, (a, float_of_int a)) <$> seqZ 0 (B + 1)).

(** The check of [whole_costs_exact] by evaluation. *)
Definition whole_costs_exactb (B : Z) : bool :=
  let F := whole_floats B in
  forallb (λ a, forallb (λ b,
    match F !! a, F !! b with
    | Some fa, Some fb =>
        match F !! (a + b) with
        | Some fc => PrimFloat.Leibniz.eqb (fa + fb) fc
        | None => true
        end &&
        Bool.eqb (PrimFloat.ltb fa fb) (a <? b) &&
        Bool.eqb (PrimFloat.leb fa fb) (a <=? b)
    | _, _ => false
    end) (seqZ 0 (B + 1))) (seqZ 0 (B + 1)).

(** The largest whole number a search on the grid of [s] can meet. *)
Definition cost_bound (s : MazeSolver) : Z :=
  Z.of_nat (length (grid_cells (rows s) (cols s))) + rows s + cols s.

(** What holds in addition at the top of every iteration when all costs
    are whole numbers: the open set is a heap, every recorded best cost
    is the depth of an open node unless the position is closed, and a
    closed position carries its least number of moves from [st], with
    all its neighbours recorded at most one move further. *)
Record cost_invariant (s : MazeSolver) (st : pos) (σ : Search) : Prop := {
  ci_heap : heap_ok (key s) (open_set σ);
  ci_open : ∀ n, n ∈ open_set σ →
      whole s n ∧ depth n ≤ Z.of_nat (length (visited σ)) ∧
      ∃ j, g_scores σ !! position n = Some (float_of_int j) ∧
           0 ≤ j ≤ depth n;
  ci_table : ∀ p v, g_scores σ !! p = Some v →
      ∃ j, v = float_of_int j ∧ 0 ≤ j ≤ Z.of_nat (length (visited σ)) ∧
           (p ∉ closed_set σ →
            ∃ n, n ∈ open_set σ ∧ position n = p ∧ depth n = j);
  ci_closed : ∀ p, p ∈ closed_set σ →
      ∃ j, g_scores σ !! p = Some (float_of_int j) ∧
           0 ≤ j ≤ Z.of_nat (length (visited σ)) ∧
           (∀ k, nsteps (move s) k st p → j ≤ Z.of_nat k) ∧
           (∀ q, move s p q →
              ∃ jq, g_scores σ !! q = Some (float_of_int jq) ∧
                    0 ≤ jq ≤ j + 1);
  ci_start : g_scores σ !! st = Some (float_of_int 0)
}.

(** The heap order while a sift is under way: on the edges that do not
    touch the slot [pos], across it (from the parent of [pos] to its
    children), and from an item held for [pos] to the children of [pos]. *)
Definition heap_ok_away (k : Node → Z) (heap : list Node) (pos : nat) : Prop :=
  ∀ j x y, (0 < j)%nat → j ≠ pos → Nat.shiftr (j - 1) 1 ≠ pos →
           heap !! j = Some y → heap !! Nat.shiftr (j - 1) 1 = Some x →
           k x ≤ k y.

Definition heap_ok_across (k : Node → Z) (heap : list Node) (pos : nat)
  : Prop :=
  ∀ c x y, (0 < pos)%nat → (0 < c)%nat → Nat.shiftr (c - 1) 1 = pos →
           heap !! c = Some y → heap !! Nat.shiftr (pos - 1) 1 = Some x →
           k x ≤ k y.

Definition fits_above (k : Node → Z) (item : Node) (heap : list Node)
    (pos : nat) : Prop :=
  ∀ c y, (0 < c)%nat → Nat.shiftr (c - 1) 1 = pos → heap !! c = Some y →
         k item ≤ k y.

(** A node that [heapq] ranks by its key. *)
Definition ranked (s : MazeSolver) (n : Node) : Prop :=
  f_score n = float_of_int (key s n) ∧ 0 ≤ key s n ≤ cost_bound s.

(** * Vocabulary for the further properties *)

(** The ancestors of a node are closed and hold no position twice. *)
Definition settled (closed : gset pos) (n : Node) : Prop :=
  match parent n with
  | None => True
  | Some p => NoDup (path_to_root p) ∧ ∀ q, q ∈ path_to_root p → q ∈ closed
  end.

(** What holds of the nodes and of the recorded steps at the top of
    every iteration of [solve]. *)
Record trace_invariant (s : MazeSolver) (st : pos) (σ : Search) : Prop := {
  ti_settled : ∀ n, n ∈ open_set σ → settled (closed_set σ) n;
  ti_heuristic : ∀ n, n ∈ open_set σ → h_score n = heuristic s (position n);
  ti_root : steps σ = [] →
      ∃ n, open_set σ = [n] ∧ position n = st ∧
           g_score n = float_of_int 0 ∧ f_score n = heuristic s st;
  ti_sum : steps σ ≠ [] →
      ∀ n, n ∈ open_set σ → f_score n = (g_score n + h_score n)%float;
  ti_first : ∀ stp, steps σ !! 0%nat = Some stp →
      step_position stp = st ∧ step_g_score stp = float_of_int 0 ∧
      step_f_score stp = heuristic s st;
  ti_counts : ∀ i stp, steps σ !! i = Some stp →
      closed_count stp = Z.of_nat i + 1 ∧
      step_h_score stp = heuristic s (step_position stp) ∧
      ((0 < i)%nat →
       step_f_score stp = (step_g_score stp + step_h_score stp)%float)
}.

(** * [generate_random_maze] of [main.py]

    [random.random()] is modelled by a stream: [rnd k] is the value that
    the [k]-th call made by the function returns.  The rows are built
    one by one with [append], so no two of them are the same object and
    the assignments [maze[r][c] = v] can be followed on the rows as
    values. *)

(** [WALL if random.random() < wall_density else EMPTY] for the [k]-th
    draw. *)
Definition random_cell (rnd : nat → float) (wall_density : float) (k : nat)
  : Z :=
  if PrimFloat.ltb (rnd k) wall_density then value WALL else value EMPTY.

(** The inner loop: the row, and the number of draws made so far. *)
Definition random_row (rnd : nat → float) (wall_density : float) (cols : Z)
    (k : nat) : list Z * nat :=
  fold_left (λ '(row, k) _, (row ++ [random_cell rnd wall_density k], S k))
    (range cols) ([], k).

(** The outer loop. *)
Definition random_rows (rnd : nat → float) (wall_density : float)
    (rows cols : Z) : list (list Z) * nat :=
  fold_left (λ '(maze, k) _,
               let '(row, k) := random_row rnd wall_density cols k in
               (maze ++ [row], k))
    (range rows) ([], 0%nat).

(** [maze[r][c] = v] *)
Definition set_cell (maze : list (list Z)) (r c v : Z) : res (list (list Z)) :=
  row ← getitem maze r;
  row' ← setitem row c v;
  setitem maze r row'.

Definition is_wall (x : Z) : bool := x =? value WALL.

(** [if 0 <= nr < rows and 0 <= nc < cols:
       if maze[nr][nc] == WALL: maze[nr][nc] = EMPTY] *)
Definition clear_wall (rows cols : Z) (maze : list (list Z)) (p : pos)
  : res (list (list Z)) :=
  if (0 <=? p.1) && (p.1 <? rows) && (0 <=? p.2) && (p.2 <? cols)
  then mark_cell is_wall (value EMPTY) maze p
  else Ok maze.

Definition generate_random_maze (rnd : nat → float) (rows cols : Z)
    (wall_density : float) : res (list (list Z)) :=
  let maze := (random_rows rnd wall_density rows cols).1 in
  let '(start_row, start_col) := (0, 0) in
  maze ← set_cell maze start_row start_col (value START);
  let '(goal_row, goal_col) := (rows - 1, cols - 1) in
  maze ← set_cell maze goal_row goal_col (value GOAL);
  for_each [(-1, 0); (1, 0); (0, -1); (0, 1)]
    (λ maze '(dr, dc),
       maze ← clear_wall rows cols maze (start_row + dr, start_col + dc);
       clear_wall rows cols maze (goal_row + dr, goal_col + dc))
    maze.

(** Two positions one cardinal step apart. *)
Definition adjacent (p q : pos) : Prop :=
  Z.abs (p.1 - q.1) + Z.abs (p.2 - q.2) = 1.

#[global] Instance adjacent_dec p q : Decision (adjacent p q).
Proof. unfold adjacent. apply _. Defined.

(** The code of the cell [(i, j)] of the generated maze. *)
Definition generated_cell (rnd : nat → float) (wall_density : float)
    (rows cols i j : Z) : Z :=
  if decide ((i, j) = (rows - 1, cols - 1)) then value GOAL
  else if decide ((i, j) = (0, 0)) then value START
  else if decide (adjacent (i, j) (0, 0) ∨
                  adjacent (i, j) (rows - 1, cols - 1))
       then value EMPTY
  else random_cell rnd wall_density (Z.to_nat (i * cols + j)).

(** The order of expansion when all costs are whole numbers: the
    priorities recorded in the steps never decrease, and none exceeds
    the key of a node still in the open set. *)
Record order_invariant (s : MazeSolver) (σ : Search) : Prop := {
  oi_sorted : ∀ i j a b,
      (i ≤ j)%nat → steps σ !! i = Some a → steps σ !! j = Some b →
      ∃ ka kb, step_f_score a = float_of_int ka ∧
               step_f_score b = float_of_int kb ∧
               0 ≤ ka ∧ ka ≤ kb ∧ kb ≤ cost_bound s;
  oi_open : ∀ a n, a ∈ steps σ → n ∈ open_set σ →
      ∃ ka, step_f_score a = float_of_int ka ∧ 0 ≤ ka ≤ key s n
}.

(** * Vocabulary for the least exact cost *)

(** The exact cost of the parent walk of a node, in thousandths. *)
Definition node_cost (n : Node) : Z := exact_cost (_reconstruct_path n).

(** A node as [solve] builds it in a search from [st]: legal moves lead
    back to the root at [st], no position is met twice on the way, and
    [f_score] is the sum of [g_score] and the heuristic of the position
    (the root carries the heuristic itself). *)
Definition search_node (s : MazeSolver) (st : pos) (n : Node) : Prop :=
  chain s st n ∧ NoDup (path_to_root n) ∧
  f_score n =
    match parent n with
    | None => heuristic s st
    | Some _ => (g_score n + heuristic s (position n))%float
    end.

(** No walk that meets no cell twice costs more, in thousandths. *)
Definition cost_range (s : MazeSolver) : Z :=
  1414 * Z.of_nat (length (grid_cells (rows s) (cols s))).

(** The rank of a node under a priority [K] of exact costs and
    positions. *)
Definition rank (K : Z → pos → Z) (n : Node) : Z :=
  K (node_cost n) (position n).

(** The heuristic of [s] is consistent, with [K] as the exact priority:
    at a cell [K] grows with the exact cost, it does not drop along a
    legal move, and the binary64 comparisons that [solve] makes follow
    it, on the [f_score] of any two nodes and on the [g_score] of two
    nodes at one cell. *)
Record priority (s : MazeSolver) (K : Z → pos → Z) : Prop := {
  pr_cost : ∀ p c c',
      passable s p → 0 ≤ c → c < c' → c' ≤ cost_range s → K c p < K c' p;
  pr_move : ∀ p d c,
      passable s p → d ∈ directions s → passable s (step p d) →
      0 ≤ c → c + milli_cost d.1 d.2 ≤ cost_range s →
      K c p ≤ K (c + milli_cost d.1 d.2) (step p d);
  pr_heap : ∀ st x y,
      start s = Some st → search_node s st x → search_node s st y →
      rank K x < rank K y → node_lt x y = true ∧ node_lt y x = false;
  pr_table : ∀ st x y,
      start s = Some st → search_node s st x → search_node s st y →
      position x = position y → node_cost x < node_cost y →
      PrimFloat.leb (g_score y) (g_score x) = false
}.


(** The priority behind the Manhattan and the Chebyshev heuristic: the
    exact cost so far plus the heuristic, in thousandths. *)
Definition whole_priority (s : MazeSolver) (c : Z) (p : pos) : Z :=
  c + 1000 * whole_heuristic s p.

(** The priority behind the Euclidean heuristic: the exact cost so far
    plus the distance to the goal, in units of [10^-9], rounded down. *)
Definition euclidean_priority (s : MazeSolver) (c : Z) (p : pos) : Z :=
  match goal s with
  | None => 1000000 * c
  | Some g =>
      1000000 * c +
      Z.sqrt (1000000000000000000 *
              ((p.1 - g.1) * (p.1 - g.1) + (p.2 - g.2) * (p.2 - g.2)))
  end.

(** ** The costs a search can meet, by enumeration *)

(** What the comparisons see of a node: its cell, its exact cost and
    its [g_score]. *)
Definition entry : Type := pos * Z * float.

Definition entry_of (n : Node) : entry :=
  (position n, node_cost n, g_score n).

Definition entry_eqb (a b : entry) : bool :=
  bool_decide (a.1 = b.1) && PrimFloat.Leibniz.eqb a.2 b.2.

(** A list without the repetitions that [eqb] finds. *)
Definition add_new {A : Type} (eqb : A → A → bool) (a : A) (l : list A)
  : list A :=
  if existsb (eqb a) l then l else a :: l.

Definition distinct {A : Type} (eqb : A → A → bool) (l : list A) : list A :=
  foldr (add_new eqb) [] l.

(** The entries of the nodes one legal move further. *)
Definition extend (s : MazeSolver) (e : entry) : list entry :=
  omap (λ d : Z * Z,
          if bool_decide (passable s (step e.1.1 d))
          then Some (step e.1.1 d, e.1.2 + milli_cost d.1 d.2,
                     (e.2 + _get_movement_cost d.1 d.2)%float)
          else None)
       (directions s).

Definition next_layer (s : MazeSolver) (layer : list entry) : list entry :=
  distinct entry_eqb (layer ≫= extend s).

(** The entries of the nodes up to [k] moves beyond those of [layer]. *)
Fixpoint layers (s : MazeSolver) (k : nat) (layer : list entry)
  : list entry :=
  layer ++
  match k with
  | O => []
  | S k' => layers s k' (next_layer s layer)
  end.

(** The entries of all nodes whose parent walk from [st] meets no cell
    twice: such a walk is shorter than the number of passable cells. *)
Definition entries (s : MazeSolver) (st : pos) : list entry :=
  layers s
    (length (filter (passable s) (grid_cells (rows s) (cols s))) - 1)
    [(st, 0, float_of_int 0)].

(** The [f_score] of a node with the entry [e]; only the root costs
    nothing. *)
Definition entry_f (s : MazeSolver) (st : pos) (e : entry) : float :=
  if e.1.2 =? 0 then heuristic s st else (e.2 + heuristic s e.1.1)%float.

Definition score_eqb (a b : Z * float) : bool :=
  (a.1 =? b.1) && PrimFloat.Leibniz.eqb a.2 b.2.

(** The binary64 comparisons follow [K] on all those entries: [<] on
    the [f_score] of two entries of different rank, [<=] on the
    [g_score] of two entries of different cost at one cell. *)
Definition priority_checkb (s : MazeSolver) (st : pos) (K : Z → pos → Z)
  : bool :=
  let es := entries s st in
  let scores :=
    distinct score_eqb ((λ e, (K e.1.2 e.1.1, entry_f s st e)) <$> es) in
  forallb (λ x : Z * float, forallb (λ y : Z * float,
    if x.1 <? y.1
    then PrimFloat.ltb x.2 y.2 && negb (PrimFloat.ltb y.2 x.2)
    else true) scores) scores &&
  forallb (λ p : pos,
    let here := filter (λ e : entry, e.1.1 = p) es in
    forallb (λ x : entry, forallb (λ y : entry,
      if x.1.2 <? y.1.2 then negb (PrimFloat.leb y.2 x.2) else true)
      here) here)
    (grid_cells (rows s) (cols s)).
(** * Properties *)

(** ** Subscripts and [for] loops *)

Lemma index_nonneg n i :
  0 ≤ i → index n i = if i <? Z.of_nat n then Some (Z.to_nat i) else None.
Proof.
  intros Hi. unfold index.
  destruct (Z.ltb_spec i 0) as [?|_]; [lia|].
  by destruct (Z.leb_spec 0 i) as [_|?]; [|lia].
Qed.

Lemma index_Some n i k : index n i = Some k → (k < n)%nat.
Proof.
  unfold index. destruct (_ && _) eqn:E; [|done]. intros [= <-].
  apply andb_true_iff in E as [?%Z.leb_le ?%Z.ltb_lt]. lia.
Qed.

Lemma getitem_Ok {A : Type} (l : list A) (i : Z) (x : A) :
  0 ≤ i → getitem l i = Ok x ↔ l !! Z.to_nat i = Some x.
Proof.
  intros Hi. unfold getitem. rewrite index_nonneg by done.
  destruct (Z.ltb_spec i (Z.of_nat (length l))) as [Hlt|Hge]; simpl.
  - destruct (l !! Z.to_nat i) eqn:E; split; congruence.
  - split; [discriminate|]. intros H%lookup_lt_Some. lia.
Qed.

Lemma getitem_in_range {A : Type} (l : list A) (i : Z) :
  0 ≤ i < Z.of_nat (length l) → ∃ x, getitem l i = Ok x.
Proof.
  intros Hi. destruct (lookup_lt_is_Some_2 l (Z.to_nat i)) as [x Hx]; [lia|].
  exists x. apply getitem_Ok; [lia|done].
Qed.

Lemma getitem_out_of_range {A : Type} (l : list A) (i : Z) :
  Z.of_nat (length l) ≤ i → getitem l i = Raise IndexError.
Proof.
  intros Hi. unfold getitem. rewrite index_nonneg by lia.
  by destruct (Z.ltb_spec i (Z.of_nat (length l))) as [?|_]; [lia|].
Qed.

Lemma getitem_raises {A : Type} (l : list A) (i : Z) (e : exn) :
  getitem l i = Raise e → e = IndexError.
Proof.
  unfold getitem. repeat case_match; congruence.
Qed.

Lemma for_each_app {A S : Type} (xs ys : list A) (body : S → A → res S) st :
  for_each (xs ++ ys) body st = st' ← for_each xs body st; for_each ys body st'.
Proof.
  revert st. induction xs as [|x xs IH]; intros st; simpl; [done|].
  destruct (body st x) as [st'|e]; simpl; [apply IH|done].
Qed.

(** ** Construction *)

Lemma rectangular_scannable mz : rectangular mz → scannable mz.
Proof.
  unfold rectangular, scannable. intros H.
  eapply Forall_impl; [exact H|]. simpl. lia.
Qed.

Lemma cell_raises mz i j e : cell mz i j = Raise e → e = IndexError.
Proof.
  unfold cell. destruct (getitem mz i) as [row|e'] eqn:E; simpl.
  - apply getitem_raises.
  - intros [= <-]. by apply getitem_raises in E.
Qed.

Lemma cell_Ok mz i j v :
  0 ≤ i → 0 ≤ j →
  cell mz i j = Ok v ↔
  ∃ row, mz !! Z.to_nat i = Some row ∧ row !! Z.to_nat j = Some v.
Proof.
  intros Hi Hj. unfold cell. split.
  - destruct (getitem mz i) as [row|e] eqn:E; simpl; [|done].
    intros Hv. exists row. split; by apply getitem_Ok.
  - intros (row & Hrow & Hv).
    apply (getitem_Ok _ _ _ Hi) in Hrow. rewrite Hrow. simpl.
    by apply getitem_Ok.
Qed.

Lemma elem_of_grid_cells r c p :
  p ∈ grid_cells r c ↔ 0 ≤ p.1 < r ∧ 0 ≤ p.2 < c.
Proof.
  unfold grid_cells, range. rewrite list_elem_of_bind. split.
  - intros (i & Hp & Hi). apply list_elem_of_fmap in Hp as (j & -> & Hj).
    apply elem_of_seqZ in Hi, Hj. simpl. lia.
  - intros [Hi Hj]. exists p.1. split.
    + apply list_elem_of_fmap. exists p.2. split; [by destruct p|].
      apply elem_of_seqZ. lia.
    + apply elem_of_seqZ. lia.
Qed.

Lemma scannable_readable mz p :
  scannable mz →
  p ∈ grid_cells (Z.of_nat (length mz)) (first_row_len mz) →
  readable mz p.
Proof.
  intros Hs [Hi Hj]%elem_of_grid_cells.
  destruct (lookup_lt_is_Some_2 mz (Z.to_nat p.1)) as [row Hrow]; [lia|].
  assert (row ∈ mz) as Hin by (by eapply list_elem_of_lookup_2).
  unfold scannable in Hs. rewrite Forall_forall in Hs. specialize (Hs row Hin).
  destruct (lookup_lt_is_Some_2 row (Z.to_nat p.2)) as [v Hv]; [lia|].
  exists v. apply cell_Ok; [lia..|]. eauto.
Qed.

Lemma not_scannable_unreadable mz :
  ¬ scannable mz →
  ∃ p, p ∈ grid_cells (Z.of_nat (length mz)) (first_row_len mz) ∧
       ¬ readable mz p.
Proof.
  intros Hns.
  assert (Exists (λ row, ¬ first_row_len mz ≤ Z.of_nat (length row)) mz) as Hex.
  { apply (not_Forall_Exists (λ row, first_row_len mz ≤ Z.of_nat (length row))).
    intros Hall. by apply Hns. }
  apply Exists_exists in Hex as (row & Hrow & Hlen).
  apply list_elem_of_lookup in Hrow as [i Hi].
  exists (Z.of_nat i, Z.of_nat (length row)). split.
  - apply elem_of_grid_cells. simpl. apply lookup_lt_Some in Hi. lia.
  - intros [v Hv]. simpl in Hv. apply cell_Ok in Hv as (row' & Hrow' & Hv); [|lia..].
    rewrite Nat2Z.id in Hrow'. rewrite Hi in Hrow'. injection Hrow' as <-.
    apply lookup_lt_Some in Hv. lia.
Qed.

Lemma same_grid_refl s : same_grid s s.
Proof. by repeat split. Qed.

Lemma same_grid_trans s1 s2 s3 :
  same_grid s1 s2 → same_grid s2 s3 → same_grid s1 s3.
Proof. unfold same_grid. intros. destruct_and!. repeat split; congruence. Qed.

Lemma find_cell_same_grid i j s s' :
  find_cell i s j = Ok s' → same_grid s s'.
Proof.
  unfold find_cell. destruct (cell (maze s) i j) as [v|e]; simpl; [|done].
  repeat case_match; intros [= <-]; by repeat split.
Qed.

Lemma for_each_same_grid {A} (cs : list A)
    (body : MazeSolver → A → res MazeSolver) s s' :
  (∀ s s' p, body s p = Ok s' → same_grid s s') →
  for_each cs body s = Ok s' → same_grid s s'.
Proof.
  intros Hbody. revert s. induction cs as [|p cs IH]; intros s; simpl.
  - intros [= <-]. apply same_grid_refl.
  - destruct (body s p) as [s1|e] eqn:E; simpl; [|done].
    intros H. eapply same_grid_trans; [by eapply Hbody|by apply IH].
Qed.

Lemma for_each_fmap {A B S : Type} (f : A → B) (xs : list A)
    (body : S → B → res S) st :
  for_each (f <$> xs) body st = for_each xs (λ st x, body st (f x)) st.
Proof.
  revert st. induction xs as [|x xs IH]; intros st; simpl; [done|].
  destruct (body st (f x)); simpl; [apply IH|done].
Qed.

(** The nested loops visit [grid_cells] in order. *)
Lemma find_start_goal_flat s :
  _find_start_goal s = for_each (grid_cells (rows s) (cols s)) scan_body s.
Proof.
  unfold _find_start_goal, grid_cells.
  generalize (range (rows s)) as rs.
  assert (∀ rs c s0, cols s0 = c →
    for_each rs (λ s i, for_each (range (cols s)) (find_cell i) s) s0 =
    for_each (rs ≫= λ i, (λ j, (i, j)) <$> range c) scan_body s0) as H;
    [|intros rs; by apply H].
  induction rs as [|i rs IH]; intros c s0 Hc; simpl; [done|].
  rewrite for_each_app, for_each_fmap.
  change (λ st x, scan_body st (i, x)) with (find_cell i).
  rewrite Hc.
  destruct (for_each (range c) (find_cell i) s0) as [s1|e] eqn:E;
    simpl; [|done].
  apply IH. rewrite <- Hc.
  eapply (for_each_same_grid (range c) (λ st x, find_cell i st x) s0 s1); [|done].
  intros ? ? ?. apply find_cell_same_grid.
Qed.

Lemma or_else_None_r {A} (o : option A) : or_else o None = o.
Proof. by destruct o. Qed.

Lemma last_marked_cons mz c p cs :
  last_marked mz c (p :: cs) =
  or_else (last_marked mz c cs)
    (if decide (marked mz c p) then Some p else None).
Proof.
  unfold last_marked. rewrite filter_cons.
  destruct (decide (marked mz c p)).
  - rewrite last_cons. by destruct (last _).
  - by destruct (last _).
Qed.

(** Scanning readable cells records the last start and the last goal
    marker met. *)
Lemma scan_readable cs s :
  (∀ p, p ∈ cs → readable (maze s) p) →
  ∃ s', for_each cs scan_body s = Ok s' ∧ same_grid s s' ∧
        start s' = or_else (last_marked (maze s) START cs) (start s) ∧
        goal s' = or_else (last_marked (maze s) GOAL cs) (goal s).
Proof.
  revert s. induction cs as [|[i j] cs IH]; intros s Hread.
  - exists s. split; [done|]. split; [apply same_grid_refl|done].
  - destruct (Hread (i, j)) as [v Hv]; [left|]. simpl in Hv.
    rewrite !last_marked_cons.
    change (for_each ((i, j) :: cs) scan_body s)
      with (st' ← find_cell i s j; for_each cs scan_body st').
    unfold find_cell. rewrite Hv. simpl.
    destruct (Z.eqb_spec v 2) as [->|Hn2]; [|destruct (Z.eqb_spec v 3) as [->|Hn3]].
    + destruct (IH (set_start s (Some (i, j)))) as (s' & Hs' & Hg & Hst & Hgo).
      { intros p Hp. apply Hread. by right. }
      exists s'. split; [done|]. split; [apply Hg|]. simpl in *.
      rewrite Hst, Hgo.
      rewrite decide_True by (unfold marked; by simpl).
      rewrite decide_False by (unfold marked; simpl; by rewrite Hv).
      split; [destruct (last_marked _ START cs)|destruct (last_marked _ GOAL cs)];
        simpl; done.
    + destruct (IH (set_goal s (Some (i, j)))) as (s' & Hs' & Hg & Hst & Hgo).
      { intros p Hp. apply Hread. by right. }
      exists s'. split; [done|]. split; [apply Hg|]. simpl in *.
      rewrite Hst, Hgo.
      rewrite decide_False by (unfold marked; simpl; by rewrite Hv).
      rewrite decide_True by (unfold marked; by simpl).
      split; [destruct (last_marked _ START cs)|destruct (last_marked _ GOAL cs)];
        simpl; done.
    + destruct (IH s) as (s' & Hs' & Hg & Hst & Hgo).
      { intros p Hp. apply Hread. by right. }
      exists s'. split; [done|]. split; [done|].
      rewrite Hst, Hgo.
      rewrite !decide_False by (unfold marked; simpl; rewrite Hv; simpl; congruence).
      split; [destruct (last_marked _ START cs)|destruct (last_marked _ GOAL cs)];
        simpl; done.
Qed.

(** A cell that cannot be read stops the scan with [IndexError]. *)
Lemma scan_unreadable cs s :
  (∃ p, p ∈ cs ∧ ¬ readable (maze s) p) →
  for_each cs scan_body s = Raise IndexError.
Proof.
  revert s. induction cs as [|p cs IH]; intros s (q & Hq & Hnr); simpl.
  - by apply elem_of_nil in Hq.
  - destruct (scan_body s p) as [s1|e] eqn:E; simpl.
    + apply IH. pose proof (find_cell_same_grid _ _ _ _ E) as (Hm & _).
      rewrite Hm. exists q. split; [|done].
      apply elem_of_cons in Hq as [->|Hq]; [|done].
      exfalso. apply Hnr. unfold scan_body, find_cell in E.
      destruct (cell (maze s) p.1 p.2) as [v|] eqn:Ec; [by exists v|done].
    + unfold scan_body, find_cell in E.
      destruct (cell (maze s) p.1 p.2) as [v|e'] eqn:Ec; simpl in E.
      * repeat case_match; done.
      * injection E as <-. by rewrite (cell_raises _ _ _ _ Ec).
Qed.

Lemma MazeSolver_eq s s' :
  same_grid s s' → start s' = start s → goal s' = goal s → s' = s.
Proof.
  destruct s, s'. unfold same_grid. simpl. intros. destruct_and!. by subst.
Qed.

Lemma init_scannable mz h d :
  scannable mz → __init__ mz h d = Ok (constructed mz h d).
Proof.
  intros Hs. unfold __init__. rewrite find_start_goal_flat. simpl.
  match goal with |- for_each ?cs _ ?s = _ =>
    destruct (scan_readable cs s) as (s' & -> & Hg & Hst & Hgo) end.
  { intros p Hp. by apply scannable_readable. }
  f_equal. symmetry. simpl in *. apply MazeSolver_eq; simpl.
  - destruct Hg as (?&?&?&?&?&?&?). by repeat split.
  - by rewrite Hst, or_else_None_r.
  - by rewrite Hgo, or_else_None_r.
Qed.

Lemma init_not_scannable mz h d :
  ¬ scannable mz → __init__ mz h d = Raise IndexError.
Proof.
  intros Hs. unfold __init__. rewrite find_start_goal_flat. simpl.
  apply scan_unreadable. simpl. by apply not_scannable_unreadable.
Qed.

Lemma init_spec mz h d :
  __init__ mz h d =
  if decide (scannable mz) then Ok (constructed mz h d)
  else Raise IndexError.
Proof.
  destruct (decide (scannable mz)).
  - by apply init_scannable.
  - by apply init_not_scannable.
Qed.

(** ** The last marker in row-major order *)

Lemma seqZ_sorted m n : StronglySorted Z.lt (seqZ m n).
Proof.
  destruct (Z.le_gt_cases n 0) as [Hn|Hn].
  { rewrite seqZ_nil by done. constructor. }
  rewrite <- (Z2Nat.id n) by lia. generalize (Z.to_nat n) as k. clear.
  induction k as [|k IH]; [constructor|].
  rewrite seqZ_S. apply StronglySorted_app_2; [|done|repeat constructor].
  intros x y Hx%elem_of_seqZ Hy%list_elem_of_singleton. lia.
Qed.

Lemma grid_cells_sorted r c : StronglySorted lex_lt (grid_cells r c).
Proof.
  unfold grid_cells, range.
  enough (∀ m, StronglySorted lex_lt
               (seqZ m r ≫= λ i, (λ j, (i, j)) <$> seqZ 0 c)) as H by apply H.
  destruct (Z.le_gt_cases r 0) as [Hr|Hr].
  { intros m. rewrite (seqZ_nil m r) by done. constructor. }
  rewrite <- (Z2Nat.id r) by lia. generalize (Z.to_nat r) as k. clear.
  induction k as [|k IH]; intros m; [constructor|].
  rewrite seqZ_S, bind_app. apply StronglySorted_app_2; [|apply IH|].
  - intros x y (i & Hx & Hi)%list_elem_of_bind Hy. simpl in Hy.
    rewrite app_nil_r in Hy.
    apply list_elem_of_fmap in Hx as (j & -> & _).
    apply list_elem_of_fmap in Hy as (j' & -> & _).
    apply elem_of_seqZ in Hi. left. simpl. lia.
  - simpl. rewrite app_nil_r.
    eapply StronglySorted_fmap; [|apply (seqZ_sorted 0 c)].
    intros x y Hxy. right. simpl. lia.
Qed.

Lemma last_marked_is_last mz c cs p q :
  StronglySorted lex_lt cs →
  p ∈ cs → marked mz c p →
  last_marked mz c cs = Some q →
  lex_le p q.
Proof.
  intros Hsort Hp Hm Hlast.
  apply last_filter_Some in Hlast as (l1 & l2 & -> & Hl2).
  apply elem_of_app in Hp as [Hp|Hp].
  - right. eapply StronglySorted_app_1_elem_of; [done..|left].
  - apply elem_of_cons in Hp as [->|Hp]; [by left|].
    rewrite Forall_forall in Hl2. by destruct (Hl2 p Hp).
Qed.

Lemma last_marked_exists mz c cs p :
  p ∈ cs → marked mz c p → is_Some (last_marked mz c cs).
Proof.
  intros Hp Hm. unfold last_marked.
  assert (p ∈ filter (marked mz c) cs) as Hin by (by apply list_elem_of_filter).
  destruct (filter (marked mz c) cs) as [|x l] using rev_ind.
  - by apply elem_of_nil in Hin.
  - rewrite last_snoc. eauto.
Qed.

Lemma last_marked_Some mz c cs q :
  last_marked mz c cs = Some q → q ∈ cs ∧ marked mz c q.
Proof.
  unfold last_marked. intros (l & Hl)%last_Some.
  assert (q ∈ filter (marked mz c) cs) as Hin.
  { rewrite Hl. apply elem_of_app. right. left. }
  apply list_elem_of_filter in Hin. tauto.
Qed.

(** ** Budget of the main loop *)

Lemma search_more_fuel fuel fuel' s st r :
  (fuel ≤ fuel')%nat → search fuel s st = Some r → search fuel' s st = Some r.
Proof.
  revert fuel' st. induction fuel as [|fuel IH]; intros fuel' st Hle; simpl.
  - destruct fuel'; simpl; destruct (open_set st); done.
  - destruct fuel' as [|fuel']; [lia|]. simpl.
    destruct (open_set st); [done|].
    destruct (iteration s st) as [[st'|st' path stats]|e]; try done.
    apply IH. lia.
Qed.

Lemma solve_more_fuel fuel fuel' s r :
  (fuel ≤ fuel')%nat → solve fuel s = Some r → solve fuel' s = Some r.
Proof.
  intros Hle. unfold solve.
  destruct (start s) as [p|]; [|done]. destruct (goal s); [|done].
  destruct (search fuel s (initial_search s p)) as [r'|] eqn:E; [|done].
  by rewrite (search_more_fuel _ _ _ _ _ Hle E).
Qed.

(** The outcome of [solve] does not depend on the budget. *)
Lemma solve_deterministic fuel fuel' s r r' :
  solve fuel s = Some r → solve fuel' s = Some r' → r = r'.
Proof.
  intros H H'. destruct (Nat.le_ge_cases fuel fuel') as [Hle|Hle].
  - rewrite (solve_more_fuel _ _ _ _ Hle H) in H'. congruence.
  - rewrite (solve_more_fuel _ _ _ _ Hle H') in H. congruence.
Qed.

Lemma solve_missing_endpoints fuel s :
  start s = None ∨ goal s = None →
  solve fuel s = Some (Ok (s, None, missing_stats)).
Proof.
  unfold solve. intros [->| ->]; [done|]. by destruct (start s).
Qed.

(** ** The heap as a bag

    What the search needs from [heapq] for everything but the order of
    expansion: pushing adds one element, popping removes one. *)

Lemma insert_hole_swap {A} (l : list A) (i j : nat) (x y : A) :
  (i < length l)%nat → i ≠ j → l !! j = Some y →
  <[j := x]> (<[i := y]> l) ≡ₚ <[i := x]> l.
Proof.
  intros Hi Hij Hj.
  pose proof (Permutation_insert_swap (<[i := x]> l) i j x y) as H.
  rewrite list_insert_insert_eq in H. apply H.
  - by apply list_lookup_insert_eq.
  - by rewrite list_lookup_insert_ne.
Qed.

Lemma siftdown_loop_length n heap x sp pos :
  length (heapq._siftdown_loop n heap x sp pos) = length heap.
Proof.
  revert heap pos. induction n as [|n IH]; intros heap pos; cbn [heapq._siftdown_loop].
  - by rewrite length_insert.
  - repeat case_match; rewrite ?IH, ?length_insert; done.
Qed.

Lemma siftdown_loop_perm n heap x sp pos :
  (pos < length heap)%nat →
  heapq._siftdown_loop n heap x sp pos ≡ₚ <[pos := x]> heap.
Proof.
  revert heap pos. induction n as [|n IH]; intros heap pos Hpos;
    cbn [heapq._siftdown_loop]; [reflexivity|].
  destruct (Nat.ltb_spec sp pos) as [Hsp|_]; [|reflexivity].
  destruct (heap !! Nat.shiftr (pos - 1) 1) as [parent|] eqn:Hpar; [|reflexivity].
  destruct (node_lt x parent); [|reflexivity].
  assert (Nat.shiftr (pos - 1) 1 < pos)%nat as Hlt.
  { rewrite Nat.shiftr_div_pow2. change (2 ^ 1)%nat with 2%nat.
    apply Nat.Div0.div_lt_upper_bound. lia. }
  rewrite IH by (rewrite length_insert; lia).
  apply insert_hole_swap; [done|lia|done].
Qed.

Lemma siftdown_perm heap sp pos : heapq._siftdown heap sp pos ≡ₚ heap.
Proof.
  unfold heapq._siftdown. destruct (heap !! pos) as [x|] eqn:Hx; [|done].
  rewrite siftdown_loop_perm by (by eapply lookup_lt_Some).
  by rewrite list_insert_id.
Qed.

Lemma heappush_perm heap x : heapq.heappush heap x ≡ₚ x :: heap.
Proof.
  unfold heapq.heappush. rewrite siftdown_perm.
  symmetry. apply Permutation_cons_append.
Qed.

Lemma siftup_loop_perm n heap endpos pos heap' pos' :
  (pos < length heap)%nat →
  heapq._siftup_loop n heap endpos pos = (heap', pos') →
  (pos' < length heap')%nat ∧ ∀ x, <[pos' := x]> heap' ≡ₚ <[pos := x]> heap.
Proof.
  revert heap pos. induction n as [|n IH]; intros heap pos Hpos; simpl.
  - by intros [= <- <-].
  - destruct (Nat.ltb_spec (pos + (pos + 0) + 1) endpos) as [Hc|_];
      [|by intros [= <- <-]].
    match goal with |- context [heap !! ?c] =>
      match c with
      | (match _ with _ => _ end) => set (child := c)
      end
    end.
    assert (pos < child)%nat as Hchild.
    { subst child. repeat case_match; lia. }
    destruct (heap !! child) as [c|] eqn:Hcv; [|by intros [= <- <-]].
    intros Hloop. apply IH in Hloop as [Hlen Hperm];
      [|rewrite length_insert; by eapply lookup_lt_Some].
    split; [done|]. intros x. rewrite Hperm.
    apply insert_hole_swap; [done|lia|done].
Qed.

Lemma siftup_perm heap pos : heapq._siftup heap pos ≡ₚ heap.
Proof.
  unfold heapq._siftup. destruct (heap !! pos) as [x|] eqn:Hx; [|done].
  destruct (heapq._siftup_loop _ _ _ _) as [heap' pos'] eqn:Hloop.
  apply siftup_loop_perm in Hloop as [Hlen Hperm];
    [|by eapply lookup_lt_Some].
  rewrite siftdown_perm, Hperm. by rewrite list_insert_id.
Qed.

Lemma heappop_None heap : heapq.heappop heap = None ↔ heap = [].
Proof.
  unfold heapq.heappop. split; [|by intros ->].
  destruct heap as [|x l _] using rev_ind; [done|].
  rewrite last_snoc. destruct (removelast _); done.
Qed.

Lemma heappop_perm heap x heap' :
  heapq.heappop heap = Some (x, heap') → heap ≡ₚ x :: heap'.
Proof.
  unfold heapq.heappop.
  destruct heap as [|y l _] using rev_ind; [done|].
  rewrite last_snoc, removelast_last.
  destruct l as [|r t].
  - by intros [= <- <-].
  - intros [= <- <-]. rewrite siftup_perm. simpl.
    constructor. symmetry. apply Permutation_cons_append.
Qed.

(** ** Passable cells and legal moves *)

Lemma well_formed_readable s p :
  well_formed s → 0 ≤ p.1 < rows s → 0 ≤ p.2 < cols s →
  readable (maze s) p.
Proof.
  intros (Hr & Hc & Hs & _) H1 H2. apply scannable_readable; [done|].
  apply elem_of_grid_cells. lia.
Qed.

Lemma is_valid_cases s r c :
  well_formed s →
  (_is_valid s r c = Ok true ∧ passable s (r, c)) ∨
  (_is_valid s r c = Ok false ∧ ¬ passable s (r, c)).
Proof.
  intros Hwf. unfold _is_valid, passable. simpl.
  destruct (Z.leb_spec 0 r); simpl; [|right; split; [done|lia]].
  destruct (Z.ltb_spec r (rows s)); simpl; [|right; split; [done|lia]].
  destruct (Z.leb_spec 0 c); simpl; [|right; split; [done|lia]].
  destruct (Z.ltb_spec c (cols s)); simpl; [|right; split; [done|lia]].
  destruct (well_formed_readable s (r, c) Hwf) as [v Hv]; [simpl; lia..|].
  simpl in Hv. rewrite Hv. simpl.
  destruct (Z.eqb_spec v 1) as [->|Hv1]; simpl.
  - right. split; [done|]. intros (_ & v' & Hv' & Hne). simpl in *. congruence.
  - left. split; [done|]. split; [lia|]. by exists v.
Qed.

Lemma start_passable s p :
  well_formed s → start s = Some p → passable s p.
Proof.
  intros (Hr & Hc & Hs & Hst & _) Hp. rewrite Hst in Hp.
  apply last_marked_Some in Hp as [Hin Hm].
  apply elem_of_grid_cells in Hin. split; [lia|].
  exists (value START). split; [apply Hm|done].
Qed.

Lemma goal_passable s p :
  well_formed s → goal s = Some p → passable s p.
Proof.
  intros (Hr & Hc & Hs & _ & Hgo) Hp. rewrite Hgo in Hp.
  apply last_marked_Some in Hp as [Hin Hm].
  apply elem_of_grid_cells in Hin. split; [lia|].
  exists (value GOAL). split; [apply Hm|done].
Qed.

Lemma chain_reachable s st n :
  passable s st → chain s st n →
  reachable s st (position n) ∧ passable s (position n).
Proof.
  intros Hst. induction 1 as [n Hp Hpos _|n p d Hp Hch [IHr IHp] Hd Hpos Hpass _].
  - rewrite Hpos. split; [apply rtc_refl|done].
  - split; [|done]. eapply rtc_r; [apply IHr|]. exists d. by rewrite <- Hpos.
Qed.

(** The reversed parent walk of a chained node is a linked path of
    passable cells from the root to the node. *)
Lemma chain_path s st n :
  passable s st → chain s st n →
  head (_reconstruct_path n) = Some st ∧
  last (_reconstruct_path n) = Some (position n) ∧
  linked s (_reconstruct_path n) ∧
  Forall (passable s) (_reconstruct_path n).
Proof.
  intros Hst. unfold _reconstruct_path.
  induction 1 as [n Hp Hpos _|n p d Hp Hch (IHh & IHl & IHk & IHf) Hd Hpos Hpass _];
    destruct n as [f pn g h par]; simpl in *; subst par; simpl.
  - subst pn. split; [done|]. split; [done|]. split; [|by apply Forall_singleton].
    intros [|i] ? ? ? ?; simplify_eq/=.
  - split; [|split; [|split]].
    + destruct (rev (path_to_root p)); simplify_eq/=; done.
    + by rewrite last_snoc.
    + intros i a b Ha Hb.
      destruct (decide (S i < length (rev (path_to_root p)))%nat) as [Hlt|Hge].
      * rewrite lookup_app_l in Ha, Hb by lia. by eapply IHk.
      * assert (S i = length (rev (path_to_root p))) as Hi.
        { apply lookup_lt_Some in Hb. rewrite length_app in Hb. simpl in Hb. lia. }
        rewrite lookup_app_l in Ha by lia.
        rewrite lookup_app_r in Hb by lia.
        rewrite Hi, Nat.sub_diag in Hb. simplify_eq/=.
        apply last_Some in IHl as [l' Hl'].
        rewrite Hl', length_app in Hi. simpl in Hi.
        rewrite Hl' in Ha.
        assert (i = length l') as -> by lia.
        rewrite lookup_app_r, Nat.sub_diag in Ha by lia. simplify_eq/=.
        by exists d.
    + apply Forall_app. split; [done|by apply Forall_singleton].
Qed.

(** ** One pass over the directions *)

Lemma expand_one s closed cur open gs d :
  well_formed s →
  ∃ open1 gs1 news1,
    expand s closed cur (open, gs) d = Ok (open1, gs1) ∧
    open1 ≡ₚ news1 ++ open ∧
    (length news1 ≤ 1)%nat ∧
    (∀ n, n ∈ news1 →
       parent n = Some cur ∧ position n = step (position cur) d ∧
       passable s (position n) ∧ (position n ∉ closed) ∧
       g_score n = tentative_g cur d) ∧
    (∀ p, is_Some (gs1 !! p) ↔
          is_Some (gs !! p) ∨ ∃ n, n ∈ news1 ∧ position n = p) ∧
    (passable s (step (position cur) d) →
       step (position cur) d ∈ closed ∨
       is_Some (gs1 !! step (position cur) d)).
Proof.
  intros Hwf. destruct d as [dr dc]. unfold expand, step. simpl.
  set (q := ((position cur).1 + dr, (position cur).2 + dc)).
  assert (∃ open1 gs1 news1,
    Ok (open, gs) = Ok (open1, gs1) ∧ open1 ≡ₚ news1 ++ open ∧
    (length news1 ≤ 1)%nat ∧
    (∀ n, n ∈ news1 → parent n = Some cur ∧ position n = q ∧
                       passable s (position n) ∧ (position n ∉ closed) ∧
                       g_score n = tentative_g cur (dr, dc)) ∧
    (∀ p, is_Some (gs1 !! p) ↔
          is_Some (gs !! p) ∨ ∃ n, n ∈ news1 ∧ position n = p) ∧
    (is_Some (gs !! q) ∨ q ∈ closed ∨ ¬ passable s q →
     passable s q → q ∈ closed ∨ is_Some (gs1 !! q))) as Hskip.
  { exists open, gs, []. split; [done|]. split; [done|]. split; [simpl; lia|].
    split; [by intros n Hn%elem_of_nil|]. split; [|tauto].
    intros p. split; [by left|].
    by intros [?|(n & Hn%elem_of_nil & _)]. }
  destruct Hskip as (open1 & gs1 & news1 & Heq & H1 & H2 & H3 & H4 & H5).
  destruct (is_valid_cases s ((position cur).1 + dr) ((position cur).2 + dc) Hwf)
    as [[-> Hpass]|[-> Hnpass]]; simpl;
    [change (passable s q) in Hpass|change (¬ passable s q) in Hnpass].
  2: { exists open1, gs1, news1. repeat (split; [done|]). intros ?. apply H5; [by right; right|done]. }
  destruct (decide (q ∈ closed)) as [Hcl|Hncl].
  { rewrite bool_decide_eq_true_2 by done.
    exists open1, gs1, news1. repeat (split; [done|]). intros ?. apply H5; [by right; left|done]. }
  rewrite bool_decide_eq_false_2 by done.
  set (tg := (g_score cur + _get_movement_cost dr dc)%float).
  set (node := mkNode _ q tg _ (Some cur)).
  assert (∃ open1 gs1 news1,
    Ok (heapq.heappush open node, <[q := tg]> gs) = Ok (open1, gs1) ∧
    open1 ≡ₚ news1 ++ open ∧ (length news1 ≤ 1)%nat ∧
    (∀ n, n ∈ news1 → parent n = Some cur ∧ position n = q ∧
                       passable s (position n) ∧ (position n ∉ closed) ∧
                       g_score n = tentative_g cur (dr, dc)) ∧
    (∀ p, is_Some (gs1 !! p) ↔
          is_Some (gs !! p) ∨ ∃ n, n ∈ news1 ∧ position n = p) ∧
    (passable s q → q ∈ closed ∨ is_Some (gs1 !! q))) as Hpush.
  { exists (heapq.heappush open node), (<[q := tg]> gs), [node].
    split; [done|]. split; [apply heappush_perm|]. split; [simpl; lia|].
    split; [by intros n ->%list_elem_of_singleton|]. split.
    - intros p. destruct (decide (p = q)) as [->|Hne].
      + rewrite lookup_insert_eq. split; [|done]. intros _. right.
        exists node. split; [by left|done].
      + rewrite lookup_insert_ne by done. split; [by left|].
        intros [?|(n & ->%list_elem_of_singleton & ?)]; done.
    - intros _. right. by rewrite lookup_insert_eq. }
  destruct (gs !! q) as [g|] eqn:Hg; simpl; [|done].
  destruct (PrimFloat.leb g tg); [|done].
  exists open1, gs1, news1. repeat (split; [done|]). intros ?. apply H5; [|done].
  by left.
Qed.

Lemma expand_loop s closed cur ds open gs :
  well_formed s →
  ∃ open' gs' news,
    for_each ds (expand s closed cur) (open, gs) = Ok (open', gs') ∧
    open' ≡ₚ news ++ open ∧
    (length news ≤ length ds)%nat ∧
    (∀ n, n ∈ news →
       parent n = Some cur ∧
       (∃ d, d ∈ ds ∧ position n = step (position cur) d ∧
             g_score n = tentative_g cur d) ∧
       passable s (position n) ∧ position n ∉ closed) ∧
    (∀ p, is_Some (gs' !! p) ↔
          is_Some (gs !! p) ∨ ∃ n, n ∈ news ∧ position n = p) ∧
    (∀ d, d ∈ ds → passable s (step (position cur) d) →
          step (position cur) d ∈ closed ∨
          is_Some (gs' !! step (position cur) d)).
Proof.
  intros Hwf. revert open gs.
  induction ds as [|d0 ds IH]; intros open gs.
  - exists open, gs, []. simpl. split; [done|]. split; [done|]. split; [done|].
    split; [by intros n Hn%elem_of_nil|]. split.
    + intros p. split; [by left|]. intros [H|(n & Hn%elem_of_nil & _)]; done.
    + by intros d Hd%elem_of_nil.
  - destruct (expand_one s closed cur open gs d0 Hwf)
      as (open1 & gs1 & news1 & Hex & Hperm & Hlen & Hnews & Hgs & Hq).
    destruct (IH open1 gs1)
      as (open' & gs' & news & Hfor & Hp' & Hl' & Hn' & Hg' & Hd').
    exists open', gs', (news ++ news1).
    split; [cbn [for_each]; by rewrite Hex|]. split.
    { rewrite Hp', Hperm. by rewrite app_assoc. }
    split; [rewrite length_app; simpl; lia|]. split; [|split].
    + intros n [Hn|Hn]%elem_of_app.
      * destruct (Hn' n Hn) as (? & (d & Hd & ? & ?) & ? & ?).
        split; [done|]. split; [|done]. exists d. split; [by right|done].
      * destruct (Hnews n Hn) as (? & Hpn & ? & ? & ?).
        split; [done|]. split; [|done]. exists d0. split; [left|done].
    + intros p. rewrite Hg', Hgs. split.
      * intros [[?|(n & ? & ?)]|(n & ? & ?)]; [by left|right..];
          exists n; (split; [apply elem_of_app; auto|done]).
      * intros [?|(n & [?|?]%elem_of_app & ?)]; [by left; left|right|left; right];
          by exists n.
    + intros d [->|Hd]%elem_of_cons Hpass.
      * destruct (Hq Hpass) as [?|Hrec]; [by left|]. right.
        apply Hg'. by left.
      * by apply Hd'.
Qed.

(** ** The main loop *)

Lemma initial_invariant s st :
  invariant s st (initial_search s st).
Proof.
  unfold initial_search.
  set (node := mkNode _ st _ _ None).
  assert (∀ n, n ∈ heapq.heappush [] node → n = node) as Hopen.
  { intros n. rewrite heappush_perm. intros Hn. by apply list_elem_of_singleton in Hn. }
  constructor; simpl.
  - intros n ->%Hopen. by apply chain_root.
  - constructor.
  - intros p. split; [by intros ?%not_elem_of_empty|by intros ?%elem_of_nil].
  - done.
  - done.
  - by intros p ?%not_elem_of_empty.
  - intros p [g Hg]. right. exists node. split.
    + rewrite heappush_perm. left.
    + apply lookup_insert_Some in Hg as [[? _]|[_ ?]]; [done|].
      by rewrite lookup_empty in H.
  - intros n ->%Hopen. simpl. by rewrite lookup_insert_eq.
  - by intros p ?%not_elem_of_empty.
  - by intros p q ?%not_elem_of_empty.
  - by rewrite lookup_insert_eq.
  - by intros g _ ?%not_elem_of_empty.
Qed.

Lemma visited_bound s st σ p :
  invariant s st σ → passable s p → p ∉ closed_set σ →
  (length (visited σ) < length (grid_cells (rows s) (cols s)))%nat.
Proof.
  intros Hinv Hp Hncl.
  assert (NoDup (p :: visited σ)) as Hnd.
  { constructor; [|apply Hinv]. by rewrite <- (inv_closed _ _ _ Hinv). }
  apply (NoDup_submseteq _ (grid_cells (rows s) (cols s))) in Hnd.
  - apply submseteq_length in Hnd. simpl in Hnd. lia.
  - intros x [->|Hx]%elem_of_cons; apply elem_of_grid_cells.
    + apply Hp.
    + apply (inv_closed _ _ _ Hinv), (inv_reach _ _ _ Hinv) in Hx. apply Hx.
Qed.

(** One iteration from a state that satisfies the invariant either
    continues in such a state, closer to the end, or returns the path of
    the node it popped. *)
Lemma iteration_spec s st σ :
  well_formed s → passable s st → invariant s st σ → open_set σ ≠ [] →
  (∃ σ', iteration s σ = Ok (Continue σ') ∧ invariant s st σ' ∧
         (potential s σ' < potential s σ)%nat) ∨
  (∃ σ' cur stats,
             iteration s σ = Ok (Return σ' (_reconstruct_path cur) stats) ∧
             stats = found_stats s (_reconstruct_path cur) cur
                       (Z.of_nat (length (visited σ'))) ∧
             goal s = Some (position cur) ∧ chain s st cur ∧
             (visited σ' = visited σ ++ [position cur]) ∧
             (position cur ∉ closed_set σ) ∧
             step_position <$> steps σ' = visited σ').
Proof.
  intros Hwf Hst Hinv Hne. unfold iteration.
  destruct (heapq.heappop (open_set σ)) as [[cur open]|] eqn:Hpop;
    [|by apply heappop_None in Hpop].
  apply heappop_perm in Hpop.
  assert (cur ∈ open_set σ) as Hcur by (rewrite Hpop; left).
  assert (∀ n, n ∈ open → n ∈ open_set σ) as Hsub
    by (intros n Hn; rewrite Hpop; by right).
  assert (length (open_set σ) = S (length open)) as Hlen by (by rewrite Hpop).
  pose proof (inv_chain _ _ _ Hinv cur Hcur) as Hchain.
  destruct (chain_reachable s st cur Hst Hchain) as [Hreach Hpass].
  destruct (decide (position cur ∈ closed_set σ)) as [Hcl|Hncl].
  - (* a stale entry *)
    rewrite bool_decide_eq_true_2 by done. left. eexists. split; [done|].
    split; [|unfold potential; simpl; lia].
    destruct Hinv. constructor; simpl; try done; auto.
    intros p Hp. destruct (inv_front0 p Hp) as [?|(n & Hn & Hpos)]; [by left|].
    rewrite Hpop in Hn. apply elem_of_cons in Hn as [->|Hn]; [|right; eauto].
    left. by rewrite <- Hpos.
  - rewrite bool_decide_eq_false_2 by done.
    destruct (decide (Some (position cur) = goal s)) as [Hgoal|Hngoal].
    + (* the goal *)
      rewrite bool_decide_eq_true_2 by done. right.
      eexists _, cur, _. split; [reflexivity|]. simpl. split.
      { rewrite length_app, (inv_count _ _ _ Hinv). simpl.
        do 2 f_equal. lia. }
      split; [done|]. split; [done|]. split; [done|]. split; [done|].
      rewrite fmap_app. simpl. by rewrite (inv_steps _ _ _ Hinv).
    + (* an expansion *)
      rewrite bool_decide_eq_false_2 by done. left.
      destruct (expand_loop s (closed_set σ ∪ {[position cur]}) cur
                  (directions s) open (g_scores σ) Hwf)
        as (open' & gs' & news & -> & Hperm & Hnlen & Hnews & Hgs & Hdirs).
      simpl. eexists. split; [done|].
      pose proof (visited_bound s st σ _ Hinv Hpass Hncl) as Hbound.
      split.
      2: { unfold potential. simpl. rewrite Hperm, !length_app, Hlen. simpl.
           set (K := length (directions s)) in *.
           set (N := length (grid_cells (rows s) (cols s))) in *.
           set (v := length (visited σ)) in *.
           replace (N - v)%nat with (S (N - (v + 1)))%nat by lia.
           rewrite Nat.mul_succ_r. lia. }
      destruct Hinv. constructor; simpl.
      * intros n Hn. rewrite Hperm in Hn. apply elem_of_app in Hn as [Hn|Hn]; [|auto].
        destruct (Hnews n Hn) as (Hpar & (d & Hd & Hpos & Hg) & Hpn & _).
        by eapply chain_step.
      * apply NoDup_app. split; [done|]. split; [|apply NoDup_singleton].
        intros p Hp ->%list_elem_of_singleton. by apply Hncl, inv_closed0.
      * intros p. rewrite elem_of_union, elem_of_app, elem_of_singleton,
          list_elem_of_singleton. by rewrite inv_closed0.
      * rewrite fmap_app. simpl. by rewrite inv_steps0.
      * rewrite length_app. simpl. lia.
      * intros p [Hp| ->%elem_of_singleton]%elem_of_union; auto.
      * intros p Hp. apply Hgs in Hp as [Hp|(n & Hn & Hpos)].
        -- destruct (inv_front0 p Hp) as [?|(n & Hn & Hpos)].
           ++ left. apply elem_of_union. by left.
           ++ rewrite Hpop in Hn. apply elem_of_cons in Hn as [->|Hn].
              ** left. rewrite <- Hpos. apply elem_of_union. right.
                 by apply elem_of_singleton.
              ** right. exists n. split; [|done]. rewrite Hperm.
                 apply elem_of_app. by right.
        -- right. exists n. split; [|done]. rewrite Hperm.
           apply elem_of_app. by left.
      * intros n Hn. apply Hgs. rewrite Hperm in Hn.
        apply elem_of_app in Hn as [Hn|Hn]; [right; eauto|left; auto].
      * intros p [Hp| ->%elem_of_singleton]%elem_of_union; apply Hgs; left; auto.
      * intros p q [Hp| ->%elem_of_singleton]%elem_of_union Hmove.
        -- apply Hgs. left. eauto.
        -- destruct Hmove as (d & Hd & -> & Hq).
           destruct (Hdirs d Hd Hq) as [[Hc| ->%elem_of_singleton]%elem_of_union|?];
             [| |done]; apply Hgs; left; auto.
      * apply Hgs. by left.
      * intros g Hg [Hc| ->%elem_of_singleton]%elem_of_union.
        -- by eapply inv_goal0.
        -- congruence.
Qed.

Lemma search_spec s st σ fuel :
  well_formed s → passable s st → invariant s st σ →
  (potential s σ < fuel)%nat →
  ∃ σ' found stats,
    search fuel s σ = Some (Ok (σ', found, stats)) ∧
    search_post s st σ' found stats.
Proof.
  intros Hwf Hst. revert σ.
  induction fuel as [|fuel IH]; intros σ Hinv Hpot; [lia|].
  simpl. destruct (open_set σ) as [|n0 open0] eqn:Hopen.
  - exists σ, None, (unreachable_stats s (nodes_explored σ)).
    split; [done|]. split; [apply (inv_nodup _ _ _ Hinv)|].
    split; [apply (inv_steps _ _ _ Hinv)|]. split.
    { intros p Hp. by apply (inv_reach _ _ _ Hinv), (inv_closed _ _ _ Hinv). }
    split; [by rewrite (inv_count _ _ _ Hinv)|].
    assert (∀ p, is_Some (g_scores σ !! p) → p ∈ visited σ) as Hrec.
    { intros p Hp. apply (inv_closed _ _ _ Hinv).
      destruct (inv_front _ _ _ Hinv p Hp) as [?|(n & Hn & _)]; [done|].
      rewrite Hopen in Hn. by apply elem_of_nil in Hn. }
    split.
    + intros p Hp. unfold reachable in Hp. revert p Hp.
      apply (rtc_ind_r (λ p, p ∈ visited σ)).
      * apply Hrec, (inv_start _ _ _ Hinv).
      * intros p q Hp Hpq IHp.
        apply Hrec. eapply (inv_nbr _ _ _ Hinv); [|done].
        by apply (inv_closed _ _ _ Hinv).
    + intros g Hg Hv. eapply (inv_goal _ _ _ Hinv); [done|].
      by apply (inv_closed _ _ _ Hinv).
  - destruct (iteration_spec s st σ Hwf Hst Hinv) as
      [(σ' & -> & Hinv' & Hpot')|(σ' & cur & stats & -> & -> & Hg & Hch & Hv & Hncl & Hs)];
      [by rewrite Hopen| |].
    + apply IH; [done|lia].
    + eexists σ', (Some (_reconstruct_path cur)), _. split; [done|].
      split; [|split; [done|split]].
      * rewrite Hv. apply NoDup_app. split; [apply (inv_nodup _ _ _ Hinv)|].
        split; [|apply NoDup_singleton].
        intros p Hp ->%list_elem_of_singleton.
        by apply Hncl, (inv_closed _ _ _ Hinv).
      * intros p. rewrite Hv.
        intros [Hp| ->%list_elem_of_singleton]%elem_of_app.
        -- by apply (inv_reach _ _ _ Hinv), (inv_closed _ _ _ Hinv).
        -- by apply chain_reachable.
      * exists cur. repeat (split; [done|]). by rewrite Hv, last_snoc.
Qed.

(** [solve] returns, without an exception, on every well-formed solver
    that has both endpoints; the budget below is enough. *)
Lemma solve_spec s st g :
  well_formed s → start s = Some st → goal s = Some g →
  ∃ σ found stats,
    (∀ fuel, (potential s (initial_search s st) < fuel)%nat →
       solve fuel s =
         Some (Ok (set_tracking s (visited σ) (steps σ), found, stats))) ∧
    search_post s st σ found stats.
Proof.
  intros Hwf Hs Hg.
  pose proof (start_passable s st Hwf Hs) as Hst.
  destruct (search_spec s st (initial_search s st)
              (S (potential s (initial_search s st))) Hwf Hst)
    as (σ & found & stats & Hsearch & Hpost);
    [apply initial_invariant|lia|].
  exists σ, found, stats. split; [|done].
  intros fuel Hfuel. unfold solve. rewrite Hs, Hg.
  by rewrite (search_more_fuel _ fuel _ _ _ Hfuel Hsearch).
Qed.

(** Whatever [solve] returns on such a solver is the outcome described by
    [search_post]. *)
Lemma solve_inv s st g fuel r :
  well_formed s → start s = Some st → goal s = Some g →
  solve fuel s = Some r →
  ∃ σ found stats,
    r = Ok (set_tracking s (visited σ) (steps σ), found, stats) ∧
    search_post s st σ found stats.
Proof.
  intros Hwf Hs Hg Hr.
  destruct (solve_spec s st g Hwf Hs Hg) as (σ & found & stats & Hsolve & Hpost).
  exists σ, found, stats. split; [|done].
  eapply solve_deterministic; [exact Hr|]. apply Hsolve. constructor.
Qed.

Lemma constructed_well_formed mz h d :
  scannable mz → well_formed (constructed mz h d).
Proof. intros Hs. by repeat split. Qed.

Lemma init_well_formed mz h d s :
  __init__ mz h d = Ok s → well_formed s.
Proof.
  rewrite init_spec. destruct (decide (scannable mz)); [|done].
  intros [= <-]. by apply constructed_well_formed.
Qed.

Lemma set_tracking_well_formed s vo ss :
  well_formed s → well_formed (set_tracking s vo ss).
Proof. done. Qed.

(** ** Comparisons of binary64 numbers *)

Lemma SFcompare_antisym x y :
  SFcompare y x = CompOpp <$> SFcompare x y.
Proof.
  destruct x as [sx|sx| |sx mx ex], y as [sy|sy| |sy my ey]; simpl;
    try done; try (by destruct sx); try (by destruct sy);
    try (by destruct sx, sy).
  destruct sx, sy; simpl; try done;
    rewrite (Z.compare_antisym ey ex); destruct (ey ?= ex); simpl; try done;
    rewrite (Pos.compare_cont_antisym mx my Eq); simpl;
    by destruct (Pos.compare_cont Eq mx my).
Qed.

Lemma not_nan_compare x y :
  is_nan x = false → is_nan y = false →
  is_Some (SFcompare (Prim2SF x) (Prim2SF y)).
Proof.
  assert (∀ z, is_nan z = false → Prim2SF z ≠ S754_nan) as Hnn.
  { intros z Hz Hnan. unfold is_nan in Hz. apply negb_false_iff in Hz.
    rewrite FloatAxioms.eqb_spec in Hz. unfold SFeqb in Hz.
    by rewrite Hnan in Hz. }
  intros Hx%Hnn Hy%Hnn.
  destruct (Prim2SF x) as [| | |sx ? ?], (Prim2SF y) as [| | |sy ? ?];
    simpl; try done; eauto.
Qed.

(** For numbers that are not NaN, [not (y <= x)] is [x < y]. *)
Lemma float_lt_not_ge x y :
  is_nan x = false → is_nan y = false →
  PrimFloat.ltb x y = negb (PrimFloat.leb y x).
Proof.
  intros Hx Hy. rewrite ltb_spec, leb_spec. unfold SFltb, SFleb.
  rewrite (SFcompare_antisym (Prim2SF x) (Prim2SF y)).
  destruct (not_nan_compare x y Hx Hy) as [c ->]. by destruct c.
Qed.

Lemma float_eq_ge x y :
  PrimFloat.eqb x y = true → PrimFloat.leb y x = true.
Proof.
  rewrite FloatAxioms.eqb_spec, leb_spec. unfold SFeqb, SFleb.
  rewrite (SFcompare_antisym (Prim2SF x) (Prim2SF y)).
  by destruct (SFcompare (Prim2SF x) (Prim2SF y)) as [[]|].
Qed.

(** * The claims *)

(** C8: on the grid [[2,0,0,0,3]] with the Manhattan heuristic and
    4-directional movement, construction succeeds and [solve] (with any
    budget of at least five iterations) returns the path
    [(0,0),(0,1),(0,2),(0,3),(0,4)], with [path_cost] = 4.0 and
    [nodes_explored] = 5. *)
Theorem C8_single_row_example (fuel : nat) :
  (5 ≤ fuel)%nat →
  ∃ s s' stats,
    __init__ [[2; 0; 0; 0; 3]] MANHATTAN false = Ok s ∧
    solve fuel s =
      Some (Ok (s', Some [(0, 0); (0, 1); (0, 2); (0, 3); (0, 4)], stats)) ∧
    stats_get stats "path_found" = Some (PyBool true) ∧
    stats_get stats "path_length" = Some (PyInt 5) ∧
    stats_get stats "path_cost" = Some (PyFloat 4.0%float) ∧
    stats_get stats "nodes_explored" = Some (PyInt 5) ∧
    visited_order s' = [(0, 0); (0, 1); (0, 2); (0, 3); (0, 4)].
Proof.
  intros Hfuel.
  destruct (__init__ [[2; 0; 0; 0; 3]] MANHATTAN false) as [s|e] eqn:Hs;
    [|by vm_compute in Hs].
  assert (Hs5 := Hs). vm_compute in Hs5. injection Hs5 as Hs5.
  destruct (solve 5 s) as [[[[s' path] stats]|e]|] eqn:H5;
    rewrite <- Hs5 in H5; vm_compute in H5; try done.
  injection H5 as <- <- <-.
  eexists _, _, _. split; [done|]. split.
  { eapply solve_more_fuel; [exact Hfuel|]. rewrite <- Hs5. vm_compute. done. }
  by vm_compute.
Qed.

Lemma C8_single_row_example_witness :
  (5 ≤ 5)%nat ∧
  ∃ s s' stats,
    __init__ [[2; 0; 0; 0; 3]] MANHATTAN false = Ok s ∧
    solve 5 s =
      Some (Ok (s', Some [(0, 0); (0, 1); (0, 2); (0, 3); (0, 4)], stats)) ∧
    stats_get stats "path_found" = Some (PyBool true) ∧
    stats_get stats "path_length" = Some (PyInt 5) ∧
    stats_get stats "path_cost" = Some (PyFloat 4.0%float) ∧
    stats_get stats "nodes_explored" = Some (PyInt 5) ∧
    visited_order s' = [(0, 0); (0, 1); (0, 2); (0, 3); (0, 4)].
Proof. split; [lia|]. apply (C8_single_row_example 5). lia. Defined.

(** C2 (the code departs from the claim): a grid without a start marker,
    here [[0,0],[0,3]], makes [solve] return normally with no path, but
    the statistics it returns hold the single key ["error"]: they carry
    no ["nodes_explored"] entry, so they do not report 0. *)
Theorem C2_missing_start_reports_no_count :
  ∃ s,
    __init__ [[0; 0]; [0; 3]] MANHATTAN false = Ok s ∧
    start s = None ∧
    ∀ fuel,
      solve fuel s =
        Some (Ok (s, None,
                  [("error", PyStr "Start or goal not found in maze")])) ∧
      stats_get [("error", PyStr "Start or goal not found in maze")]
        "nodes_explored" = None.
Proof.
  eexists. split; [by vm_compute|]. split; [done|].
  intros fuel. split; [|done]. by apply solve_missing_endpoints; left.
Qed.

(** C3, as stated, fails: an empty grid and a grid with rows of unequal
    length are both accepted by the constructor. *)
Lemma C3_malformed_grids_accepted :
  (∃ s, __init__ [] MANHATTAN false = Ok s ∧ rows s = 0 ∧ cols s = 0 ∧
        start s = None ∧ goal s = None) ∧
  (¬ rectangular [[2; 3]; [0; 0; 0]] ∧
   ∃ s, __init__ [[2; 3]; [0; 0; 0]] MANHATTAN false = Ok s ∧
        maze s = [[2; 3]; [0; 0; 0]] ∧ rows s = 2 ∧ cols s = 2) ∧
  ¬ (∀ mz h d, mz = [] ∨ ¬ rectangular mz → ∃ e, __init__ mz h d = Raise e).
Proof.
  split; [|split].
  - eexists. by vm_compute.
  - split; [by apply (bool_decide_eq_false_1 (rectangular _)); vm_compute|].
    eexists. by vm_compute.
  - intros H. destruct (H [] MANHATTAN false) as [e He]; [by left|].
    by vm_compute in He.
Qed.

(** C3, amended: the constructor validates nothing about the shape of the
    grid.  It succeeds exactly when every row is at least as long as the
    first one (so also on the empty grid, and on ragged grids whose later
    rows are longer), storing the grid as given with [rows] the number of
    rows and [cols] the length of the first row; the only failure is the
    [IndexError] of the start/goal scan when some row is shorter than the
    first. *)
Theorem C3_construction_checks_only_row_length
    (mz : list (list Z)) (h : HeuristicType) (d : bool) :
  __init__ mz h d =
    (if decide (scannable mz) then Ok (constructed mz h d)
     else Raise IndexError) ∧
  maze (constructed mz h d) = mz ∧
  rows (constructed mz h d) = Z.of_nat (length mz) ∧
  cols (constructed mz h d) = first_row_len mz.
Proof. split; [apply init_spec|done]. Qed.

(** C10: on a rectangular grid construction succeeds whatever the number
    of start and goal markers, and the start (goal) the solver keeps, the
    one [solve] reads, is a start (goal) marker that comes last in
    row-major order: every other such marker is lexicographically below
    it. *)
Theorem C10_last_marker_wins (mz : list (list Z)) (h : HeuristicType) (d : bool) :
  rectangular mz →
  ∃ s, __init__ mz h d = Ok s ∧
    (∀ p, in_grid mz p → marked mz START p →
       ∃ q, start s = Some q ∧ in_grid mz q ∧ marked mz START q ∧ lex_le p q) ∧
    (∀ p, in_grid mz p → marked mz GOAL p →
       ∃ q, goal s = Some q ∧ in_grid mz q ∧ marked mz GOAL q ∧ lex_le p q).
Proof.
  intros Hrect. exists (constructed mz h d).
  split; [by apply init_scannable, rectangular_scannable|].
  assert (∀ c p, in_grid mz p → marked mz c p →
    ∃ q, last_marked mz c (grid_cells (Z.of_nat (length mz)) (first_row_len mz))
           = Some q ∧ in_grid mz q ∧ marked mz c q ∧ lex_le p q) as H.
  { intros c p Hp Hm. apply elem_of_grid_cells in Hp.
    destruct (last_marked_exists mz c _ p Hp Hm) as [q Hq].
    exists q. split; [done|].
    destruct (last_marked_Some _ _ _ _ Hq) as [Hin Hmq].
    split; [by apply elem_of_grid_cells|]. split; [done|].
    eapply last_marked_is_last; [apply grid_cells_sorted|done..]. }
  split; intros p Hp Hm; by apply H.
Qed.

Lemma C10_last_marker_wins_witness :
  rectangular [[2; 0; 2]; [3; 2; 3]] ∧
  ∃ s, __init__ [[2; 0; 2]; [3; 2; 3]] CHEBYSHEV true = Ok s ∧
    (∀ p, in_grid [[2; 0; 2]; [3; 2; 3]] p → marked [[2; 0; 2]; [3; 2; 3]] START p →
       ∃ q, start s = Some q ∧ in_grid [[2; 0; 2]; [3; 2; 3]] q ∧
            marked [[2; 0; 2]; [3; 2; 3]] START q ∧ lex_le p q) ∧
    (∀ p, in_grid [[2; 0; 2]; [3; 2; 3]] p → marked [[2; 0; 2]; [3; 2; 3]] GOAL p →
       ∃ q, goal s = Some q ∧ in_grid [[2; 0; 2]; [3; 2; 3]] q ∧
            marked [[2; 0; 2]; [3; 2; 3]] GOAL q ∧ lex_le p q).
Proof.
  split.
  - unfold rectangular. repeat constructor.
  - apply (C10_last_marker_wins [[2; 0; 2]; [3; 2; 3]] CHEBYSHEV true).
    unfold rectangular. repeat constructor.
Defined.

Example C10_two_starts_two_goals :
  ∃ s, __init__ [[2; 0; 2]; [3; 2; 3]] CHEBYSHEV true = Ok s ∧
       start s = Some (1, 1) ∧ goal s = Some (1, 2).
Proof. eexists. split; [by vm_compute|done]. Qed.

(** C4: when [solve] returns a path, the path begins at the start
    position, ends at the goal position, every consecutive pair of its
    positions is one step of the configured direction set apart (the
    4-directional set, or the 8-directional one when diagonals are
    allowed), and every position on it is in bounds and not a wall. *)
Theorem C4_returned_path_is_valid
    (mz : list (list Z)) (h : HeuristicType) (d : bool) (s s' : MazeSolver)
    (fuel : nat) (path : list pos) (stats : Stats) :
  __init__ mz h d = Ok s →
  solve fuel s = Some (Ok (s', Some path, stats)) →
  ∃ st g,
    start s = Some st ∧ goal s = Some g ∧
    head path = Some st ∧ last path = Some g ∧
    directions s = (if d then DIRECTIONS_8 else DIRECTIONS_4) ∧
    linked s path ∧
    Forall (passable s) path.
Proof.
  intros Hinit Hsolve.
  pose proof (init_well_formed _ _ _ _ Hinit) as Hwf.
  destruct (start s) as [st|] eqn:Hst;
    [|by rewrite solve_missing_endpoints in Hsolve by (by left)].
  destruct (goal s) as [g|] eqn:Hg;
    [|by rewrite solve_missing_endpoints in Hsolve by (by right)].
  destruct (solve_inv s st g fuel _ Hwf Hst Hg Hsolve)
    as (σ & found & stats' & [= -> <- <-] & _ & _ & _ & Hfound).
  destruct Hfound as (cur & Hgoal & Hchain & -> & _ & _).
  destruct (chain_path s st cur (start_passable s st Hwf Hst) Hchain)
    as (Hhead & Hlast & Hlinked & Hpass).
  exists st, g. repeat (split; [done|]). split; [congruence|].
  split; [|done].
  rewrite init_spec in Hinit. destruct (decide (scannable mz)); [|done].
  by injection Hinit as <-.
Qed.

Lemma C4_returned_path_is_valid_witness :
  ∃ s s' stats,
  __init__ [[2; 0; 0]; [1; 1; 0]; [3; 0; 0]] EUCLIDEAN true = Ok s ∧
  solve 20 s =
    Some (Ok (s', Some [(0, 0); (0, 1); (1, 2); (2, 1); (2, 0)], stats)) ∧
  ∃ st g,
    start s = Some st ∧ goal s = Some g ∧
    head [(0, 0); (0, 1); (1, 2); (2, 1); (2, 0)] = Some st ∧
    last [(0, 0); (0, 1); (1, 2); (2, 1); (2, 0)] = Some g ∧
    directions s = DIRECTIONS_8 ∧
    linked s [(0, 0); (0, 1); (1, 2); (2, 1); (2, 0)] ∧
    Forall (passable s) [(0, 0); (0, 1); (1, 2); (2, 1); (2, 0)].
Proof.
  eexists _, _, _. split; [by vm_compute|]. split; [by vm_compute|].
  eapply (C4_returned_path_is_valid
            [[2; 0; 0]; [1; 1; 0]; [3; 0; 0]] EUCLIDEAN true _ _ 20);
    by vm_compute.
Defined.

Lemma solve_trace s fuel s' found stats :
  well_formed s → is_Some (start s) → is_Some (goal s) →
  solve fuel s = Some (Ok (s', found, stats)) →
  NoDup (visited_order s') ∧
  step_position <$> search_steps s' = visited_order s' ∧
  well_formed s' ∧ start s' = start s ∧ goal s' = goal s.
Proof.
  intros Hwf [st Hst] [g Hg] Hsolve.
  destruct (solve_inv s st g fuel _ Hwf Hst Hg Hsolve)
    as (σ & found' & stats' & [= -> <- <-] & Hnd & Hsteps & _).
  split; [done|]. split; [done|].
  split; [by apply set_tracking_well_formed|done].
Qed.

(** C5: the visitation trace that [solve] leaves in [visited_order] and
    [search_steps] holds no position twice, on a fresh solver and on a
    solver that is solved again; and an iteration that pops a node whose
    position is already closed only removes that node from the open set:
    closed set, best-g table, counter and trace are unchanged. *)
Theorem C5_no_position_visited_twice
    (mz : list (list Z)) (h : HeuristicType) (d : bool) (s s' : MazeSolver)
    (fuel : nat) (found : option (list pos)) (stats : Stats) :
  __init__ mz h d = Ok s →
  solve fuel s = Some (Ok (s', found, stats)) →
  (NoDup (visited_order s') ∧
   step_position <$> search_steps s' = visited_order s') ∧
  (∀ fuel2 s2 found2 stats2,
     solve fuel2 s' = Some (Ok (s2, found2, stats2)) →
     NoDup (visited_order s2) ∧
     step_position <$> search_steps s2 = visited_order s2) ∧
  (∀ σ cur open,
     heapq.heappop (open_set σ) = Some (cur, open) →
     position cur ∈ closed_set σ →
     iteration s σ =
       Ok (Continue (mkSearch open (closed_set σ) (g_scores σ)
                       (nodes_explored σ) (visited σ) (steps σ)))).
Proof.
  intros Hinit Hsolve.
  pose proof (init_well_formed _ _ _ _ Hinit) as Hwf.
  assert (visited_order s = [] ∧ search_steps s = []) as [Hv0 Hs0].
  { rewrite init_spec in Hinit. destruct (decide (scannable mz)); [|done].
    by injection Hinit as <-. }
  assert (∀ s0 fuel0 s1 found1 stats1,
    well_formed s0 → NoDup (visited_order s0) →
    step_position <$> search_steps s0 = visited_order s0 →
    solve fuel0 s0 = Some (Ok (s1, found1, stats1)) →
    well_formed s1 ∧ NoDup (visited_order s1) ∧
    step_position <$> search_steps s1 = visited_order s1) as Hcall.
  { intros s0 fuel0 s1 found1 stats1 Hwf0 Hnd0 Hst0 Hsolve0.
    destruct (start s0) as [st|] eqn:Hst;
      [|rewrite solve_missing_endpoints in Hsolve0 by (by left);
        by injection Hsolve0 as <- _ _].
    destruct (goal s0) as [g|] eqn:Hg;
      [|rewrite solve_missing_endpoints in Hsolve0 by (by right);
        by injection Hsolve0 as <- _ _].
    destruct (solve_trace s0 fuel0 s1 found1 stats1 Hwf0) as (?&?&?&_);
      rewrite ?Hst, ?Hg; eauto. }
  destruct (Hcall s fuel s' found stats Hwf) as (Hwf' & Hnd & Hsteps);
    [rewrite Hv0; constructor|by rewrite Hv0, Hs0|done|].
  split; [done|]. split.
  - intros fuel2 s2 found2 stats2 Hsolve2.
    by destruct (Hcall s' fuel2 s2 found2 stats2 Hwf' Hnd Hsteps Hsolve2)
      as (_ & ? & ?).
  - intros σ cur open Hpop Hcl. unfold iteration. rewrite Hpop.
    by rewrite bool_decide_eq_true_2.
Qed.

Lemma C5_no_position_visited_twice_witness :
  ∃ s s' found stats,
  __init__ [[2; 0; 0]; [0; 1; 0]; [0; 0; 3]] MANHATTAN false = Ok s ∧
  solve 30 s = Some (Ok (s', found, stats)) ∧
  (NoDup (visited_order s') ∧
   step_position <$> search_steps s' = visited_order s') ∧
  (∀ fuel2 s2 found2 stats2,
     solve fuel2 s' = Some (Ok (s2, found2, stats2)) →
     NoDup (visited_order s2) ∧
     step_position <$> search_steps s2 = visited_order s2) ∧
  (∀ σ cur open,
     heapq.heappop (open_set σ) = Some (cur, open) →
     position cur ∈ closed_set σ →
     iteration s σ =
       Ok (Continue (mkSearch open (closed_set σ) (g_scores σ)
                       (nodes_explored σ) (visited σ) (steps σ)))).
Proof.
  eexists _, _, _, _. split; [by vm_compute|]. split; [by vm_compute|].
  eapply (C5_no_position_visited_twice
            [[2; 0; 0]; [0; 1; 0]; [0; 0; 3]] MANHATTAN false _ _ 30);
    by vm_compute.
Defined.

Lemma not_found_unreachable s st g fuel s' stats :
  well_formed s → start s = Some st → goal s = Some g →
  solve fuel s = Some (Ok (s', None, stats)) → ¬ reachable s st g.
Proof.
  intros Hwf Hst Hg Hsolve Hreach.
  destruct (solve_inv s st g fuel _ Hwf Hst Hg Hsolve)
    as (σ & found' & stats' & [= -> <- <-] & _ & _ & _ & _ & Hall & Hgoal).
  by eapply Hgoal, Hall.
Qed.

(** C7: on a grid with a start and a goal where the goal cannot be
    reached from the start by legal moves, [solve] returns normally with
    no path, and the [nodes_explored] it reports is the number of cells
    reachable from the start (the start included): the visitation trace
    lists those cells, each once, and [nodes_explored] is its length. *)
Theorem C7_unreachable_goal_explores_component
    (mz : list (list Z)) (h : HeuristicType) (d : bool) (s : MazeSolver)
    (st g : pos) :
  __init__ mz h d = Ok s →
  start s = Some st → goal s = Some g →
  ¬ reachable s st g →
  ∃ budget s' stats component,
    (∀ fuel, (budget ≤ fuel)%nat →
             solve fuel s = Some (Ok (s', None, stats))) ∧
    NoDup component ∧
    (∀ p, p ∈ component ↔ reachable s st p) ∧
    (∀ p, p ∈ component → passable s p) ∧
    visited_order s' = component ∧
    stats_get stats "path_found" = Some (PyBool false) ∧
    stats_get stats "nodes_explored" =
      Some (PyInt (Z.of_nat (length component))).
Proof.
  intros Hinit Hst Hg Hunreach.
  pose proof (init_well_formed _ _ _ _ Hinit) as Hwf.
  destruct (solve_spec s st g Hwf Hst Hg)
    as (σ & found & stats & Hsolve & Hnd & Hsteps & Hreach & Hfound).
  destruct found as [path|].
  - exfalso. apply Hunreach.
    destruct Hfound as (cur & Hgoal & Hchain & _).
    assert (g = position cur) as -> by congruence.
    by apply chain_reachable; [eapply start_passable|].
  - destruct Hfound as (-> & Hall & _).
    eexists (S (potential s (initial_search s st))), _, _, (visited σ).
    split; [intros fuel Hfuel; apply Hsolve; lia|]. split; [done|].
    split; [|split; [|done]].
    + intros p. split; [apply Hreach|apply Hall].
    + intros p Hp. by apply Hreach.
Qed.

Lemma C7_unreachable_goal_explores_component_witness :
  ∃ s,
  __init__ [[2; 0; 0]; [1; 1; 1]; [0; 3; 0]] MANHATTAN true = Ok s ∧
  start s = Some (0, 0) ∧ goal s = Some (2, 1) ∧
  ¬ reachable s (0, 0) (2, 1) ∧
  ∃ budget s' stats component,
    (∀ fuel, (budget ≤ fuel)%nat →
             solve fuel s = Some (Ok (s', None, stats))) ∧
    NoDup component ∧
    (∀ p, p ∈ component ↔ reachable s (0, 0) p) ∧
    (∀ p, p ∈ component → passable s p) ∧
    visited_order s' = component ∧
    stats_get stats "path_found" = Some (PyBool false) ∧
    stats_get stats "nodes_explored" =
      Some (PyInt (Z.of_nat (length component))).
Proof.
  eexists. split; [by vm_compute|]. split; [done|]. split; [done|].
  assert (¬ reachable (constructed [[2; 0; 0]; [1; 1; 1]; [0; 3; 0]]
                         MANHATTAN true) (0, 0) (2, 1)) as Hun.
  { eapply (not_found_unreachable _ _ _ 30);
      [|done|done|by vm_compute].
    apply constructed_well_formed.
    by apply (bool_decide_eq_true_1 (scannable _)). }
  split; [exact Hun|].
  eapply (C7_unreachable_goal_explores_component
            [[2; 0; 0]; [1; 1; 1]; [0; 3; 0]] MANHATTAN true);
    [by vm_compute|done|done|exact Hun].
Defined.

Example C7_wall_row :
  ∃ s s',
    __init__ [[2; 0; 0]; [1; 1; 1]; [0; 3; 0]] MANHATTAN true = Ok s ∧
    solve 30 s =
      Some (Ok (s', None,
                [("path_found", PyBool false); ("nodes_explored", PyInt 3);
                 ("heuristic", PyStr "manhattan");
                 ("error", PyStr "Goal is unreachable - no valid path exists")])) ∧
    visited_order s' = [(0, 0); (0, 1); (0, 2)].
Proof.
  eexists _, _. split; [by vm_compute|]. split; [by vm_compute|done].
Qed.

(** C6: in the neighbour loop of [solve], for a direction [d] from the
    node [current], with a tentative g and a recorded best-g that are not
    NaN, the neighbour is pushed exactly when it is passable,
    not closed, and has no recorded best-g or a tentative g strictly below
    the recorded one.  A push adds to the open set the node with
    g = tentative g, f = tentative g + h and predecessor [current], and
    records the tentative g as best-g; otherwise open set and best-g table
    are left as they are, in particular when the tentative g equals the
    recorded one. *)
Theorem C6_push_iff_strict_improvement
    (s : MazeSolver) (closed : gset pos) (current : Node)
    (open : list Node) (gs : gmap pos float) (d : Z * Z) :
  well_formed s →
  is_nan (tentative_g current d) = false →
  (∀ g, gs !! step (position current) d = Some g → is_nan g = false) →
  let q := step (position current) d in
  let node := neighbor_node s current d in
  (pushes s closed gs current d →
     expand s closed current (open, gs) d =
       Ok (heapq.heappush open node, <[q := tentative_g current d]> gs)) ∧
  (¬ pushes s closed gs current d →
     expand s closed current (open, gs) d = Ok (open, gs)) ∧
  (∀ g, gs !! q = Some g → PrimFloat.eqb (tentative_g current d) g = true →
        expand s closed current (open, gs) d = Ok (open, gs)) ∧
  length (heapq.heappush open node) = S (length open) ∧
  position node = q ∧
  g_score node = tentative_g current d ∧
  f_score node = (tentative_g current d + heuristic s q)%float ∧
  parent node = Some current.
Proof.
  intros Hwf Htg Hrec q node. destruct d as [dr dc].
  assert (expand s closed current (open, gs) (dr, dc) =
          if decide (passable s q) then
            if decide (q ∈ closed) then Ok (open, gs)
            else match gs !! q with
                 | Some g =>
                     if PrimFloat.leb g (tentative_g current (dr, dc))
                     then Ok (open, gs)
                     else Ok (heapq.heappush open node,
                              <[q := tentative_g current (dr, dc)]> gs)
                 | None => Ok (heapq.heappush open node,
                               <[q := tentative_g current (dr, dc)]> gs)
                 end
          else Ok (open, gs)) as ->.
  { unfold expand.
    destruct (is_valid_cases s ((position current).1 + dr)
                ((position current).2 + dc) Hwf) as [[-> Hp]|[-> Hp]];
      change (passable s q) in Hp || change (¬ passable s q) in Hp; simpl.
    - rewrite decide_True by done.
      change ((position current).1 + dr, (position current).2 + dc) with q.
      destruct (decide (q ∈ closed)).
      + by rewrite bool_decide_eq_true_2.
      + rewrite bool_decide_eq_false_2 by done.
        destruct (gs !! q) as [g|]; [|done].
        by destruct (PrimFloat.leb g _).
    - by rewrite decide_False. }
  split; [|split; [|split]].
  - intros (Hp & Hncl & Himp).
    change (step (position current) (dr, dc)) with q in Hp, Hncl, Himp, Hrec.
    rewrite decide_True, decide_False by done.
    destruct Himp as [->|(g & Hg & Hlt)]; [done|]. rewrite Hg.
    rewrite float_lt_not_ge in Hlt by eauto.
    apply negb_true_iff in Hlt. by rewrite Hlt.
  - intros Hnp. unfold pushes, improves in Hnp.
    change (step (position current) (dr, dc)) with q in Hnp, Hrec.
    destruct (decide (passable s q)); [|done].
    destruct (decide (q ∈ closed)); [done|].
    destruct (gs !! q) as [g|] eqn:Hg.
    + destruct (PrimFloat.leb g _) eqn:Hle; [done|].
      exfalso. apply Hnp. split; [done|]. split; [done|]. right.
      exists g. split; [done|]. rewrite float_lt_not_ge by eauto.
      by rewrite Hle.
    + exfalso. apply Hnp. split; [done|]. split; [done|]. by left.
  - intros g Hg Heq. rewrite Hg, (float_eq_ge _ _ Heq).
    by repeat case_decide.
  - split; [|done]. by rewrite heappush_perm.
Qed.

Lemma C6_push_iff_strict_improvement_witness :
  let s := constructed [[2; 0; 3]] MANHATTAN false in
  let current := mkNode 2 (0, 0) 0 2 None in
  let gs : gmap pos float := {[ (0, 0) := 0%float; (0, 1) := 1%float ]} in
  let d : Z * Z := (0, 1) in
  well_formed s ∧
  is_nan (tentative_g current d) = false ∧
  (∀ g, gs !! step (position current) d = Some g → is_nan g = false) ∧
  ∀ closed open,
  let q := step (position current) d in
  let node := neighbor_node s current d in
  (pushes s closed gs current d →
     expand s closed current (open, gs) d =
       Ok (heapq.heappush open node, <[q := tentative_g current d]> gs)) ∧
  (¬ pushes s closed gs current d →
     expand s closed current (open, gs) d = Ok (open, gs)) ∧
  (∀ g, gs !! q = Some g →
        PrimFloat.eqb (tentative_g current d) g = true →
        expand s closed current (open, gs) d = Ok (open, gs)) ∧
  length (heapq.heappush open node) = S (length open) ∧
  position node = q ∧
  g_score node = tentative_g current d ∧
  f_score node = (tentative_g current d + heuristic s q)%float ∧
  parent node = Some current.
Proof.
  intros s current gs d.
  assert (well_formed s) as Hwf.
  { apply constructed_well_formed.
    by apply (bool_decide_eq_true_1 (scannable _)). }
  assert (is_nan (tentative_g current d) = false) as Htg by by vm_compute.
  assert (∀ g, gs !! step (position current) d = Some g →
               is_nan g = false) as Hrec.
  { intros g. vm_compute. by intros [= <-]. }
  split; [done|]. split; [done|]. split; [done|].
  intros closed open.
  exact (C6_push_iff_strict_improvement s closed current open gs d
           Hwf Htg Hrec).
Defined.

(** The tie of the example above: the best-g recorded for [(0,1)] is 1.0,
    the tentative g through the start is 1.0, and nothing is pushed. *)
Example C6_equal_cost_is_skipped :
  expand (constructed [[2; 0; 3]] MANHATTAN false) ∅
    (mkNode 2 (0, 0) 0 2 None)
    ([], {[ (0, 0) := 0%float; (0, 1) := 1%float ]}) (0, 1) =
  Ok ([], {[ (0, 0) := 0%float; (0, 1) := 1%float ]}).
Proof. by vm_compute. Qed.

(** ** The annotated copy, cell by cell *)

Lemma indexes_cell_at mz p :
  indexes mz p ↔
  0 ≤ p.1 ∧ 0 ≤ p.2 ∧ is_Some (cell_at mz (Z.to_nat p.1) (Z.to_nat p.2)).
Proof.
  unfold indexes, cell_at. split; intros (H1 & H2 & x & Hx);
    (split; [done|]; split; [done|]); exists x.
  - apply cell_Ok in Hx as (row & -> & Hx); done.
  - apply cell_Ok; [done..|].
    destruct (mz !! Z.to_nat p.1) as [row|]; [|done]. by exists row.
Qed.

Lemma marked_code_idem test v x :
  marked_code test v (marked_code test v x) = marked_code test v x.
Proof. unfold marked_code. destruct (test x) eqn:E; [|by rewrite E]. by destruct (test v). Qed.

Lemma mark_cell_spec test v G p :
  indexes G p →
  ∃ G', mark_cell test v G p = Ok G' ∧
    ∀ i j, cell_at G' i j =
           (if decide (i = Z.to_nat p.1 ∧ j = Z.to_nat p.2)
            then marked_code test v else id) <$> cell_at G i j.
Proof.
  intros (Hi & Hj & x & Hx).
  apply cell_Ok in Hx as (row & Hrow & Hx); [|done..].
  unfold mark_cell.
  rewrite (proj2 (getitem_Ok G p.1 row Hi) Hrow). simpl.
  rewrite (proj2 (getitem_Ok row p.2 x Hj) Hx). simpl.
  destruct (test x) eqn:Ht.
  - unfold setitem. rewrite !index_nonneg by done.
    apply lookup_lt_Some in Hx as Hlx. apply lookup_lt_Some in Hrow as Hlr.
    destruct (Z.ltb_spec p.2 (Z.of_nat (length row))); [|lia]. simpl.
    destruct (Z.ltb_spec p.1 (Z.of_nat (length G))); [|lia].
    eexists. split; [done|]. intros i j. unfold cell_at.
    destruct (decide (i = Z.to_nat p.1)) as [->|Hne].
    + rewrite list_lookup_insert_eq, Hrow by done. simpl.
      destruct (decide (j = Z.to_nat p.2)) as [->|Hnj].
      * rewrite list_lookup_insert_eq, Hx by done.
        rewrite decide_True by done. simpl. unfold marked_code. by rewrite Ht.
      * rewrite list_lookup_insert_ne by done.
        rewrite decide_False by tauto. by destruct (row !! j).
    + rewrite list_lookup_insert_ne by done.
      rewrite decide_False by tauto.
      by destruct (G !! i ≫= (.!! j)).
  - exists G. split; [done|]. intros i j. unfold cell_at.
    case_decide as Hij; [|by destruct (G !! i ≫= (.!! j))].
    destruct Hij as [-> ->]. rewrite Hrow. simpl. rewrite Hx. simpl.
    unfold marked_code. by rewrite Ht.
Qed.

Lemma mark_loop_spec test v ps G :
  Forall (indexes G) ps →
  ∃ G', for_each ps (mark_cell test v) G = Ok G' ∧
    ∀ i j, cell_at G' i j =
           (if decide ((Z.of_nat i, Z.of_nat j) ∈ ps)
            then marked_code test v else id) <$> cell_at G i j.
Proof.
  revert G. induction ps as [|p ps IH]; intros G Hps.
  - exists G. split; [done|]. intros i j.
    rewrite decide_False by apply not_elem_of_nil.
    by destruct (cell_at G i j).
  - apply Forall_cons in Hps as [Hp Hps].
    destruct (mark_cell_spec test v G p Hp) as (G1 & HG1 & Hc1).
    destruct (IH G1) as (G' & HG' & Hc').
    { eapply Forall_impl; [exact Hps|]. intros q Hq.
      apply indexes_cell_at in Hq as (? & ? & Hq). apply indexes_cell_at.
      split; [done|]. split; [done|]. rewrite Hc1.
      by apply fmap_is_Some. }
    exists G'. split; [cbn [for_each]; by rewrite HG1|].
    intros i j. rewrite Hc', Hc1.
    destruct Hp as (Hp1 & Hp2 & _).
    assert ((Z.of_nat i, Z.of_nat j) = p ↔
            i = Z.to_nat p.1 ∧ j = Z.to_nat p.2) as Hiff.
    { destruct p as [a b]; simpl in *. split; [intros [= <- <-]; lia|].
      intros [-> ->]. f_equal; lia. }
    destruct (cell_at G i j) as [x|]; simpl; [|done]. f_equal.
    destruct (decide ((Z.of_nat i, Z.of_nat j) ∈ ps)) as [Hin|Hnin],
             (decide (i = Z.to_nat p.1 ∧ j = Z.to_nat p.2)) as [Heq|Hneq];
      simpl.
    + rewrite decide_True by (by right). apply marked_code_idem.
    + by rewrite decide_True by (by right).
    + by rewrite decide_True by (apply elem_of_cons; left; by apply Hiff).
    + rewrite decide_False; [done|].
      intros [H|H]%elem_of_cons; [by apply Hneq, Hiff|done].
Qed.

Lemma annotation_marked vo path p x :
  annotation vo path p x =
  (if decide (p ∈ path) then marked_code not_endpoint (value PATH) else id)
    ((if decide (p ∈ vo) then marked_code is_empty (value VISITED) else id) x).
Proof.
  unfold annotation, marked_code, not_endpoint, is_empty. simpl.
  destruct (decide (p ∈ path)), (decide (p ∈ vo)); simpl;
    destruct (Z.eqb_spec x 0), (Z.eqb_spec x 2), (Z.eqb_spec x 3);
    repeat case_decide; simpl; try done; try lia; try tauto.
  all: subst; try done; exfalso; naive_solver lia.
Qed.

(** The grid returned by [get_solution_maze] has the shape of the stored
    grid, with each code replaced by its annotation. *)
Lemma get_solution_maze_spec s path :
  Forall (indexes (maze s)) (visited_order s) →
  Forall (indexes (maze s)) path →
  ∃ result, get_solution_maze s path = Ok result ∧
    ∀ i j, cell_at result i j =
           annotation (visited_order s) path (Z.of_nat i, Z.of_nat j)
             <$> cell_at (maze s) i j.
Proof.
  intros Hvo Hpath. unfold get_solution_maze.
  destruct (mark_loop_spec is_empty (value VISITED) _ _ Hvo) as (G1 & -> & Hc1).
  cbn [mbind res_bind].
  destruct (mark_loop_spec not_endpoint (value PATH) path G1) as (G2 & -> & Hc2).
  { eapply Forall_impl; [exact Hpath|]. intros q Hq.
    apply indexes_cell_at in Hq as (? & ? & Hq). apply indexes_cell_at.
    split; [done|]. split; [done|]. rewrite Hc1. by apply fmap_is_Some. }
  exists G2. split; [done|]. intros i j. rewrite Hc2, Hc1.
  destruct (cell_at (maze s) i j) as [x|]; simpl; [|done].
  by rewrite annotation_marked.
Qed.

(** ** Rows as objects: what is copied and what is written *)

Lemma holds_read σ g mz : Rows.read σ g = Some mz ↔ holds σ g mz.
Proof. apply mapM_Some. Qed.

Lemma holds_frame σ σ' g mz :
  holds σ g mz → (∀ l, l ∈ g → σ' !! l = σ !! l) → holds σ' g mz.
Proof.
  intros H Hsame. unfold holds in *.
  induction H as [|l row g mz Hl H IH]; constructor.
  - rewrite Hsame; [done|left].
  - apply IH. intros l' Hl'. apply Hsame. by right.
Qed.

Lemma holds_dom σ g mz l : holds σ g mz → l ∈ g → l ∈ dom σ.
Proof.
  intros H Hl. unfold holds in H. induction H as [|l0 row g mz Hl0 H IH].
  - by apply elem_of_nil in Hl.
  - apply elem_of_cons in Hl as [->|Hl]; [|by apply IH].
    apply elem_of_dom. eauto.
Qed.

(** Copying the rows of a grid allocates new, pairwise distinct row
    objects with the same items, and writes to no existing object. *)
Lemma copy_rows_spec σ g mz :
  holds σ g mz →
  ∃ σ' g',
    Rows.copy_rows σ g = Ok (σ', g') ∧
    holds σ' g' mz ∧
    (∀ l, l ∈ dom σ → σ' !! l = σ !! l) ∧
    NoDup g' ∧
    (∀ l, l ∈ g' → l ∉ dom σ).
Proof.
  intros H. revert σ mz H. induction g as [|l g IH]; intros σ mz0 H;
    inversion H as [|l' row g0 mz Hl Hg]; subst.
  - exists σ, []. repeat split; try done; try constructor.
    by intros l ?%elem_of_nil.
  - simpl. rewrite Hl.
    set (l1 := fresh (dom σ)).
    assert (l1 ∉ dom σ) as Hfresh by apply is_fresh.
    assert (∀ l', l' ∈ dom σ → <[l1 := row]> σ !! l' = σ !! l') as Hframe1.
    { intros l' Hl'. apply lookup_insert_ne. intros ->. done. }
    destruct (IH (<[l1 := row]> σ) mz)
      as (σ2 & ls & -> & Hholds & Hframe & Hnd & Hnew).
    { eapply holds_frame; [exact Hg|]. intros l' Hl'. apply Hframe1.
      by eapply holds_dom. }
    simpl. exists σ2, (l1 :: ls). split; [done|]. split; [|split; [|split]].
    + constructor; [|done].
      rewrite Hframe by (apply elem_of_dom; rewrite lookup_insert_eq; eauto).
      by rewrite lookup_insert_eq.
    + intros l' Hl'. rewrite Hframe; [by apply Hframe1|].
      apply elem_of_dom. rewrite Hframe1 by done. by apply elem_of_dom.
    + constructor; [|done]. intros Hin. apply (Hnew _ Hin).
      apply elem_of_dom. rewrite lookup_insert_eq. eauto.
    + intros l' [->|Hl']%elem_of_cons; [done|].
      intros Hd. apply (Hnew _ Hl'). apply elem_of_dom.
      rewrite Hframe1 by done. by apply elem_of_dom.
Qed.

Lemma holds_getitem σ g mz i :
  holds σ g mz →
  match getitem g i with
  | Ok l => ∃ k row, index (length mz) i = Some k ∧ g !! k = Some l ∧
                     mz !! k = Some row ∧ σ !! l = Some row
  | Raise e => getitem mz i = Raise e
  end.
Proof.
  intros H. unfold getitem. rewrite <- (Forall2_length _ _ _ H).
  destruct (index (length g) i) as [k|] eqn:Hk; simpl; [|done].
  destruct (g !! k) as [l|] eqn:Hl.
  - destruct (Forall2_lookup_l _ _ _ _ _ H Hl) as (row & Hrow & Hσ).
    exists k, row. done.
  - apply index_Some in Hk. apply lookup_ge_None in Hl. lia.
Qed.

(** Marking a cell through the store is marking it in the rows the grid
    holds, and only row objects of that grid are written. *)
Lemma mark_refines test v σ g G p :
  holds σ g G → NoDup g →
  match mark_cell test v G p with
  | Ok G' => ∃ σ', Rows.mark_cell test v g σ p = Ok σ' ∧ holds σ' g G' ∧
                   ∀ l, l ∉ g → σ' !! l = σ !! l
  | Raise e => Rows.mark_cell test v g σ p = Raise e
  end.
Proof.
  intros H Hnd. unfold mark_cell, Rows.mark_cell.
  pose proof (holds_getitem σ g G p.1 H) as Hget.
  destruct (getitem g p.1) as [l|e]; simpl.
  - destruct Hget as (k & row & Hk & Hgk & HGk & Hl).
    assert (getitem G p.1 = Ok row) as ->.
    { unfold getitem. rewrite Hk. simpl. by rewrite HGk. }
    rewrite Hl. simpl.
    destruct (getitem row p.2) as [x|e]; simpl; [|done].
    destruct (test x); [|by exists σ].
    destruct (setitem row p.2 v) as [row'|e]; simpl; [|done].
    unfold setitem. rewrite Hk.
    eexists. split; [done|]. split.
    + unfold holds in *. apply Forall2_same_length_lookup_2.
      { rewrite length_insert. by eapply Forall2_length. }
      intros k' l' r' Hl' Hr'. destruct (decide (k' = k)) as [->|Hne].
      * rewrite list_lookup_insert_eq in Hr' by (by eapply lookup_lt_Some).
        simplify_eq. by rewrite lookup_insert_eq.
      * rewrite list_lookup_insert_ne in Hr' by done.
        rewrite lookup_insert_ne;
          [exact (Forall2_lookup_lr _ _ _ k' l' r' H Hl' Hr')|].
        intros ->. apply Hne. symmetry. by eapply NoDup_lookup.
    + intros l' Hl'. apply lookup_insert_ne. intros ->.
      apply Hl'. by eapply list_elem_of_lookup_2.
  - by rewrite Hget.
Qed.

Lemma mark_loop_refines test v ps σ g G :
  holds σ g G → NoDup g →
  match for_each ps (mark_cell test v) G with
  | Ok G' => ∃ σ', for_each ps (Rows.mark_cell test v g) σ = Ok σ' ∧
                   holds σ' g G' ∧ ∀ l, l ∉ g → σ' !! l = σ !! l
  | Raise e => for_each ps (Rows.mark_cell test v g) σ = Raise e
  end.
Proof.
  intros H Hnd. revert σ G H. induction ps as [|p ps IH]; intros σ G H.
  - simpl. by exists σ.
  - cbn [for_each].
    pose proof (mark_refines test v σ g G p H Hnd) as Hp.
    destruct (mark_cell test v G p) as [G1|e]; simpl.
    + destruct Hp as (σ1 & -> & H1 & Hf1). simpl.
      specialize (IH σ1 G1 H1).
      destruct (for_each ps (mark_cell test v) G1) as [G'|e]; [|done].
      destruct IH as (σ' & -> & H' & Hf'). exists σ'.
      split; [done|]. split; [done|].
      intros l Hl. by rewrite Hf', Hf1.
    + by rewrite Hp.
Qed.

(** [get_solution_maze] on the store: the grid it returns is made of new
    row objects that hold the annotated rows, and no row object that
    existed before the call is written. *)
Lemma get_solution_maze_refines σ rows s path :
  holds σ rows (maze s) →
  match get_solution_maze s path with
  | Ok result =>
      ∃ σ' rows',
        Rows.get_solution_maze σ rows (visited_order s) path = Ok (σ', rows') ∧
        holds σ' rows' result ∧
        (∀ l, l ∈ dom σ → σ' !! l = σ !! l) ∧
        NoDup rows' ∧
        (∀ l, l ∈ rows' → l ∉ dom σ)
  | Raise e =>
      Rows.get_solution_maze σ rows (visited_order s) path = Raise e
  end.
Proof.
  intros H. unfold get_solution_maze, Rows.get_solution_maze.
  destruct (copy_rows_spec σ rows (maze s) H)
    as (σ0 & rows' & -> & H0 & Hf0 & Hnd & Hnew).
  cbn [mbind res_bind].
  pose proof (mark_loop_refines is_empty (value VISITED) (visited_order s)
                σ0 rows' (maze s) H0 Hnd) as H1.
  destruct (for_each (visited_order s) _ (maze s)) as [G1|e];
    cbn [mbind res_bind]; [|by rewrite H1].
  destruct H1 as (σ1 & -> & H1 & Hf1). cbn [mbind res_bind].
  pose proof (mark_loop_refines not_endpoint (value PATH) path
                σ1 rows' G1 H1 Hnd) as H2.
  destruct (for_each path _ G1) as [G2|e]; [|by rewrite H2].
  destruct H2 as (σ2 & -> & H2 & Hf2). cbn [mbind res_bind].
  exists σ2, rows'. split; [done|]. split; [done|].
  split; [|done].
  intros l Hl. rewrite Hf2, Hf1, Hf0; try done; intros Hin; by apply (Hnew l).
Qed.

Lemma solve_same_grid fuel s s' found stats :
  solve fuel s = Some (Ok (s', found, stats)) →
  maze s' = maze s ∧ rows s' = rows s ∧ cols s' = cols s ∧
  start s' = start s ∧ goal s' = goal s.
Proof.
  unfold solve.
  destruct (start s) eqn:Hs, (goal s) eqn:Hg; try (by intros [= <- _ _]).
  destruct (search _ _ _) as [[[[σ f] st]|e]|]; try done.
  by intros [= <- _ _].
Qed.

Lemma passable_indexes s p : passable s p → indexes (maze s) p.
Proof. intros ((H1 & H2) & v & Hv & _). split; [lia|]. split; [lia|]. eauto. Qed.

Lemma solve_visited_indexes mz h d s fuel s' found stats :
  __init__ mz h d = Ok s →
  solve fuel s = Some (Ok (s', found, stats)) →
  Forall (indexes mz) (visited_order s').
Proof.
  intros Hinit Hsolve.
  pose proof (init_well_formed _ _ _ _ Hinit) as Hwf.
  rewrite init_spec in Hinit. destruct (decide (scannable mz)); [|done].
  injection Hinit as <-.
  destruct (start (constructed mz h d)) as [st|] eqn:Hst;
    [|rewrite solve_missing_endpoints in Hsolve by (by left);
      injection Hsolve as <- _ _; constructor].
  destruct (goal (constructed mz h d)) as [g|] eqn:Hg;
    [|rewrite solve_missing_endpoints in Hsolve by (by right);
      injection Hsolve as <- _ _; constructor].
  destruct (solve_inv _ st g fuel _ Hwf Hst Hg Hsolve)
    as (σ & found' & stats' & [= -> <- <-] & _ & _ & Hreach & _).
  apply Forall_forall. intros p Hp.
  by apply (passable_indexes (constructed mz h d)), Hreach.
Qed.

(** C9: the solver's stored grid is never written.  With the caller's
    grid held by row objects [caller] of a store, the constructor keeps
    its own new copies [rows] of those rows; [solve] leaves the [maze]
    attribute as it is; and [get_solution_maze], called after [solve] with
    a path of cells of the grid, returns a grid made of new row objects
    while every row object that existed before the call, the solver's
    rows among them, holds what it held.  In the returned grid a cell on
    the path that is not a start or goal marker is [PATH], a visited empty
    cell off the path is [VISITED], and every other cell, the start and
    goal markers included, keeps its code. *)
Theorem C9_stored_grid_is_never_modified
    (mz : list (list Z)) (h : HeuristicType) (d : bool) (s s' : MazeSolver)
    (fuel : nat) (found : option (list pos)) (stats : Stats)
    (path : list pos) (σ0 : gmap nat (list Z)) (caller : list nat) :
  __init__ mz h d = Ok s →
  solve fuel s = Some (Ok (s', found, stats)) →
  Forall (indexes mz) path →
  holds σ0 caller mz →
  ∃ σ rows,
    Rows.copy_rows σ0 caller = Ok (σ, rows) ∧
    holds σ rows mz ∧
    (∀ l, l ∈ rows → l ∉ dom σ0) ∧
    maze s = mz ∧ maze s' = mz ∧
    ∃ result σ' rows',
      get_solution_maze s' path = Ok result ∧
      Rows.get_solution_maze σ rows (visited_order s') path = Ok (σ', rows') ∧
      holds σ' rows' result ∧
      holds σ' rows mz ∧
      (∀ l, l ∈ dom σ → σ' !! l = σ !! l) ∧
      NoDup rows' ∧
      (∀ l, l ∈ rows' → l ∉ dom σ) ∧
      (∀ i j, cell_at result i j =
              annotation (visited_order s') path (Z.of_nat i, Z.of_nat j)
                <$> cell_at mz i j).
Proof.
  intros Hinit Hsolve Hpath Hcaller.
  destruct (copy_rows_spec σ0 caller mz Hcaller)
    as (σ & rows & Hcopy & Hrows & _ & _ & Hnew).
  exists σ, rows. split; [done|]. split; [done|]. split; [done|].
  assert (maze s = mz) as Hmz.
  { rewrite init_spec in Hinit. destruct (decide (scannable mz)); [|done].
    by injection Hinit as <-. }
  destruct (solve_same_grid _ _ _ _ _ Hsolve) as (Hmz' & _).
  rewrite Hmz in Hmz'. split; [done|]. split; [done|].
  pose proof (solve_visited_indexes _ _ _ _ _ _ _ _ Hinit Hsolve) as Hvo.
  rewrite <- Hmz' in Hvo, Hpath, Hrows.
  destruct (get_solution_maze_spec s' path Hvo Hpath) as (result & Hres & Hcells).
  pose proof (get_solution_maze_refines σ rows s' path Hrows) as Href.
  rewrite Hres in Href.
  destruct Href as (σ' & rows' & Hrun & Hheld & Hframe & Hnd & Hfresh).
  exists result, σ', rows'. rewrite <- Hmz'.
  repeat (split; [done|]). split; [|done].
  eapply holds_frame; [exact Hrows|].
  intros l Hl. apply Hframe. by eapply holds_dom.
Qed.

Lemma C9_stored_grid_is_never_modified_witness :
  let mz := [[2; 0; 0]; [1; 1; 0]; [3; 0; 0]] in
  let path := [(0, 0); (0, 1); (1, 2); (2, 1); (2, 0)] in
  let σ0 : gmap nat (list Z) :=
    {[ 0%nat := [2; 0; 0]; 1%nat := [1; 1; 0]; 2%nat := [3; 0; 0] ]} in
  let caller := [0; 1; 2]%nat in
  ∃ s s' stats,
  __init__ mz EUCLIDEAN true = Ok s ∧
  solve 20 s = Some (Ok (s', Some path, stats)) ∧
  Forall (indexes mz) path ∧
  holds σ0 caller mz ∧
  ∃ σ rows,
    Rows.copy_rows σ0 caller = Ok (σ, rows) ∧
    holds σ rows mz ∧
    (∀ l, l ∈ rows → l ∉ dom σ0) ∧
    maze s = mz ∧ maze s' = mz ∧
    ∃ result σ' rows',
      get_solution_maze s' path = Ok result ∧
      Rows.get_solution_maze σ rows (visited_order s') path = Ok (σ', rows') ∧
      holds σ' rows' result ∧
      holds σ' rows mz ∧
      (∀ l, l ∈ dom σ → σ' !! l = σ !! l) ∧
      NoDup rows' ∧
      (∀ l, l ∈ rows' → l ∉ dom σ) ∧
      (∀ i j, cell_at result i j =
              annotation (visited_order s') path (Z.of_nat i, Z.of_nat j)
                <$> cell_at mz i j).
Proof.
  intros mz path σ0 caller.
  assert (Forall (indexes mz) path) as Hpath.
  { repeat (apply Forall_cons_2;
              [split; [done|split; [done|eexists; by vm_compute]]|]).
    apply Forall_nil_2. }
  assert (holds σ0 caller mz) as Hheld.
  { unfold holds. repeat (constructor; [by vm_compute|]). constructor. }
  eexists _, _, _. split; [by vm_compute|]. split; [by vm_compute|].
  split; [done|]. split; [done|].
  eapply (C9_stored_grid_is_never_modified mz EUCLIDEAN true _ _ 20);
    [by vm_compute|by vm_compute|done|done].
Defined.

Example C9_annotated_copy :
  ∃ s s' stats,
    __init__ [[2; 0; 0]; [0; 1; 0]; [0; 0; 3]] MANHATTAN false = Ok s ∧
    solve 30 s =
      Some (Ok (s', Some [(0, 0); (1, 0); (2, 0); (2, 1); (2, 2)], stats)) ∧
    visited_order s' =
      [(0, 0); (1, 0); (0, 1); (2, 0); (0, 2); (2, 1); (1, 2); (2, 2)] ∧
    get_solution_maze s' [(0, 0); (1, 0); (2, 0); (2, 1); (2, 2)] =
      Ok [[2; 5; 5]; [4; 1; 5]; [4; 4; 3]] ∧
    maze s' = [[2; 0; 0]; [0; 1; 0]; [0; 0; 3]].
Proof.
  eexists _, _, _. split; [by vm_compute|]. split; [by vm_compute|].
  by vm_compute.
Qed.

(** * Searches whose costs are whole numbers *)

(** ** The heap order of [heapq] *)

Lemma parent_lt j : (0 < j)%nat → (Nat.shiftr (j - 1) 1 < j)%nat.
Proof.
  intros Hj. rewrite Nat.shiftr_div_pow2. change (2 ^ 1)%nat with 2%nat.
  pose proof (Nat.div_mod_eq (j - 1) 2).
  pose proof (Nat.mod_upper_bound (j - 1) 2). lia.
Qed.

Lemma parent_cases j p :
  (0 < j)%nat → Nat.shiftr (j - 1) 1 = p →
  j = (2 * p + 1)%nat ∨ j = (2 * p + 2)%nat.
Proof.
  intros Hj. rewrite Nat.shiftr_div_pow2. change (2 ^ 1)%nat with 2%nat.
  pose proof (Nat.div_mod_eq (j - 1) 2).
  pose proof (Nat.mod_upper_bound (j - 1) 2). lia.
Qed.

Lemma parent_of_child c p :
  c = (2 * p + 1)%nat ∨ c = (2 * p + 2)%nat → Nat.shiftr (c - 1) 1 = p.
Proof.
  intros Hc. rewrite Nat.shiftr_div_pow2. change (2 ^ 1)%nat with 2%nat.
  pose proof (Nat.div_mod_eq (c - 1) 2).
  pose proof (Nat.mod_upper_bound (c - 1) 2). lia.
Qed.

Lemma heap_ok_away_insert k heap pos x :
  heap_ok_away k heap pos → heap_ok_away k (<[pos := x]> heap) pos.
Proof.
  intros H j a b Hj Hne Hpar. rewrite !list_lookup_insert_ne by done.
  by apply H.
Qed.

Lemma heap_ok_across_insert k heap pos x :
  heap_ok_across k heap pos → heap_ok_across k (<[pos := x]> heap) pos.
Proof.
  intros H c a b Hpos Hc Hpar.
  pose proof (parent_lt pos Hpos). pose proof (parent_lt c Hc).
  rewrite !list_lookup_insert_ne by lia. by apply H.
Qed.

Lemma heap_root_min k heap x :
  heap_ok k heap → heap !! 0%nat = Some x →
  ∀ j y, heap !! j = Some y → k x ≤ k y.
Proof.
  intros Hok Hx j. induction (lt_wf j) as [j _ IH]. intros y Hy.
  destruct (decide (j = 0%nat)) as [->|Hj]; [simplify_eq; lia|].
  pose proof (parent_lt j ltac:(lia)) as Hlt.
  destruct (lookup_lt_is_Some_2 heap (Nat.shiftr (j - 1) 1)) as [a Ha].
  { apply lookup_lt_Some in Hy. lia. }
  specialize (IH _ Hlt a Ha). specialize (Hok j a y ltac:(lia) Hy Ha). lia.
Qed.

Section heap_order.
Context (k : Node → Z) (good : Node → Prop).
Hypothesis node_lt_key :
  ∀ x y, good x → good y →
    (node_lt x y = true → k x ≤ k y) ∧ (node_lt x y = false → k y ≤ k x).

Lemma siftdown_loop_ok n heap x pos :
  (pos ≤ n)%nat → (pos < length heap)%nat → good x → Forall good heap →
  heap_ok_away k heap pos → heap_ok_across k heap pos →
  fits_above k x heap pos →
  heap_ok k (heapq._siftdown_loop n heap x 0 pos).
Proof.
  revert heap pos. induction n as [|n IH];
    intros heap pos Hn Hlen Hx Hgood Haway Hacross Hfits;
    cbn [heapq._siftdown_loop].
  - assert (pos = 0%nat) as -> by lia.
    intros j a b Hj Hb Ha.
    pose proof (parent_lt j Hj) as Hlt.
    destruct (decide (Nat.shiftr (j - 1) 1 = 0%nat)) as [Hp|Hp].
    + rewrite Hp in Ha. rewrite list_lookup_insert_eq in Ha by done.
      rewrite list_lookup_insert_ne in Hb by lia. simplify_eq.
      by eapply Hfits.
    + rewrite list_lookup_insert_ne in Ha, Hb by lia.
      eapply Haway; [exact Hj|lia|done..].
  - destruct (Nat.ltb_spec 0 pos) as [Hpos|Hpos0].
    2: { assert (pos = 0%nat) as -> by lia.
         intros j a b Hj Hb Ha.
         pose proof (parent_lt j Hj) as Hlt.
         destruct (decide (Nat.shiftr (j - 1) 1 = 0%nat)) as [Hp|Hp].
         - rewrite Hp in Ha. rewrite list_lookup_insert_eq in Ha by done.
           rewrite list_lookup_insert_ne in Hb by lia. simplify_eq.
           by eapply Hfits.
         - rewrite list_lookup_insert_ne in Ha, Hb by lia.
           eapply Haway; [exact Hj|lia|done..]. }
    pose proof (parent_lt pos Hpos) as Hlt.
    destruct (lookup_lt_is_Some_2 heap (Nat.shiftr (pos - 1) 1))
      as [parent Hpar]; [lia|].
    rewrite Hpar.
    assert (good parent) as Hgp by (exact (Forall_lookup_1 _ _ _ _ Hgood Hpar)).
    destruct (node_lt_key x parent Hx Hgp) as [Htrue Hfalse].
    destruct (node_lt x parent) eqn:Hltx.
    + specialize (Htrue eq_refl). clear Hfalse.
      set (pp := Nat.shiftr (pos - 1) 1) in *.
      apply IH.
      * lia.
      * rewrite length_insert. lia.
      * done.
      * by apply Forall_insert.
      * intros j a b Hj Hjp Hpj Hb Ha.
        destruct (decide (j = pos)) as [->|Hjpos]; [done|].
        rewrite list_lookup_insert_ne in Hb by done.
        destruct (decide (Nat.shiftr (j - 1) 1 = pos)) as [Hp|Hp].
        -- rewrite Hp, list_lookup_insert_eq in Ha by done. simplify_eq.
           by eapply (Hacross j).
        -- rewrite list_lookup_insert_ne in Ha by done. by eapply Haway.
      * intros c a b Hpp Hc Hcp Hb Ha.
        pose proof (parent_lt pp Hpp) as Hltp.
        rewrite list_lookup_insert_ne in Ha by lia.
        assert (k a ≤ k parent) as Hap.
        { eapply (Haway pp); [done|lia|lia|done..]. }
        destruct (decide (c = pos)) as [->|Hcpos].
        -- rewrite list_lookup_insert_eq in Hb by done. by simplify_eq.
        -- rewrite list_lookup_insert_ne in Hb by done.
           assert (k parent ≤ k b); [|lia].
           eapply (Haway c); [done|done|lia|done|by rewrite Hcp].
      * intros c b Hc Hcp Hb.
        destruct (decide (c = pos)) as [->|Hcpos].
        -- rewrite list_lookup_insert_eq in Hb by done. simplify_eq. lia.
        -- rewrite list_lookup_insert_ne in Hb by done.
           assert (k parent ≤ k b); [|lia].
           eapply (Haway c); [done|done|lia|done|by rewrite Hcp].
    + specialize (Hfalse eq_refl). clear Htrue.
      intros j a b Hj Hb Ha.
      pose proof (parent_lt j Hj) as Hltj.
      destruct (decide (j = pos)) as [->|Hjp].
      * rewrite list_lookup_insert_eq in Hb by done.
        rewrite list_lookup_insert_ne in Ha by lia. by simplify_eq.
      * rewrite list_lookup_insert_ne in Hb by done.
        destruct (decide (Nat.shiftr (j - 1) 1 = pos)) as [Hp|Hp].
        -- rewrite Hp, list_lookup_insert_eq in Ha by done. simplify_eq.
           by eapply Hfits.
        -- rewrite list_lookup_insert_ne in Ha by done.
           by eapply Haway.
Qed.

Lemma heappush_ok heap x :
  good x → Forall good heap → heap_ok k heap →
  heap_ok k (heapq.heappush heap x).
Proof.
  intros Hx Hgood Hok. unfold heapq.heappush, heapq._siftdown.
  rewrite length_app. simpl.
  replace (length heap + 1 - 1)%nat with (length heap) by lia.
  rewrite lookup_app_r, Nat.sub_diag by lia. simpl.
  apply siftdown_loop_ok.
  - lia.
  - rewrite length_app. simpl. lia.
  - done.
  - apply Forall_app. split; [done|by apply Forall_singleton].
  - intros j a b Hj Hjp Hpj Hb Ha.
    pose proof (parent_lt j Hj) as Hlt.
    apply lookup_lt_Some in Hb as Hjl. rewrite length_app in Hjl. simpl in Hjl.
    rewrite lookup_app_l in Ha, Hb by lia. by eapply Hok.
  - intros c a b Hpos Hc Hcp Hb Ha.
    apply lookup_lt_Some in Hb as Hcl. rewrite length_app in Hcl. simpl in Hcl.
    pose proof (parent_lt c Hc). lia.
  - intros c b Hc Hcp Hb.
    apply lookup_lt_Some in Hb as Hcl. rewrite length_app in Hcl. simpl in Hcl.
    pose proof (parent_lt c Hc). lia.
Qed.

Lemma siftup_loop_ok n heap pos heap' pos' :
  heapq._siftup_loop n heap (length heap) pos = (heap', pos') →
  (length heap ≤ n + pos)%nat → (pos < length heap)%nat →
  Forall good heap →
  heap_ok_away k heap pos → heap_ok_across k heap pos →
  (pos' < length heap')%nat ∧ (length heap' ≤ 2 * pos' + 1)%nat ∧
  Forall good heap' ∧
  heap_ok_away k heap' pos' ∧ heap_ok_across k heap' pos'.
Proof.
  revert heap pos. induction n as [|n IH];
    intros heap pos Hloop Hn Hlen Hgood Haway Hacross; [lia|].
  cbn [heapq._siftup_loop] in Hloop.
  destruct (Nat.ltb_spec (2 * pos + 1) (length heap)) as [Hleft|Hleaf];
    [|by simplify_eq].
  destruct (lookup_lt_is_Some_2 heap (2 * pos + 1)) as [cl Hcl]; [done|].
  rewrite Hcl in Hloop.
  (* the child that moves up, and what it is not above *)
  assert (∃ c cv,
    (c = (2 * pos + 1)%nat ∨ c = (2 * pos + 2)%nat) ∧
    heap !! c = Some cv ∧
    (∀ c' b, (c' = (2 * pos + 1)%nat ∨ c' = (2 * pos + 2)%nat) →
             heap !! c' = Some b → k cv ≤ k b) ∧
    heapq._siftup_loop n (<[pos := cv]> heap) (length heap) c = (heap', pos'))
    as (c & cv & Hc & Hcv & Hmin & Hrec).
  { destruct (heap !! (2 * pos + 1 + 1)%nat) as [cr|] eqn:Hcr.
    - assert (good cl ∧ good cr) as [Hgl Hgr]
        by (split; by eapply Forall_lookup_1).
      apply lookup_lt_Some in Hcr as Hrl.
      destruct (Nat.ltb_spec (2 * pos + 1 + 1) (length heap)) as [_|?]; [|lia].
      destruct (node_lt_key cl cr Hgl Hgr) as [Htrue Hfalse].
      destruct (node_lt cl cr) eqn:Hltc; cbn [andb negb] in Hloop;
        [specialize (Htrue eq_refl) as Hlt|specialize (Hfalse eq_refl) as Hge].
      + rewrite Hcl in Hloop. exists (2 * pos + 1)%nat, cl.
        split; [by left|]. split; [done|]. split; [|done].
        intros c' b [->| ->] Hb; [simplify_eq; lia|].
        replace (2 * pos + 2)%nat with (2 * pos + 1 + 1)%nat in Hb by lia.
        simplify_eq. lia.
      + rewrite Hcr in Hloop. exists (2 * pos + 1 + 1)%nat, cr.
        split; [right; lia|]. split; [done|]. split; [|done].
        intros c' b [->| ->] Hb; [simplify_eq; lia|].
        replace (2 * pos + 2)%nat with (2 * pos + 1 + 1)%nat in Hb by lia.
        simplify_eq. lia.
    - rewrite Hcl in Hloop. exists (2 * pos + 1)%nat, cl.
      split; [by left|]. split; [done|]. split; [|done].
      intros c' b [->| ->] Hb; [simplify_eq; lia|].
      replace (2 * pos + 2)%nat with (2 * pos + 1 + 1)%nat in Hb by lia.
      simplify_eq. }
  assert (good cv) as Hgc by (by eapply Forall_lookup_1).
  assert (pos < c)%nat as Hpc by lia.
  apply lookup_lt_Some in Hcv as Hclen.
  rewrite <- (length_insert heap pos cv) in Hrec.
  apply IH in Hrec; [done|rewrite length_insert; lia..| | |].
  - by apply Forall_insert.
  - intros j a b Hj Hjc Hpjc Hb Ha.
    pose proof (parent_lt j Hj) as Hlt.
    destruct (decide (j = pos)) as [->|Hjpos].
    + rewrite list_lookup_insert_eq in Hb by done.
      rewrite list_lookup_insert_ne in Ha by lia. simplify_eq.
      eapply (Hacross c); [lia|lia|by apply parent_of_child|done..].
    + rewrite list_lookup_insert_ne in Hb by done.
      destruct (decide (Nat.shiftr (j - 1) 1 = pos)) as [Hp|Hp].
      * rewrite Hp, list_lookup_insert_eq in Ha by done. simplify_eq.
        apply (Hmin j); [by apply parent_cases|done].
      * rewrite list_lookup_insert_ne in Ha by done. by eapply Haway.
  - intros j a b Hc0 Hj Hpj Hb Ha.
    rewrite (parent_of_child c pos Hc) in Ha.
    rewrite list_lookup_insert_eq in Ha by done. simplify_eq.
    pose proof (parent_lt j Hj) as Hlt.
    rewrite list_lookup_insert_ne in Hb by lia.
    eapply (Haway j); [done|lia|lia|done|done].
Qed.

Lemma siftup_ok heap x :
  heap !! 0%nat = Some x → Forall good heap → heap_ok_away k heap 0 →
  heap_ok k (heapq._siftup heap 0).
Proof.
  intros Hx Hgood Haway. unfold heapq._siftup. rewrite Hx.
  destruct (heapq._siftup_loop _ _ _ _) as [h3 p3] eqn:Hloop.
  apply lookup_lt_Some in Hx as Hlen.
  apply siftup_loop_ok in Hloop as (Hp3 & Hleaf & Hg3 & Haway3 & Hacross3);
    [|lia|done|done|done|intros c a b Hpos; lia].
  assert (good x) as Hgx by (exact (Forall_lookup_1 _ _ _ _ Hgood Hx)).
  unfold heapq._siftdown. rewrite list_lookup_insert_eq by done.
  apply siftdown_loop_ok.
  - lia.
  - by rewrite length_insert.
  - done.
  - by apply Forall_insert.
  - by apply heap_ok_away_insert.
  - by apply heap_ok_across_insert.
  - intros c b Hc Hcp Hb. apply lookup_lt_Some in Hb.
    rewrite length_insert in Hb.
    apply parent_cases in Hcp; [|done]. lia.
Qed.

Lemma heappop_ok heap x heap' :
  heapq.heappop heap = Some (x, heap') →
  Forall good heap → heap_ok k heap →
  heap_ok k heap' ∧ ∀ y, y ∈ heap' → k x ≤ k y.
Proof.
  intros Hpop Hgood Hok. split.
  2: { intros y Hy. pose proof (heappop_perm _ _ _ Hpop) as Hperm.
       assert (y ∈ heap) as Hin by (rewrite Hperm; by right).
       apply list_elem_of_lookup in Hin as [j Hj].
       eapply heap_root_min; [done| |done].
       revert Hpop. unfold heapq.heappop.
       destruct heap as [|z l _] using rev_ind; [done|].
       rewrite last_snoc, removelast_last.
       destruct l as [|r t]; by intros [= <- <-]. }
  revert Hpop. unfold heapq.heappop.
  destruct heap as [|z l _] using rev_ind; [done|].
  rewrite last_snoc, removelast_last.
  destruct l as [|r t]; intros [= <- <-].
  { intros j a b _ Hb. by rewrite lookup_nil in Hb. }
  apply Forall_app in Hgood as [Hgl Hgz].
  rewrite Forall_singleton in Hgz. apply Forall_cons in Hgl as [Hgr Hgt].
  change (<[0%nat := z]> (r :: t)) with (z :: t).
  apply (siftup_ok _ z); [done|by apply Forall_cons|].
  intros j a b Hj Hj0 Hpj Hb Ha.
  pose proof (parent_lt j Hj) as Hlt.
  apply lookup_lt_Some in Hb as Hjl. simpl in Hjl.
  apply (Hok j); [done| |].
  - rewrite lookup_app_l by (cbn [length]; lia).
    destruct j; [lia|]. done.
  - rewrite lookup_app_l by (cbn [length]; lia).
    destruct (Nat.shiftr (j - 1) 1); [done|]. done.
Qed.

End heap_order.

(** ** Whole numbers in binary64 *)

Lemma whole_floats_lookup B a :
  0 ≤ a ≤ B → whole_floats B !! a = Some (float_of_int a).
Proof.
  intros Ha. unfold whole_floats. apply elem_of_list_to_map_1.
  - replace (((λ a, (a, float_of_int a)) <$> seqZ 0 (B + 1)).*1)
      with (seqZ 0 (B + 1)); [apply NoDup_seqZ|].
    induction (seqZ 0 (B + 1)) as [|x l IH]; [done|]. by rewrite !fmap_cons, <- IH.
  - apply (list_elem_of_fmap_2 (λ a, (a, float_of_int a))), elem_of_seqZ. lia.
Qed.

Lemma whole_costs_exactb_spec B :
  whole_costs_exactb B = true → whole_costs_exact B.
Proof.
  unfold whole_costs_exactb. cbv zeta. rewrite forallb_forall. intros H.
  assert (∀ a b, 0 ≤ a ≤ B → 0 ≤ b ≤ B →
    (a + b ≤ B →
       (float_of_int a + float_of_int b)%float = float_of_int (a + b)) ∧
    PrimFloat.ltb (float_of_int a) (float_of_int b) = (a <? b) ∧
    PrimFloat.leb (float_of_int a) (float_of_int b) = (a <=? b)) as Hall.
  { intros a b Ha Hb.
    specialize (H a). rewrite forallb_forall in H.
    specialize (H ltac:(apply list_elem_of_In, elem_of_seqZ; lia) b
                  ltac:(apply list_elem_of_In, elem_of_seqZ; lia)).
    rewrite !whole_floats_lookup in H by done.
    apply andb_true_iff in H as [H Hle]. apply andb_true_iff in H as [Hadd Hlt].
    apply Bool.eqb_prop in Hlt, Hle. split; [|done].
    intros Hab. rewrite whole_floats_lookup in Hadd by lia.
    by apply FloatAxioms.Leibniz.eqb_spec in Hadd. }
  split.
  - intros a b Ha Hb Hab. apply Hall; lia.
  - intros a b Ha Hb. apply Hall; lia.
Qed.

Lemma whole_costs_exact_mono B B' :
  whole_costs_exact B → B' ≤ B → whole_costs_exact B'.
Proof.
  intros [Hadd Hcmp] HB. split.
  - intros a b Ha Hb Hab. apply Hadd; lia.
  - intros a b Ha Hb. apply Hcmp; lia.
Qed.

(** Every grid of up to 19 by 19 cells is in the exact range. *)
Lemma whole_costs_exact_400 : whole_costs_exact 400.
Proof. apply whole_costs_exactb_spec. by vm_compute. Qed.

Lemma float_of_int_inj B a b :
  whole_costs_exact B → 0 ≤ a ≤ B → 0 ≤ b ≤ B →
  float_of_int a = float_of_int b → a = b.
Proof.
  intros [_ Hcmp] Ha Hb Heq.
  destruct (Hcmp a b Ha Hb) as [Hab _]. destruct (Hcmp b a Hb Ha) as [Hba _].
  destruct (Hcmp a a Ha Ha) as [Haa _]. destruct (Hcmp b b Hb Hb) as [Hbb _].
  rewrite Heq, Hbb in Hab. rewrite <- Heq, Haa in Hba.
  rewrite Z.ltb_irrefl in Hab, Hba.
  symmetry in Hab, Hba. apply Z.ltb_ge in Hab, Hba. lia.
Qed.

Lemma float_of_int_1 : float_of_int 1 = 1.0%float.
Proof. reflexivity. Qed.

(** ** The whole-number heuristics and costs *)

Lemma heuristic_whole s p :
  heuristic_type s ≠ EUCLIDEAN →
  heuristic s p = float_of_int (whole_heuristic s p).
Proof.
  intros Hh. unfold heuristic, whole_heuristic.
  destruct (goal s); [|done]. by destruct (heuristic_type s).
Qed.

Lemma whole_heuristic_nonneg s p : 0 ≤ whole_heuristic s p.
Proof.
  unfold whole_heuristic. destruct (goal s); [|done].
  destruct (heuristic_type s); lia.
Qed.

Lemma whole_heuristic_bound s g p :
  goal s = Some g → passable s g → passable s p →
  whole_heuristic s p ≤ rows s + cols s.
Proof.
  intros Hg [Hgg _] [Hp _]. unfold whole_heuristic. rewrite Hg.
  destruct (heuristic_type s); lia.
Qed.

(** One cardinal move changes the heuristic by at most one. *)
Lemma whole_heuristic_step s p d :
  d ∈ DIRECTIONS_4 →
  whole_heuristic s p ≤ whole_heuristic s (step p d) + 1.
Proof.
  intros Hd. unfold whole_heuristic, step. destruct (goal s); [|lia].
  unfold DIRECTIONS_4 in Hd. 
  repeat (apply elem_of_cons in Hd as [->|Hd]); [..|by apply elem_of_nil in Hd];
    simpl; destruct (heuristic_type s); lia.
Qed.

Lemma whole_heuristic_goal s g : goal s = Some g → whole_heuristic s g = 0.
Proof.
  intros Hg. unfold whole_heuristic. rewrite Hg.
  destruct (heuristic_type s); lia.
Qed.

Lemma cardinal_cost d : d ∈ DIRECTIONS_4 → _get_movement_cost d.1 d.2 = 1.0%float.
Proof.
  intros Hd. unfold DIRECTIONS_4 in Hd.
  repeat (apply elem_of_cons in Hd as [->|Hd]); [..|by apply elem_of_nil in Hd];
    done.
Qed.

Lemma depth_nonneg n : 0 ≤ depth n.
Proof. unfold depth. destruct n; simpl. lia. Qed.

Lemma depth_parent n p : parent n = Some p → depth n = depth p + 1.
Proof. unfold depth. destruct n; simpl. intros ->. lia. Qed.

Lemma depth_root n : parent n = None → depth n = 0.
Proof. unfold depth. destruct n; simpl. by intros ->. Qed.

Lemma chain_nsteps s st n :
  chain s st n → nsteps (move s) (Z.to_nat (depth n)) st (position n).
Proof.
  induction 1 as [n Hp Hpos _|n p d Hp Hch IH Hd Hpos Hpass _].
  - rewrite (depth_root n Hp), Hpos. constructor.
  - rewrite (depth_parent n p Hp).
    pose proof (depth_nonneg p).
    replace (Z.to_nat (depth p + 1)) with (S (Z.to_nat (depth p))) by lia.
    eapply nsteps_r; [done|]. exists d. by rewrite <- Hpos.
Qed.

Lemma visited_le s st σ :
  invariant s st σ →
  (length (visited σ) ≤ length (grid_cells (rows s) (cols s)))%nat.
Proof.
  intros Hinv. apply submseteq_length, NoDup_submseteq; [apply Hinv|].
  intros x Hx. apply elem_of_grid_cells.
  apply (inv_closed _ _ _ Hinv), (inv_reach _ _ _ Hinv) in Hx. apply Hx.
Qed.

(** ** The search with four directions and a whole-number heuristic *)

Section whole_costs.
Context (s : MazeSolver) (st g : pos).
Hypothesis Hwf : well_formed s.
Hypothesis Hst : passable s st.
Hypothesis Hg : goal s = Some g.
Hypothesis Hdirs : directions s = DIRECTIONS_4.
Hypothesis Hheur : heuristic_type s ≠ EUCLIDEAN.
Hypothesis Hexact : whole_costs_exact (cost_bound s).

Local Abbreviation cells := (Z.of_nat (length (grid_cells (rows s) (cols s)))).
Local Abbreviation fz := float_of_int.
Local Abbreviation hz := (whole_heuristic s).

Lemma grid_not_empty : 0 < rows s ∧ 0 < cols s.
Proof. destruct Hst as [? _]. lia. Qed.

Lemma ranked_lt x y :
  ranked s x → ranked s y → node_lt x y = (key s x <? key s y).
Proof.
  intros [Hx ?] [Hy ?]. unfold node_lt. rewrite Hx, Hy.
  by apply Hexact.
Qed.

Lemma ranked_cmp x y :
  ranked s x → ranked s y →
  (node_lt x y = true → key s x ≤ key s y) ∧
  (node_lt x y = false → key s y ≤ key s x).
Proof.
  intros Hx Hy. rewrite (ranked_lt x y Hx Hy).
  split; [intros ?%Z.ltb_lt|intros ?%Z.ltb_ge]; lia.
Qed.

Lemma fz_inj a b :
  0 ≤ a ≤ cells + 1 → 0 ≤ b ≤ cells + 1 → fz a = fz b → a = b.
Proof.
  intros Ha Hb. pose proof grid_not_empty.
  apply (float_of_int_inj (cost_bound s)); unfold cost_bound; [done|lia..].
Qed.

Lemma open_ranked σ n :
  invariant s st σ → cost_invariant s st σ → n ∈ open_set σ → ranked s n.
Proof.
  intros Hinv Hci Hn.
  destruct (ci_open _ _ _ Hci n Hn) as ([_ Hf] & Hd & _).
  destruct (chain_reachable s st n Hst (inv_chain _ _ _ Hinv n Hn)) as [_ Hp].
  pose proof (whole_heuristic_bound s g _ Hg (goal_passable s g Hwf Hg) Hp).
  pose proof (whole_heuristic_nonneg s (position n)).
  pose proof (depth_nonneg n). pose proof (visited_le s st σ Hinv).
  split; [done|]. unfold key, cost_bound. lia.
Qed.

(** Every walk from the start to a position that is not closed yet is
    witnessed in the open set by a node of no larger key. *)
Lemma frontier σ k p :
  invariant s st σ → cost_invariant s st σ → nsteps (move s) k st p →
  p ∈ closed_set σ ∨
  ∃ m, m ∈ open_set σ ∧ key s m ≤ Z.of_nat k + hz p.
Proof.
  intros Hinv Hci. pose proof (visited_le s st σ Hinv) as Hvis.
  revert p. induction k as [|k IH]; intros p Hw.
  - assert (p = st) as -> by (by inversion Hw).
    destruct (decide (st ∈ closed_set σ)) as [?|Hncl]; [by left|right].
    destruct (ci_table _ _ _ Hci st _ (ci_start _ _ _ Hci))
      as (j & Hj & Hjr & Hn).
    destruct (Hn Hncl) as (n & Hin & Hpos & Hdep).
    apply fz_inj in Hj; [|lia..]. subst j.
    exists n. split; [done|]. unfold key. rewrite Hpos. lia.
  - apply nsteps_inv_r in Hw as (y & Hw & Hmv).
    destruct (IH y Hw) as [Hcl|(m & Hm & Hkey)].
    + destruct (ci_closed _ _ _ Hci y Hcl) as (jy & Hy & Hjy & Hopt & Hnbr).
      specialize (Hopt k Hw).
      destruct (Hnbr p Hmv) as (jp & Hp & Hjp).
      destruct (decide (p ∈ closed_set σ)) as [?|Hncl]; [by left|right].
      destruct (ci_table _ _ _ Hci p _ Hp) as (j & Hj & Hjr & Hn).
      destruct (Hn Hncl) as (n & Hin & Hpos & Hdep).
      apply fz_inj in Hj; [|lia..]. subst j.
      exists n. split; [done|]. unfold key. rewrite Hpos. lia.
    + right. exists m. split; [done|].
      destruct Hmv as (d & Hd & -> & _). rewrite Hdirs in Hd.
      pose proof (whole_heuristic_step s y d Hd). lia.
Qed.

Lemma whole_add a b :
  0 ≤ a → 0 ≤ b → a + b ≤ cost_bound s → (fz a + fz b)%float = fz (a + b).
Proof. intros. by apply Hexact. Qed.

(** One direction out of a node whose cost is the whole number of its
    depth: either nothing changes, and then a passable neighbour is
    closed or recorded at most one move further, or the neighbour is
    pushed one move further, below whatever was recorded for it. *)
Lemma expand_whole closed cur open gs d :
  d ∈ DIRECTIONS_4 → g_score cur = fz (depth cur) → depth cur + 1 ≤ cells →
  (∀ q v, gs !! q = Some v → ∃ j, v = fz j ∧ 0 ≤ j ≤ cells) →
  (expand s closed cur (open, gs) d = Ok (open, gs) ∧
   (passable s (step (position cur) d) →
    step (position cur) d ∈ closed ∨
    ∃ j, gs !! step (position cur) d = Some (fz j) ∧ 0 ≤ j ≤ depth cur + 1)) ∨
  (∃ n, expand s closed cur (open, gs) d =
          Ok (heapq.heappush open n,
              <[step (position cur) d := fz (depth cur + 1)]> gs) ∧
        passable s (step (position cur) d) ∧
        (step (position cur) d ∉ closed) ∧
        parent n = Some cur ∧ position n = step (position cur) d ∧
        g_score n = fz (depth cur + 1) ∧
        f_score n = fz (depth cur + 1 + hz (step (position cur) d)) ∧
        (∀ j, gs !! step (position cur) d = Some (fz j) → 0 ≤ j ≤ cells →
              depth cur + 1 < j)).
Proof.
  intros Hd Hgc Hkn Htab.
  pose proof (depth_nonneg cur) as Hk0. pose proof grid_not_empty as Hgrid.
  pose proof (cardinal_cost d Hd) as Hcost.
  destruct d as [dr dc]. unfold expand, step. simpl in *.
  set (q := ((position cur).1 + dr, (position cur).2 + dc)).
  destruct (is_valid_cases s ((position cur).1 + dr) ((position cur).2 + dc) Hwf)
    as [[-> Hpass]|[-> Hnpass]]; simpl;
    [change (passable s q) in Hpass|change (¬ passable s q) in Hnpass].
  2: { left. by split. }
  destruct (decide (q ∈ closed)) as [Hcl|Hncl].
  { rewrite bool_decide_eq_true_2 by done. left. split; [done|]. by left. }
  rewrite bool_decide_eq_false_2 by done.
  pose proof (whole_heuristic_bound s g q Hg (goal_passable s g Hwf Hg) Hpass)
    as Hhq.
  pose proof (whole_heuristic_nonneg s q) as Hh0.
  rewrite Hcost, Hgc, <- float_of_int_1.
  rewrite whole_add by (unfold cost_bound; lia).
  rewrite (heuristic_whole s q Hheur).
  rewrite whole_add by (unfold cost_bound; lia).
  destruct (gs !! q) as [v|] eqn:Hv; simpl.
  - destruct (Htab q v Hv) as (j & -> & Hj).
    destruct Hexact as [_ Hcmp].
    destruct (Hcmp j (depth cur + 1)) as [_ ->]; [unfold cost_bound; lia..|].
    destruct (Z.leb_spec j (depth cur + 1)) as [Hle|Hgt].
    + left. split; [done|]. intros _. right. exists j. split; [done|lia].
    + right. eexists. split; [reflexivity|]. simpl. repeat (split; [done|]).
      intros j' [= Hj'] Hr. apply fz_inj in Hj'; [|lia..]. lia.
  - right. eexists. split; [reflexivity|]. simpl. repeat (split; [done|]).
    intros j' Hj'. done.
Qed.

(** The pass over the directions: the heap stays a heap, the recorded
    costs only go down, and every passable neighbour ends up closed or
    recorded at most one move further than the expanded node. *)
Lemma expand_whole_loop closed cur ds open gs :
  (∀ d, d ∈ ds → d ∈ DIRECTIONS_4) →
  g_score cur = fz (depth cur) → depth cur + 1 ≤ cells →
  heap_ok (key s) open → Forall (ranked s) open →
  (∀ q v, gs !! q = Some v → ∃ j, v = fz j ∧ 0 ≤ j ≤ cells) →
  ∃ open' gs' news,
    for_each ds (expand s closed cur) (open, gs) = Ok (open', gs') ∧
    heap_ok (key s) open' ∧ open' ≡ₚ news ++ open ∧
    (∀ n, n ∈ news →
       parent n = Some cur ∧ whole s n ∧ ranked s n ∧
       passable s (position n) ∧ (position n ∉ closed) ∧
       ∃ j, gs' !! position n = Some (fz j) ∧ 0 ≤ j ≤ depth cur + 1) ∧
    (∀ q v, gs' !! q = Some v →
       gs !! q = Some v ∨
       (v = fz (depth cur + 1) ∧ (q ∉ closed) ∧
        ∃ n, n ∈ news ∧ position n = q)) ∧
    (∀ q j, gs !! q = Some (fz j) → 0 ≤ j ≤ cells →
       ∃ j', gs' !! q = Some (fz j') ∧ 0 ≤ j' ≤ j ∧ (q ∈ closed → j' = j)) ∧
    (∀ d, d ∈ ds → passable s (step (position cur) d) →
       step (position cur) d ∈ closed ∨
       ∃ j, gs' !! step (position cur) d = Some (fz j) ∧
            0 ≤ j ≤ depth cur + 1).
Proof.
  intros Hds Hgc Hkn. pose proof (depth_nonneg cur) as Hk0.
  pose proof grid_not_empty as Hgrid.
  revert open gs. induction ds as [|d0 ds IH]; intros open gs Hheap Hrk Htab.
  { exists open, gs, []. split; [done|]. split; [done|]. split; [done|].
    split; [by intros n ?%elem_of_nil|]. split; [by left|].
    split; [|by intros d ?%elem_of_nil].
    intros q j Hq Hj. exists j. split; [done|]. split; [lia|done]. }
  assert (∀ d, d ∈ ds → d ∈ DIRECTIONS_4) as Hds'
    by (intros d Hd; apply Hds; by right).
  specialize (IH Hds').
  cbn [for_each].
  destruct (expand_whole closed cur open gs d0 (Hds d0 ltac:(left)) Hgc Hkn Htab)
    as [[-> Hskip]|(n0 & -> & Hpass & Hncl & Hpar & Hpos & Hgn & Hfn & Hbelow)];
    cbn [mbind res_bind].
  - destruct (IH open gs Hheap Hrk Htab)
      as (open' & gs' & news & Hfor & Hheap' & Hperm & Hnews & Hnew & Hold & Hnbr).
    exists open', gs', news. repeat (split; [done|]).
    intros d [->|Hd]%elem_of_cons Hp; [|by apply Hnbr].
    destruct (Hskip Hp) as [?|(j & Hj & Hjr)]; [by left|right].
    destruct (Hold _ j Hj ltac:(lia)) as (j' & Hj' & Hjr' & _).
    exists j'. split; [done|lia].
  - set (q0 := step (position cur) d0) in *.
    pose proof (whole_heuristic_bound s g q0 Hg (goal_passable s g Hwf Hg) Hpass)
      as Hhq.
    pose proof (whole_heuristic_nonneg s q0) as Hh0.
    assert (depth n0 = depth cur + 1) as Hdn by (by apply depth_parent).
    assert (key s n0 = depth cur + 1 + hz q0) as Hkey
      by (unfold key; by rewrite Hdn, Hpos).
    assert (ranked s n0) as Hrn.
    { split; [by rewrite Hkey|]. rewrite Hkey. unfold cost_bound. lia. }
    destruct (IH (heapq.heappush open n0) (<[q0 := fz (depth cur + 1)]> gs))
      as (open' & gs' & news & Hfor & Hheap' & Hperm & Hnews & Hnew & Hold & Hnbr).
    { by apply (heappush_ok (key s) (ranked s) ranked_cmp). }
    { rewrite heappush_perm. by constructor. }
    { intros q v [[<- <-]|[_ Hq]]%lookup_insert_Some; [|by eapply Htab].
      exists (depth cur + 1). split; [done|lia]. }
    destruct (Hold q0 (depth cur + 1)) as (j0 & Hj0 & Hjr0 & _);
      [by rewrite lookup_insert_eq|lia|].
    exists open', gs', (news ++ [n0]). split; [done|]. split; [done|].
    split.
    { rewrite Hperm, heappush_perm. rewrite <- app_assoc. done. }
    split; [|split; [|split]].
    + intros n [Hn| ->%list_elem_of_singleton]%elem_of_app; [by apply Hnews|].
      split; [done|]. split; [|split; [done|]].
      { split; [by rewrite Hdn|by rewrite Hkey]. }
      rewrite Hpos. split; [done|]. split; [done|]. by exists j0.
    + intros q v Hv. destruct (Hnew q v Hv) as [Hq|(-> & Hqc & n & Hn & Hnq)].
      * apply lookup_insert_Some in Hq as [[<- <-]|[_ Hq]]; [|by left].
        right. split; [done|]. split; [done|]. exists n0.
        split; [apply elem_of_app; right; by left|done].
      * right. split; [done|]. split; [done|]. exists n.
        split; [apply elem_of_app; by left|done].
    + intros q j Hq Hj. destruct (decide (q = q0)) as [->|Hne].
      * specialize (Hbelow j Hq Hj). exists j0. split; [done|].
        split; [lia|done].
      * apply Hold; [|done]. by rewrite lookup_insert_ne.
    + intros d [->|Hd]%elem_of_cons Hp; [|by apply Hnbr].
      right. by exists j0.
Qed.

(** One iteration keeps the cost invariant, and a node popped for an
    open position has the least number of moves to that position. *)
Lemma iteration_whole σ :
  invariant s st σ → cost_invariant s st σ →
  match iteration s σ with
  | Ok (Continue σ') => cost_invariant s st σ'
  | Ok (Return σ' path stats) =>
      ∃ cur, path = _reconstruct_path cur ∧
             stats = found_stats s path cur (nodes_explored σ + 1) ∧
             g_score cur = fz (depth cur) ∧
             (∀ k, nsteps (move s) k st g → depth cur ≤ Z.of_nat k)
  | Raise _ => True
  end.
Proof.
  intros Hinv Hci. unfold iteration.
  destruct (heapq.heappop (open_set σ)) as [[cur open]|] eqn:Hpop; [|done].
  pose proof (heappop_perm _ _ _ Hpop) as Hperm.
  assert (Forall (ranked s) (open_set σ)) as Hrk.
  { apply Forall_forall. intros n Hn. by eapply open_ranked. }
  destruct (heappop_ok (key s) (ranked s) ranked_cmp _ _ _ Hpop Hrk
              (ci_heap _ _ _ Hci)) as [Hheap Hmin].
  assert (cur ∈ open_set σ) as Hcur by (rewrite Hperm; left).
  assert (∀ n, n ∈ open → n ∈ open_set σ) as Hsub
    by (intros n Hn; rewrite Hperm; by right).
  assert (∀ n, n ∈ open_set σ → n = cur ∨ n ∈ open) as Hsplit.
  { intros n Hn. rewrite Hperm in Hn. by apply elem_of_cons in Hn. }
  assert (∀ n, n ∈ open_set σ → key s cur ≤ key s n) as Hleast.
  { intros n [->|Hn]%Hsplit; [lia|by apply Hmin]. }
  pose proof (visited_le s st σ Hinv) as Hvis.
  pose proof (depth_nonneg cur) as Hk0.
  destruct (decide (position cur ∈ closed_set σ)) as [Hcl|Hncl].
  - (* a stale entry *)
    rewrite bool_decide_eq_true_2 by done.
    destruct Hci as [_ Hop Htb Hcs Hs0].
    constructor; simpl; [done|auto| |done|done].
    intros p v Hv. destruct (Htb p v Hv) as (j & Hj & Hjr & Hn).
    exists j. split; [done|]. split; [done|]. intros Hp.
    destruct (Hn Hp) as (n & Hin & Hpos & Hdep).
    exists n. split; [|done].
    apply Hsplit in Hin as [->|?]; [|done]. by rewrite Hpos in Hcl.
  - rewrite bool_decide_eq_false_2 by done.
    destruct (chain_reachable s st cur Hst (inv_chain _ _ _ Hinv cur Hcur))
      as [_ Hpass].
    pose proof (visited_bound s st σ _ Hinv Hpass Hncl) as Hroom.
    destruct (ci_open _ _ _ Hci cur Hcur) as ([Hgc Hfc] & Hdv & j & Hj & Hjr).
    (* the cost recorded for the position is the depth of the node *)
    assert (j = depth cur) as ->.
    { destruct (ci_table _ _ _ Hci _ _ Hj) as (j2 & Hj2 & Hjr2 & Hn).
      apply fz_inj in Hj2; [|lia..]. subst j2.
      destruct (Hn Hncl) as (n & Hin & Hpos & Hdep).
      specialize (Hleast n Hin). unfold key in Hleast.
      rewrite Hpos, Hdep in Hleast. lia. }
    (* and no walk to the position is shorter *)
    assert (∀ k, nsteps (move s) k st (position cur) →
                 depth cur ≤ Z.of_nat k) as Hbest.
    { intros k Hw.
      destruct (frontier σ k _ Hinv Hci Hw) as [?|(m & Hm & Hkey)]; [done|].
      specialize (Hleast m Hm). unfold key in Hleast at 1. lia. }
    destruct (decide (Some (position cur) = goal s)) as [Hgoal|Hngoal].
    + rewrite bool_decide_eq_true_2 by done.
      exists cur. repeat (split; [done|]).
      rewrite Hg in Hgoal. injection Hgoal as <-. done.
    + rewrite bool_decide_eq_false_2 by done.
      destruct (expand_whole_loop (closed_set σ ∪ {[position cur]}) cur
                  (directions s) open (g_scores σ))
        as (open' & gs' & news & -> & Hheap' & Hperm' & Hnews & Hnew
            & Hold & Hnbr).
      { intros d. by rewrite Hdirs. }
      { done. }
      { lia. }
      { done. }
      { apply Forall_forall. intros n Hn. eapply open_ranked; eauto. }
      { intros q v Hv. destruct (ci_table _ _ _ Hci q v Hv) as (i & ? & ? & _).
        exists i. split; [done|lia]. }
      simpl. constructor; simpl.
      * done.
      * intros n Hn. rewrite Hperm' in Hn. rewrite length_app. simpl.
        apply elem_of_app in Hn as [Hn|Hn].
        -- destruct (Hnews n Hn) as (Hpar & Hw & _ & _ & _ & i & Hi & Hir).
           rewrite (depth_parent n cur Hpar).
           split; [done|]. split; [lia|]. exists i. split; [done|lia].
        -- destruct (ci_open _ _ _ Hci n (Hsub n Hn)) as (Hw & Hd & i & Hi & Hir).
           split; [done|]. split; [lia|].
           destruct (Hold _ i Hi ltac:(lia)) as (i' & Hi' & Hir' & _).
           exists i'. split; [done|lia].
      * intros q v Hv. rewrite length_app. simpl.
        destruct (Hnew q v Hv) as [Hq|(-> & Hqc & n & Hn & Hnq)].
        -- destruct (ci_table _ _ _ Hci q v Hq) as (i & Hi & Hir & Hwit).
           exists i. split; [done|]. split; [lia|]. intros Hqc.
           destruct Hwit as (n & Hin & Hpos & Hdep).
           { intros ?. apply Hqc, elem_of_union. by left. }
           exists n. split; [|done]. rewrite Hperm'. apply elem_of_app. right.
           apply Hsplit in Hin as [->|?]; [|done].
           exfalso. apply Hqc, elem_of_union. right. by apply elem_of_singleton.
        -- exists (depth cur + 1). split; [done|]. split; [lia|]. intros _.
           exists n. split; [rewrite Hperm'; apply elem_of_app; by left|].
           split; [done|]. destruct (Hnews n Hn) as (Hpar & _).
           by apply depth_parent.
      * intros q Hq. rewrite length_app. simpl.
        assert (∀ r i, g_scores σ !! r = Some (fz i) → 0 ≤ i ≤ cells →
                       r ∈ closed_set σ ∪ {[position cur]} →
                       gs' !! r = Some (fz i)) as Hkeep.
        { intros r i Hr Hir Hrc.
          destruct (Hold r i Hr Hir) as (i' & Hi' & _ & Heq).
          by rewrite Hi', (Heq Hrc). }
        assert (∀ r i, g_scores σ !! r = Some (fz i) → 0 ≤ i ≤ cells →
                       ∃ i', gs' !! r = Some (fz i') ∧ 0 ≤ i' ≤ i) as Hdown.
        { intros r i Hr Hir.
          destruct (Hold r i Hr Hir) as (i' & Hi' & ? & _). eauto. }
        apply elem_of_union in Hq as [Hq| ->%elem_of_singleton].
        -- destruct (ci_closed _ _ _ Hci q Hq) as (i & Hi & Hir & Hopt & Hn).
           exists i. split; [apply Hkeep; [done|lia|apply elem_of_union; by left]|].
           split; [lia|]. split; [done|].
           intros r Hmv. destruct (Hn r Hmv) as (ir & Hr & Hrr).
           destruct (Hdown r ir Hr ltac:(lia)) as (ir' & Hr' & Hrr').
           exists ir'. split; [done|lia].
        -- exists (depth cur).
           assert (position cur ∈ closed_set σ ∪ {[position cur]}) as Hself
             by (apply elem_of_union; right; by apply elem_of_singleton).
           split; [by apply Hkeep; [|lia|]|].
           split; [lia|]. split; [done|].
           intros r (d & Hd & -> & Hr).
           destruct (Hnbr d Hd Hr) as [Hrc|?]; [|done].
           apply elem_of_union in Hrc as [Hrc|Hrc%elem_of_singleton].
           ++ destruct (ci_closed _ _ _ Hci _ Hrc) as (i & Hi & Hir & Hopt & _).
              exists i.
              split; [apply Hkeep; [done|lia|apply elem_of_union; by left]|].
              split; [lia|].
              pose proof (chain_nsteps s st cur (inv_chain _ _ _ Hinv cur Hcur))
                as Hw.
              assert (move s (position cur) (step (position cur) d)) as Hmv
                by (by exists d).
              specialize (Hopt _ (nsteps_r _ _ _ _ Hw Hmv)). lia.
           ++ rewrite Hrc. exists (depth cur).
              split; [by apply Hkeep; [|lia|]|lia].
      * destruct (Hold st 0 (ci_start _ _ _ Hci) ltac:(lia))
          as (i & Hi & Hir & _).
        by replace i with 0 in Hi by lia.
Qed.

Lemma initial_cost_invariant : cost_invariant s st (initial_search s st).
Proof.
  unfold initial_search. rewrite (heuristic_whole s st Hheur).
  set (node := mkNode _ st _ _ None).
  pose proof (whole_heuristic_bound s g st Hg (goal_passable s g Hwf Hg) Hst)
    as Hh.
  pose proof (whole_heuristic_nonneg s st) as Hh0.
  pose proof grid_not_empty as Hgrid.
  assert (depth node = 0) as Hd by done.
  assert (key s node = hz st) as Hkey by (unfold key; by rewrite Hd).
  assert (∀ n, n ∈ heapq.heappush [] node → n = node) as Hopen.
  { intros n. rewrite heappush_perm. intros Hn.
    by apply list_elem_of_singleton in Hn. }
  constructor; simpl.
  - apply (heappush_ok (key s) (ranked s) ranked_cmp); [|done|].
    + split; [by rewrite Hkey|]. rewrite Hkey. unfold cost_bound. lia.
    + intros j a b _ Hb. by rewrite lookup_nil in Hb.
  - intros n ->%Hopen. split; [|split; [lia|]].
    + split; [by rewrite Hd|by rewrite Hkey].
    + exists 0. simpl. rewrite lookup_insert_eq. split; [done|lia].
  - intros p v [[<- <-]|[_ Hv]]%lookup_insert_Some;
      [|by rewrite lookup_empty in Hv].
    exists 0. split; [done|]. split; [lia|]. intros _. exists node.
    split; [rewrite heappush_perm; left|done].
  - by intros p ?%not_elem_of_empty.
  - by rewrite lookup_insert_eq.
Qed.

(** A path returned by the loop comes from a node with the least number
    of moves from the start to the goal. *)
Lemma search_whole fuel σ σ' path stats :
  invariant s st σ → cost_invariant s st σ →
  search fuel s σ = Some (Ok (σ', Some path, stats)) →
  ∃ cur, path = _reconstruct_path cur ∧
         stats_get stats "path_cost" = Some (PyFloat (fz (depth cur))) ∧
         (∀ k, nsteps (move s) k st g → depth cur ≤ Z.of_nat k).
Proof.
  revert σ. induction fuel as [|fuel IH]; intros σ Hinv Hci; simpl;
    destruct (open_set σ) as [|n0 open0] eqn:Hopen; try done.
  pose proof (iteration_whole σ Hinv Hci) as Hstep.
  destruct (iteration_spec s st σ Hwf Hst Hinv) as
    [(σ1 & Hit & Hinv1 & _)|(σ1 & cur & stats1 & Hit & _)];
    [by rewrite Hopen| |]; rewrite Hit in Hstep |- *.
  - by apply IH.
  - intros [= <- <- <-].
    destruct Hstep as (cur' & Hpath & -> & Hgc & Hbest).
    exists cur'. split; [done|]. split; [|done]. simpl. by rewrite Hgc.
Qed.

End whole_costs.

(** ** The cost of the returned path *)

Lemma last_default {A} (x y : A) (l : list A) :
  last (x :: l) = Some y → default x (last l) = y.
Proof. rewrite last_cons. destruct (last l); by intros [= ->]. Qed.

Lemma accumulate_snoc l g p q :
  accumulate g p (l ++ [q]) =
  (accumulate g p l +
   _get_movement_cost (q.1 - (default p (last l)).1)
     (q.2 - (default p (last l)).2))%float.
Proof.
  revert g p. induction l as [|x l IH]; intros g p; simpl; [done|].
  rewrite IH. rewrite last_cons. by destruct (last l).
Qed.

(** The cost of a chained node is the accumulated cost of its path. *)
Lemma chain_cost s st n :
  chain s st n → g_score n = accumulated_cost (_reconstruct_path n).
Proof.
  unfold _reconstruct_path.
  induction 1 as [n Hp Hpos Hg0|n p d Hp Hch IH Hd Hpos Hpass Hgn];
    destruct n as [f pn gn h par]; simpl in *; subst par; simpl; [done|].
  assert (last (rev (path_to_root p)) = Some (position p)) as Hlast.
  { destruct p; simpl. by rewrite last_snoc. }
  destruct (rev (path_to_root p)) as [|p0 l]; [done|].
  simpl in *. rewrite accumulate_snoc, <- IH, Hgn.
  rewrite (last_default _ _ _ Hlast), Hpos. unfold step. simpl.
  by rewrite !Z.add_simpl_l.
Qed.

Lemma linked_tail s p l : linked s (p :: l) → linked s l.
Proof. intros H i a b Ha Hb. by apply (H (S i)). Qed.

Lemma route_nsteps s a b path :
  route s a b path → nsteps (move s) (length path - 1) a b.
Proof.
  intros (Hh & Hl & Hk & Hp). apply nsteps_list. exists path.
  split; [destruct path; [done|simpl; lia]|]. split; [done|]. split; [done|].
  intros i x y Hx Hy. destruct (Hk i x y Hx Hy) as (d & Hd & ->).
  exists d. split; [done|]. split; [done|].
  rewrite Forall_lookup in Hp. by eapply Hp.
Qed.

(** With four directions every step costs one, exactly. *)
Lemma accumulate_cardinal s B l :
  whole_costs_exact B → directions s = DIRECTIONS_4 →
  ∀ a p, linked s (p :: l) → 0 ≤ a → a + Z.of_nat (length l) ≤ B →
         accumulate (float_of_int a) p l =
         float_of_int (a + Z.of_nat (length l)).
Proof.
  intros [Hadd _] Hdirs. induction l as [|q l IH]; intros a p Hl Ha Hb; simpl.
  { by rewrite Z.add_0_r. }
  destruct (Hl 0%nat p q eq_refl eq_refl) as (d & Hd & ->).
  rewrite Hdirs in Hd. unfold step. simpl. rewrite !Z.add_simpl_l.
  rewrite (cardinal_cost d Hd), <- float_of_int_1.
  simpl in Hb. rewrite Hadd by lia.
  rewrite IH; [f_equal; lia|by eapply linked_tail|lia|lia].
Qed.

(** The Chebyshev distance never exceeds the exact cost of a path to the
    goal, whatever the direction set. *)
Lemma chebyshev_admissible s g l :
  goal s = Some g → heuristic_type s = CHEBYSHEV →
  (∀ d, d ∈ directions s → d ∈ DIRECTIONS_8) →
  ∀ p, linked s (p :: l) → last (p :: l) = Some g →
       1000 * whole_heuristic s p ≤ exact_from p l.
Proof.
  intros Hg Hh Hdirs. unfold whole_heuristic. rewrite Hg, Hh.
  induction l as [|q l IH]; intros p Hl Hlast; simpl.
  { injection Hlast as ->. lia. }
  destruct (Hl 0%nat p q eq_refl eq_refl) as (d & Hd%Hdirs & Hq).
  specialize (IH q (linked_tail _ _ _ Hl) Hlast).
  assert (1000 ≤ milli_cost (q.1 - p.1) (q.2 - p.2)) as Hcost
    by (unfold milli_cost; by case_match).
  assert (Z.max (Z.abs (p.1 - g.1)) (Z.abs (p.2 - g.2)) ≤
          Z.max (Z.abs (q.1 - g.1)) (Z.abs (q.2 - g.2)) + 1); [|lia].
  subst q. unfold DIRECTIONS_8 in Hd.
  repeat (apply elem_of_cons in Hd as [->|Hd]); [..|by apply elem_of_nil in Hd];
    simpl; lia.
Qed.

(** On that grid the wall forces a detour of six moves, and six is what
    is reported. *)
Example C1_detour_of_six_moves :
  ∃ s s' path stats,
    __init__ [[2; 0; 0]; [1; 1; 0]; [3; 0; 0]] MANHATTAN false = Ok s ∧
    solve 50 s = Some (Ok (s', Some path, stats)) ∧
    length path = 7%nat ∧
    stats_get stats "path_cost" = Some (PyFloat 6.0).
Proof.
  eexists _, _, _, _. split; [by vm_compute|]. split; [by vm_compute|].
  by vm_compute.
Qed.

Lemma linked_cons s p q l :
  (∃ d, d ∈ directions s ∧ q = step p d) → linked s (q :: l) →
  linked s (p :: q :: l).
Proof.
  intros Hd Hl [|i] a b Ha Hb; simplify_eq/=; [done|]. by eapply Hl.
Qed.

Lemma linked_singleton s p : linked s [p].
Proof. intros [|i] a b Ha Hb; simplify_eq/=. Qed.


(** * Further properties of the solver *)

(** ** [solve] as a whole *)

Lemma length_grid_cells r c :
  length (grid_cells r c) = (Z.to_nat r * Z.to_nat c)%nat.
Proof.
  unfold grid_cells, range.
  assert (∀ l : list Z,
    length (l ≫= λ i, (λ j, (i, j)) <$> seqZ 0 c)
    = (length l * Z.to_nat c)%nat) as Hlen.
  { induction l as [|i l IH]; [done|].
    rewrite bind_cons, length_app, length_fmap, length_seqZ, IH. simpl. lia. }
  by rewrite Hlen, length_seqZ.
Qed.

Lemma init_fields mz h d s :
  __init__ mz h d = Ok s →
  maze s = mz ∧ rows s = Z.of_nat (length mz) ∧ cols s = first_row_len mz ∧
  heuristic_type s = h ∧
  directions s = (if d then DIRECTIONS_8 else DIRECTIONS_4) ∧
  visited_order s = [] ∧ search_steps s = [].
Proof.
  rewrite init_spec. destruct (decide (scannable mz)); [|done].
  by intros [= <-].
Qed.

(** [solve] looks at the solver only through the attributes that it
    never assigns. *)
Lemma search_set_tracking fuel s vo ss σ :
  search fuel (set_tracking s vo ss) σ = search fuel s σ.
Proof.
  revert σ. induction fuel as [|fuel IH]; intros σ; simpl;
    destruct (open_set σ); try done.
  change (iteration (set_tracking s vo ss) σ) with (iteration s σ).
  destruct (iteration s σ) as [[σ'|σ' path stats]|e]; [apply IH|done..].
Qed.

(** A budget of as many iterations as the potential is enough. *)
Lemma search_returns s st σ fuel :
  well_formed s → passable s st → invariant s st σ →
  (potential s σ ≤ fuel)%nat → is_Some (search fuel s σ).
Proof.
  intros Hwf Hst. revert σ.
  induction fuel as [|fuel IH]; intros σ Hinv Hpot; simpl.
  - destruct (open_set σ) as [|n0 open0] eqn:Hopen; [done|].
    exfalso. pose proof (Nat.le_add_r (length (open_set σ))
      (length (directions s) *
       (length (grid_cells (rows s) (cols s)) - length (visited σ)))) as Hle.
    fold (potential s σ) in Hle. rewrite Hopen, length_cons in Hle. lia.
  - destruct (open_set σ) as [|n0 open0] eqn:Hopen; [done|].
    destruct (iteration_spec s st σ Hwf Hst Hinv) as
      [(σ' & -> & Hinv' & Hpot')|(σ' & cur & stats & -> & _)];
      [by rewrite Hopen| |done].
    apply IH; [done|lia].
Qed.

(** X1: on every solver that the constructor returns, [solve] returns
    without an exception, and its loop makes at most one iteration more
    than the number of directions times the number of grid cells: a
    budget of that many iterations is enough. *)
Theorem X1_solve_returns_within_bound
    (mz : list (list Z)) (h : HeuristicType) (d : bool) (s : MazeSolver) :
  __init__ mz h d = Ok s →
  ∃ s' found stats,
    ∀ fuel,
      (1 + (if d then 8 else 4) * Z.to_nat (rows s * cols s) ≤ fuel)%nat →
      solve fuel s = Some (Ok (s', found, stats)).
Proof.
  intros Hinit. pose proof (init_well_formed _ _ _ _ Hinit) as Hwf.
  destruct (init_fields _ _ _ _ Hinit) as (_ & Hr & Hc & _ & Hd & _).
  destruct (start s) as [st|] eqn:Hst.
  2: { exists s, None, missing_stats. intros fuel _.
       apply solve_missing_endpoints. by left. }
  destruct (goal s) as [g|] eqn:Hg.
  2: { exists s, None, missing_stats. intros fuel _.
       apply solve_missing_endpoints. by right. }
  destruct (solve_spec s st g Hwf Hst Hg) as (σ & found & stats & Hsolve & _).
  eexists _, found, stats. intros fuel Hfuel.
  assert (potential s (initial_search s st) ≤ fuel)%nat as Hpot.
  { unfold potential, initial_search. simpl.
    rewrite length_grid_cells, Hd.
    assert (0 ≤ rows s ∧ 0 ≤ cols s) as [? ?].
    { rewrite Hr, Hc. unfold first_row_len. destruct mz; lia. }
    rewrite Z2Nat.inj_mul in Hfuel by done.
    destruct d; simpl length; lia. }
  destruct (search_returns s st _ fuel Hwf (start_passable s st Hwf Hst)
              (initial_invariant s st) Hpot) as [r Hr'].
  assert (solve fuel s = Some (match r with
            | Ok (σ', found', stats') =>
                Ok (set_tracking s (visited σ') (steps σ'), found', stats')
            | Raise e => Raise e end)) as Hfuel'.
  { unfold solve. rewrite Hst, Hg, Hr'. by destruct r as [[[? ?] ?]|?]. }
  rewrite Hfuel'. rewrite <- (Hsolve (S fuel)) by lia.
  symmetry. by apply (solve_more_fuel fuel (S fuel)); [lia|].
Qed.

Lemma X1_solve_returns_within_bound_witness :
  ∃ s, __init__ [[2; 0; 0]; [1; 1; 0]; [3; 0; 0]] EUCLIDEAN true = Ok s ∧
  ∃ s' found stats,
    ∀ fuel,
      (1 + 8 * Z.to_nat (rows s * cols s) ≤ fuel)%nat →
      solve fuel s = Some (Ok (s', found, stats)).
Proof.
  eexists. split; [by vm_compute|].
  apply (X1_solve_returns_within_bound
           [[2; 0; 0]; [1; 1; 0]; [3; 0; 0]] EUCLIDEAN true).
  by vm_compute.
Defined.

(** X2: on a solver with both endpoints, [solve] returns a path exactly
    when the goal can be reached from the start by legal moves;
    [path_found] in the statistics tells which, the heuristic is reported
    by its name, and a failure carries the message that the goal is
    unreachable. *)
Theorem X2_path_found_iff_goal_reachable
    (mz : list (list Z)) (h : HeuristicType) (d : bool) (s s' : MazeSolver)
    (st g : pos) (fuel : nat) (found : option (list pos)) (stats : Stats) :
  __init__ mz h d = Ok s →
  start s = Some st → goal s = Some g →
  solve fuel s = Some (Ok (s', found, stats)) →
  (is_Some found ↔ reachable s st g) ∧
  stats_get stats "path_found" = Some (PyBool (bool_decide (is_Some found))) ∧
  stats_get stats "heuristic" = Some (PyStr (heuristic_name h)) ∧
  (found = None →
   stats_get stats "error" =
     Some (PyStr "Goal is unreachable - no valid path exists")).
Proof.
  intros Hinit Hst Hg Hsolve.
  pose proof (init_well_formed _ _ _ _ Hinit) as Hwf.
  destruct (init_fields _ _ _ _ Hinit) as (_ & _ & _ & Hht & _).
  destruct (solve_inv s st g fuel _ Hwf Hst Hg Hsolve)
    as (σ & found' & stats' & [= -> <- <-] & _ & _ & _ & Hfound).
  destruct found as [path|].
  - destruct Hfound as (cur & Hgoal & Hchain & _ & -> & _).
    split; [|by rewrite <- Hht].
    split; [intros _|done].
    assert (position cur = g) as <- by congruence.
    by apply (chain_reachable s st cur (start_passable s st Hwf Hst)).
  - destruct Hfound as (-> & Hall & Hnot).
    split; [|by rewrite <- Hht].
    split; [by intros [? ?]|]. intros Hreach.
    exfalso. apply (Hnot g Hg). by apply Hall.
Qed.

Lemma X2_path_found_iff_goal_reachable_witness :
  ∃ s s' found stats,
    __init__ [[2; 0; 0]; [1; 1; 1]; [0; 3; 0]] MANHATTAN true = Ok s ∧
    start s = Some (0, 0) ∧ goal s = Some (2, 1) ∧
    solve 40 s = Some (Ok (s', found, stats)) ∧
    (is_Some found ↔ reachable s (0, 0) (2, 1)) ∧
    stats_get stats "path_found"
      = Some (PyBool (bool_decide (is_Some found))) ∧
    stats_get stats "heuristic" = Some (PyStr (heuristic_name MANHATTAN)) ∧
    (found = None →
     stats_get stats "error" =
       Some (PyStr "Goal is unreachable - no valid path exists")).
Proof.
  eexists _, _, _, _. split; [by vm_compute|]. split; [done|].
  split; [done|]. split; [by vm_compute|].
  eapply (X2_path_found_iff_goal_reachable
            [[2; 0; 0]; [1; 1; 1]; [0; 3; 0]] MANHATTAN true _ _ _ _ 40);
    by vm_compute.
Defined.

(** X3: solving a solver again changes nothing: the second call returns
    the same path and statistics and leaves the same solver, the trace
    being rewritten and not extended; and no budget leads to another
    result. *)
Theorem X3_solving_again_changes_nothing
    (s s' : MazeSolver) (fuel : nat) (found : option (list pos))
    (stats : Stats) :
  solve fuel s = Some (Ok (s', found, stats)) →
  solve fuel s' = Some (Ok (s', found, stats)) ∧
  (∀ fuel2 r, solve fuel2 s' = Some r → r = Ok (s', found, stats)) ∧
  maze s' = maze s ∧ start s' = start s ∧ goal s' = goal s.
Proof.
  intros Hsolve.
  assert (solve fuel s' = Some (Ok (s', found, stats))) as Hagain.
  { unfold solve in Hsolve |- *.
    destruct (start s) as [st|] eqn:Hst; [|by injection Hsolve as <- <- <-;
      rewrite Hst].
    destruct (goal s) as [g|] eqn:Hg; [|by injection Hsolve as <- <- <-;
      rewrite Hst, Hg].
    destruct (search fuel s (initial_search s st))
      as [[[[final found'] stats']|e]|] eqn:Hsearch; try done.
    injection Hsolve as <- <- <-. simpl. rewrite Hst, Hg.
    change (initial_search (set_tracking s (visited final) (steps final)) st)
      with (initial_search s st).
    by rewrite search_set_tracking, Hsearch. }
  split; [done|]. split.
  { intros fuel2 r Hr. by eapply solve_deterministic. }
  unfold solve in Hsolve.
  destruct (start s) as [st|] eqn:Hst;
    [|injection Hsolve as <- _ _; by rewrite Hst].
  destruct (goal s) as [g|] eqn:Hg;
    [|injection Hsolve as <- _ _; by rewrite Hst, Hg].
  destruct (search fuel s (initial_search s st))
    as [[[[final found'] stats']|e]|]; try done.
  by injection Hsolve as <- _ _.
Qed.

Lemma X3_solving_again_changes_nothing_witness :
  ∃ s s' found stats,
    __init__ [[2; 0; 0]; [1; 1; 0]; [3; 0; 0]] CHEBYSHEV true = Ok s ∧
    solve 40 s = Some (Ok (s', found, stats)) ∧
    solve 40 s' = Some (Ok (s', found, stats)) ∧
    (∀ fuel2 r, solve fuel2 s' = Some r → r = Ok (s', found, stats)) ∧
    maze s' = maze s ∧ start s' = start s ∧ goal s' = goal s.
Proof.
  eexists _, _, _, _. split; [by vm_compute|]. split; [by vm_compute|].
  apply X3_solving_again_changes_nothing. by vm_compute.
Defined.

(** ** Passability and the heuristics *)

(** X4: on a solver that the constructor returns, [_is_valid] never
    raises, whatever the indices: it is true exactly for the cells in
    bounds that are not walls; negative indices are rejected, not
    wrapped around, and every cell in bounds can be read. *)
Theorem X4_is_valid_never_raises
    (mz : list (list Z)) (h : HeuristicType) (d : bool) (s : MazeSolver)
    (r c : Z) :
  __init__ mz h d = Ok s →
  _is_valid s r c = Ok (bool_decide (passable s (r, c))) ∧
  (r < 0 ∨ c < 0 ∨ rows s ≤ r ∨ cols s ≤ c → _is_valid s r c = Ok false) ∧
  (0 ≤ r < rows s → 0 ≤ c < cols s →
   ∃ v, cell (maze s) r c = Ok v ∧
        _is_valid s r c = Ok (negb (v =? value WALL))).
Proof.
  intros Hinit. pose proof (init_well_formed _ _ _ _ Hinit) as Hwf.
  split; [|split].
  - destruct (is_valid_cases s r c Hwf) as [[-> Hp]|[-> Hp]].
    + by rewrite bool_decide_eq_true_2.
    + by rewrite bool_decide_eq_false_2.
  - intros Hout. destruct (is_valid_cases s r c Hwf) as [[_ Hp]|[-> _]];
      [|done].
    destruct Hp as [Hb _]. simpl in Hb. lia.
  - intros Hr Hc.
    destruct (well_formed_readable s (r, c) Hwf Hr Hc) as [v Hv].
    simpl in Hv. exists v. split; [done|]. unfold _is_valid.
    destruct (Z.leb_spec 0 r); [|lia]. destruct (Z.ltb_spec r (rows s)); [|lia].
    destruct (Z.leb_spec 0 c); [|lia]. destruct (Z.ltb_spec c (cols s)); [|lia].
    simpl. by rewrite Hv.
Qed.

Lemma X4_is_valid_never_raises_witness :
  ∃ s, __init__ [[2; 1]; [0; 3; 0]] MANHATTAN false = Ok s ∧
  _is_valid s (-1) 0 = Ok (bool_decide (passable s (-1, 0))) ∧
  (-1 < 0 ∨ 0 < 0 ∨ rows s ≤ -1 ∨ cols s ≤ 0 → _is_valid s (-1) 0 = Ok false) ∧
  (0 ≤ -1 < rows s → 0 ≤ 0 < cols s →
   ∃ v, cell (maze s) (-1) 0 = Ok v ∧
        _is_valid s (-1) 0 = Ok (negb (v =? value WALL))).
Proof.
  eexists. split; [by vm_compute|].
  apply (X4_is_valid_never_raises [[2; 1]; [0; 3; 0]] MANHATTAN false).
  by vm_compute.
Defined.

Lemma manhattan_admissible s g l :
  goal s = Some g → heuristic_type s = MANHATTAN →
  (∀ d, d ∈ directions s → d ∈ DIRECTIONS_4) →
  ∀ p, linked s (p :: l) → last (p :: l) = Some g →
       1000 * whole_heuristic s p ≤ exact_from p l.
Proof.
  intros Hg Hh Hdirs. unfold whole_heuristic. rewrite Hg, Hh.
  induction l as [|q l IH]; intros p Hl Hlast; simpl.
  { injection Hlast as ->. lia. }
  destruct (Hl 0%nat p q eq_refl eq_refl) as (d & Hd%Hdirs & Hq).
  specialize (IH q (linked_tail _ _ _ Hl) Hlast).
  assert (1000 ≤ milli_cost (q.1 - p.1) (q.2 - p.2)) as Hcost
    by (unfold milli_cost; by case_match).
  assert (Z.abs (p.1 - g.1) + Z.abs (p.2 - g.2) ≤
          Z.abs (q.1 - g.1) + Z.abs (q.2 - g.2) + 1); [|lia].
  subst q. unfold DIRECTIONS_4 in Hd.
  repeat (apply elem_of_cons in Hd as [->|Hd]); [..|by apply elem_of_nil in Hd];
    simpl; lia.
Qed.

Lemma init_directions_8 mz h d s :
  __init__ mz h d = Ok s → ∀ x, x ∈ directions s → x ∈ DIRECTIONS_8.
Proof.
  intros Hinit x. destruct (init_fields _ _ _ _ Hinit) as (_&_&_&_& -> &_).
  destruct d; [done|]. unfold DIRECTIONS_4, DIRECTIONS_8.
  rewrite !elem_of_cons. tauto.
Qed.

(** X5: the Chebyshev heuristic never overestimates, with four or with
    eight directions: its value at a position is at most the exact cost
    (1 per straight move, 1.414 per diagonal move) of any path from that
    position to the goal. *)
Theorem X5_chebyshev_never_overestimates
    (mz : list (list Z)) (d : bool) (s : MazeSolver) (g p : pos)
    (walk : list pos) :
  __init__ mz CHEBYSHEV d = Ok s → goal s = Some g → route s p g walk →
  heuristic s p =
    float_of_int (Z.max (Z.abs (p.1 - g.1)) (Z.abs (p.2 - g.2))) ∧
  1000 * Z.max (Z.abs (p.1 - g.1)) (Z.abs (p.2 - g.2)) ≤ exact_cost walk.
Proof.
  intros Hinit Hg (Hh & Hl & Hk & _).
  destruct (init_fields _ _ _ _ Hinit) as (_ & _ & _ & Hht & _).
  split; [unfold heuristic; by rewrite Hg, Hht|].
  destruct walk as [|p0 l]; [done|]. injection Hh as ->.
  pose proof (chebyshev_admissible s g l Hg Hht
                (init_directions_8 _ _ _ _ Hinit) p Hk Hl) as Hadm.
  unfold whole_heuristic in Hadm. by rewrite Hg, Hht in Hadm.
Qed.

Lemma X5_chebyshev_never_overestimates_witness :
  ∃ s, __init__ [[2; 0; 0]; [1; 1; 0]; [3; 0; 0]] CHEBYSHEV true = Ok s ∧
  route s (0, 1) (2, 0) [(0, 1); (1, 2); (2, 1); (2, 0)] ∧
  heuristic s (0, 1) =
    float_of_int (Z.max (Z.abs ((0, 1).1 - (2, 0).1))
                        (Z.abs ((0, 1).2 - (2, 0).2))) ∧
  1000 * Z.max (Z.abs ((0, 1).1 - (2, 0).1)) (Z.abs ((0, 1).2 - (2, 0).2))
  ≤ exact_cost [(0, 1); (1, 2); (2, 1); (2, 0)].
Proof.
  eexists. split; [by vm_compute|].
  assert (route (constructed [[2; 0; 0]; [1; 1; 0]; [3; 0; 0]] CHEBYSHEV true)
            (0, 1) (2, 0) [(0, 1); (1, 2); (2, 1); (2, 0)]) as Hroute.
  { split; [done|]. split; [done|]. split.
    - repeat match goal with
             | |- linked _ ((?a, ?b) :: (?c, ?d) :: _) =>
                 apply linked_cons;
                   [exists (c - a, d - b);
                    split; [apply (bool_decide_unpack _)|]; by vm_compute|]
             end.
      apply linked_singleton.
    - apply (bool_decide_unpack _). by vm_compute. }
  split; [exact Hroute|].
  apply (X5_chebyshev_never_overestimates
           [[2; 0; 0]; [1; 1; 0]; [3; 0; 0]] true _ (2, 0) (0, 1));
    [by vm_compute|done|exact Hroute].
Defined.

(** X6: with 4-directional movement the Manhattan heuristic never
    overestimates: its value at a position is at most the exact cost of
    any path from that position to the goal. *)
Theorem X6_manhattan_never_overestimates_four_directions
    (mz : list (list Z)) (s : MazeSolver) (g p : pos) (walk : list pos) :
  __init__ mz MANHATTAN false = Ok s → goal s = Some g → route s p g walk →
  heuristic s p = float_of_int (Z.abs (p.1 - g.1) + Z.abs (p.2 - g.2)) ∧
  1000 * (Z.abs (p.1 - g.1) + Z.abs (p.2 - g.2)) ≤ exact_cost walk.
Proof.
  intros Hinit Hg (Hh & Hl & Hk & _).
  destruct (init_fields _ _ _ _ Hinit) as (_ & _ & _ & Hht & Hd & _).
  split; [unfold heuristic; by rewrite Hg, Hht|].
  destruct walk as [|p0 l]; [done|]. injection Hh as ->.
  assert (∀ x, x ∈ directions s → x ∈ DIRECTIONS_4) as Hdirs
    by (by rewrite Hd).
  pose proof (manhattan_admissible s g l Hg Hht Hdirs p Hk Hl) as Hadm.
  unfold whole_heuristic in Hadm. by rewrite Hg, Hht in Hadm.
Qed.

Lemma X6_manhattan_never_overestimates_four_directions_witness :
  ∃ s, __init__ [[2; 0; 0]; [1; 1; 0]; [3; 0; 0]] MANHATTAN false = Ok s ∧
  route s (0, 2) (2, 0) [(0, 2); (1, 2); (2, 2); (2, 1); (2, 0)] ∧
  heuristic s (0, 2) =
    float_of_int (Z.abs ((0, 2).1 - (2, 0).1) + Z.abs ((0, 2).2 - (2, 0).2)) ∧
  1000 * (Z.abs ((0, 2).1 - (2, 0).1) + Z.abs ((0, 2).2 - (2, 0).2))
  ≤ exact_cost [(0, 2); (1, 2); (2, 2); (2, 1); (2, 0)].
Proof.
  eexists. split; [by vm_compute|].
  assert (route (constructed [[2; 0; 0]; [1; 1; 0]; [3; 0; 0]] MANHATTAN false)
            (0, 2) (2, 0) [(0, 2); (1, 2); (2, 2); (2, 1); (2, 0)]) as Hroute.
  { split; [done|]. split; [done|]. split.
    - repeat match goal with
             | |- linked _ ((?a, ?b) :: (?c, ?d) :: _) =>
                 apply linked_cons;
                   [exists (c - a, d - b);
                    split; [apply (bool_decide_unpack _)|]; by vm_compute|]
             end.
      apply linked_singleton.
    - apply (bool_decide_unpack _). by vm_compute. }
  split; [exact Hroute|].
  apply (X6_manhattan_never_overestimates_four_directions
           [[2; 0; 0]; [1; 1; 0]; [3; 0; 0]] _ (2, 0) (0, 2));
    [by vm_compute|done|exact Hroute].
Defined.

(** X7: with diagonal movement the Manhattan heuristic overestimates:
    at a passable position one diagonal move away from the goal its value
    is 2.0, while that one move is a path to the goal of cost 1.414. *)
Theorem X7_manhattan_overestimates_with_diagonals
    (mz : list (list Z)) (s : MazeSolver) (g p d : pos) :
  __init__ mz MANHATTAN true = Ok s → goal s = Some g → passable s p →
  d ∈ [(-1, -1); (-1, 1); (1, -1); (1, 1)] → g = step p d →
  route s p g [p; g] ∧
  heuristic s p = 2.0%float ∧
  accumulated_cost [p; g] = 1.414%float ∧
  exact_cost [p; g] = 1414.
Proof.
  intros Hinit Hg Hp Hd ->.
  pose proof (init_well_formed _ _ _ _ Hinit) as Hwf.
  destruct (init_fields _ _ _ _ Hinit) as (_ & _ & _ & Hht & Hdir & _).
  split.
  { split; [done|]. split; [done|]. split.
    - apply linked_cons; [|apply linked_singleton].
      exists d. split; [|done]. rewrite Hdir.
      repeat (apply elem_of_cons in Hd as [->|Hd]);
        [..|by apply elem_of_nil in Hd];
        apply (bool_decide_unpack _); by vm_compute.
    - apply Forall_cons_2; [done|].
      apply Forall_cons_2; [by apply goal_passable|]. apply Forall_nil_2. }
  unfold heuristic. rewrite Hg, Hht. destruct p as [pr pc].
  repeat (apply elem_of_cons in Hd as [->|Hd]); [..|by apply elem_of_nil in Hd];
    unfold step, accumulated_cost, exact_cost; simpl;
    rewrite ?Z.add_simpl_l;
    repeat match goal with
           | |- context [Z.abs ?e] =>
               let H := fresh in
               first [assert (Z.abs e = 1) as H by lia]; rewrite H; clear H
           end; done.
Qed.

Lemma X7_manhattan_overestimates_with_diagonals_witness :
  ∃ s, __init__ [[2; 0; 0]; [0; 0; 0]; [0; 0; 3]] MANHATTAN true = Ok s ∧
  goal s = Some (2, 2) ∧ passable s (1, 1) ∧
  route s (1, 1) (2, 2) [(1, 1); (2, 2)] ∧
  heuristic s (1, 1) = 2.0%float ∧
  accumulated_cost [(1, 1); (2, 2)] = 1.414%float ∧
  exact_cost [(1, 1); (2, 2)] = 1414.
Proof.
  eexists. split; [by vm_compute|]. split; [done|].
  assert (passable (constructed [[2; 0; 0]; [0; 0; 0]; [0; 0; 3]] MANHATTAN true)
            (1, 1)) as Hp by (apply (bool_decide_unpack _); by vm_compute).
  split; [exact Hp|].
  apply (X7_manhattan_overestimates_with_diagonals
           [[2; 0; 0]; [0; 0; 0]; [0; 0; 3]] _ (2, 2) (1, 1) (1, 1));
    [by vm_compute|done|exact Hp| |done].
  apply (bool_decide_unpack _). by vm_compute.
Defined.

(** With that heuristic and diagonal moves the path returned need not be
    the cheapest: the path below costs 4.414, and there is one of cost
    3.8279999999999994. *)
Example manhattan_diagonal_detour :
  ∃ s s' stats,
    __init__ [[2; 0; 0; 0]; [0; 1; 0; 0]; [0; 0; 0; 3]] MANHATTAN true = Ok s ∧
    solve 100 s =
      Some (Ok (s', Some [(0, 0); (1, 0); (2, 1); (2, 2); (2, 3)], stats)) ∧
    stats_get stats "path_cost" = Some (PyFloat 4.414) ∧
    route s (0, 0) (2, 3) [(0, 0); (0, 1); (1, 2); (2, 3)] ∧
    accumulated_cost [(0, 0); (0, 1); (1, 2); (2, 3)]
      = 3.8279999999999994%float.
Proof.
  eexists _, _, _. split; [by vm_compute|]. split; [by vm_compute|].
  split; [by vm_compute|]. split; [|by vm_compute].
  split; [done|]. split; [done|]. split.
  - repeat match goal with
           | |- linked _ ((?a, ?b) :: (?c, ?d) :: _) =>
               apply linked_cons;
                 [exists (c - a, d - b);
                  split; [apply (bool_decide_unpack _)|]; by vm_compute|]
           end.
    apply linked_singleton.
  - apply (bool_decide_unpack _). by vm_compute.
Qed.

(** ** The iterations of [solve], case by case *)

Lemma expand_shape s closed cur open gs d :
  well_formed s →
  expand s closed cur (open, gs) d = Ok (open, gs) ∨
  (expand s closed cur (open, gs) d =
     Ok (heapq.heappush open (neighbor_node s cur d),
         <[step (position cur) d := tentative_g cur d]> gs) ∧
   passable s (step (position cur) d) ∧ step (position cur) d ∉ closed).
Proof.
  intros Hwf. destruct d as [dr dc]. unfold expand, step. simpl.
  set (q := ((position cur).1 + dr, (position cur).2 + dc)).
  destruct (is_valid_cases s ((position cur).1 + dr) ((position cur).2 + dc) Hwf)
    as [[-> Hpass]|[-> Hnpass]]; simpl; [|by left].
  destruct (decide (q ∈ closed)) as [Hcl|Hncl].
  { rewrite bool_decide_eq_true_2 by done. by left. }
  rewrite bool_decide_eq_false_2 by done.
  destruct (gs !! q) as [v|]; simpl; [destruct (PrimFloat.leb _ _)|];
    [by left|by right..].
Qed.

Lemma expand_loop_nodes s closed cur ds open gs :
  well_formed s →
  ∃ open' gs' news,
    for_each ds (expand s closed cur) (open, gs) = Ok (open', gs') ∧
    open' ≡ₚ news ++ open ∧
    ∀ n, n ∈ news →
      ∃ d, d ∈ ds ∧ n = neighbor_node s cur d ∧
           passable s (position n) ∧ position n ∉ closed.
Proof.
  intros Hwf. revert open gs. induction ds as [|d0 ds IH]; intros open gs.
  { exists open, gs, []. split; [done|]. split; [done|].
    by intros n ?%elem_of_nil. }
  cbn [for_each].
  destruct (expand_shape s closed cur open gs d0 Hwf) as [->|(-> & Hp & Hc)];
    cbn [mbind res_bind].
  - destruct (IH open gs) as (open' & gs' & news & Hfor & Hperm & Hnews).
    exists open', gs', news. split; [done|]. split; [done|].
    intros n Hn. destruct (Hnews n Hn) as (d & Hd & Hrest).
    exists d. split; [by right|done].
  - destruct (IH (heapq.heappush open (neighbor_node s cur d0))
                (<[step (position cur) d0 := tentative_g cur d0]> gs))
      as (open' & gs' & news & Hfor & Hperm & Hnews).
    exists open', gs', (news ++ [neighbor_node s cur d0]).
    split; [done|]. split.
    { rewrite Hperm, heappush_perm, <- app_assoc. done. }
    intros n [Hn| ->%list_elem_of_singleton]%elem_of_app.
    + destruct (Hnews n Hn) as (d & Hd & Hrest).
      exists d. split; [by right|done].
    + exists d0. split; [by left|done].
Qed.

(** The three ways an iteration can go: a stale entry is dropped, the
    goal is returned, or a position is closed and expanded. *)
Lemma iteration_cases s σ :
  well_formed s → open_set σ ≠ [] →
  ∃ cur open,
    heapq.heappop (open_set σ) = Some (cur, open) ∧
    open_set σ ≡ₚ cur :: open ∧
    (((position cur ∈ closed_set σ) ∧
      iteration s σ =
        Ok (Continue (mkSearch open (closed_set σ) (g_scores σ)
                        (nodes_explored σ) (visited σ) (steps σ)))) ∨
     ((position cur ∉ closed_set σ) ∧
      ∃ σ',
        closed_set σ' = closed_set σ ∪ {[position cur]} ∧
        visited σ' = visited σ ++ [position cur] ∧
        steps σ' = steps σ ++
          [mkStep (position cur) (f_score cur) (g_score cur) (h_score cur)
             (Z.of_nat (length open))
             (Z.of_nat (size (closed_set σ ∪ {[position cur]})))] ∧
        nodes_explored σ' = nodes_explored σ + 1 ∧
        ((goal s = Some (position cur) ∧
          iteration s σ =
            Ok (Return σ' (_reconstruct_path cur)
                  (found_stats s (_reconstruct_path cur) cur
                     (nodes_explored σ + 1)))) ∨
         (iteration s σ = Ok (Continue σ') ∧
          ∃ news, open_set σ' ≡ₚ news ++ open ∧
            ∀ n, n ∈ news →
              ∃ d, d ∈ directions s ∧ n = neighbor_node s cur d ∧
                   passable s (position n) ∧
                   position n ∉ closed_set σ ∪ {[position cur]})))).
Proof.
  intros Hwf Hne. unfold iteration.
  destruct (heapq.heappop (open_set σ)) as [[cur open]|] eqn:Hpop;
    [|by apply heappop_None in Hpop].
  exists cur, open. split; [done|]. split; [by apply heappop_perm|].
  destruct (decide (position cur ∈ closed_set σ)) as [Hcl|Hncl].
  { left. by rewrite bool_decide_eq_true_2. }
  right. split; [done|]. rewrite bool_decide_eq_false_2 by done.
  destruct (decide (Some (position cur) = goal s)) as [Hgoal|Hngoal].
  - rewrite bool_decide_eq_true_2 by done.
    eexists. split; [|split; [|split; [|split]]]; [..|left; split; [done|reflexivity]];
      done.
  - rewrite bool_decide_eq_false_2 by done.
    destruct (expand_loop_nodes s (closed_set σ ∪ {[position cur]}) cur
                (directions s) open (g_scores σ) Hwf)
      as (open' & gs' & news & -> & Hperm & Hnews).
    cbn [mbind res_bind].
    eexists. split; [|split; [|split; [|split]]];
      [..|right; split; [reflexivity|]]; [done..|].
    by exists news.
Qed.

(** A property that every continuing iteration preserves holds when the
    loop is left: of the final state if the open set ran empty, of the
    state from which the goal was returned otherwise. *)
Lemma search_run (J : Search → Prop) s st :
  well_formed s → passable s st →
  (∀ σ σ', invariant s st σ → J σ →
           iteration s σ = Ok (Continue σ') → J σ') →
  ∀ fuel σ σ' found stats,
    invariant s st σ → J σ →
    search fuel s σ = Some (Ok (σ', found, stats)) →
    (found = None ∧ invariant s st σ' ∧ J σ' ∧ open_set σ' = [] ∧
     stats = unreachable_stats s (nodes_explored σ')) ∨
    (∃ σ0 path, found = Some path ∧ invariant s st σ0 ∧ J σ0 ∧
                open_set σ0 ≠ [] ∧
                iteration s σ0 = Ok (Return σ' path stats)).
Proof.
  intros Hwf Hst Hkeep.
  induction fuel as [|fuel IH]; intros σ σ' found stats Hinv HJ; simpl;
    destruct (open_set σ) as [|n0 open0] eqn:Hopen; try done.
  - intros [= <- <- <-]. left. by rewrite Hopen.
  - intros [= <- <- <-]. left. by rewrite Hopen.
  - destruct (iteration_spec s st σ Hwf Hst Hinv) as
      [(σ1 & Hit & Hinv1 & _)|(σ1 & cur & stats1 & Hit & _)];
      [by rewrite Hopen| |]; rewrite Hit.
    + apply IH; [done|exact (Hkeep σ σ1 Hinv HJ Hit)].
    + intros [= <- <- <-]. right. exists σ, (_reconstruct_path cur).
      split; [done|]. split; [done|]. split; [done|].
      split; [by rewrite Hopen|done].
Qed.

(** ** The trace and the path *)

Lemma size_closed s st σ :
  invariant s st σ → size (closed_set σ) = length (visited σ).
Proof.
  intros Hinv.
  assert (closed_set σ = list_to_set (visited σ)) as ->.
  { apply set_eq. intros p. rewrite elem_of_list_to_set.
    apply (inv_closed _ _ _ Hinv). }
  apply size_list_to_set, (inv_nodup _ _ _ Hinv).
Qed.

Lemma length_steps s st σ :
  invariant s st σ → length (steps σ) = length (visited σ).
Proof.
  intros Hinv. by rewrite <- (inv_steps _ _ _ Hinv), length_fmap.
Qed.

Lemma size_closed_next s st σ p :
  invariant s st σ → p ∉ closed_set σ →
  Z.of_nat (size (closed_set σ ∪ {[p]})) = Z.of_nat (length (steps σ)) + 1.
Proof.
  intros Hinv Hp.
  rewrite size_union, size_singleton, (size_closed s st), (length_steps s st)
    by (done || set_solver).
  lia.
Qed.

Lemma settled_path closed cur :
  settled closed cur → position cur ∉ closed →
  NoDup (path_to_root cur) ∧
  ∀ q, q ∈ path_to_root cur → q ∈ closed ∪ {[position cur]}.
Proof.
  unfold settled. destruct cur as [f p g h [par|]]; simpl.
  - intros [Hnd Hall] Hp. split.
    + constructor; [|done]. intros Hin. by apply Hp, Hall.
    + intros q [->|Hq]%elem_of_cons; apply elem_of_union;
        [right; by apply elem_of_singleton|left; by apply Hall].
  - intros _ Hp. split; [apply NoDup_singleton|].
    intros q ->%list_elem_of_singleton.
    apply elem_of_union. right. by apply elem_of_singleton.
Qed.

(** What the step recorded for a node popped for an open position
    looks like. *)
Lemma close_step s st σ cur k :
  invariant s st σ → trace_invariant s st σ →
  cur ∈ open_set σ → position cur ∉ closed_set σ →
  ∀ i stp,
    (steps σ ++
       [mkStep (position cur) (f_score cur) (g_score cur) (h_score cur) k
          (Z.of_nat (size (closed_set σ ∪ {[position cur]})))]) !! i
    = Some stp →
    (i = 0%nat →
     step_position stp = st ∧ step_g_score stp = float_of_int 0 ∧
     step_f_score stp = heuristic s st) ∧
    closed_count stp = Z.of_nat i + 1 ∧
    step_h_score stp = heuristic s (step_position stp) ∧
    ((0 < i)%nat →
     step_f_score stp = (step_g_score stp + step_h_score stp)%float).
Proof.
  intros Hinv Hti Hcur Hncl i stp Hstp.
  apply lookup_app_Some in Hstp as [Hold|[Hlen Hnew]].
  - split; [intros ->; by apply (ti_first _ _ _ Hti)|].
    by apply (ti_counts _ _ _ Hti).
  - apply list_lookup_singleton_Some in Hnew as [Hi <-]. simpl.
    assert (i = length (steps σ)) as -> by lia.
    split; [|split; [|split]].
    + intros H0. apply length_zero_iff_nil in H0.
      destruct (ti_root _ _ _ Hti H0) as (n & Hopen & Hpos & Hg & Hf).
      rewrite Hopen in Hcur. apply list_elem_of_singleton in Hcur as ->. done.
    + by apply (size_closed_next s st).
    + by apply (ti_heuristic _ _ _ Hti).
    + intros Hpos. apply (ti_sum _ _ _ Hti); [|done].
      intros H0. rewrite H0 in Hpos. simpl in Hpos. lia.
Qed.

Lemma initial_trace_invariant s st : trace_invariant s st (initial_search s st).
Proof.
  unfold initial_search. set (node := mkNode _ st _ _ None).
  change (heapq.heappush [] node) with [node].
  constructor; simpl; try done.
  - by intros n ->%list_elem_of_singleton.
  - by intros n ->%list_elem_of_singleton.
  - intros _. by exists node.
Qed.

Lemma iteration_trace s st σ σ' :
  well_formed s → invariant s st σ → trace_invariant s st σ →
  iteration s σ = Ok (Continue σ') → trace_invariant s st σ'.
Proof.
  intros Hwf Hinv Hti Hit.
  assert (open_set σ ≠ []) as Hne.
  { intros H0. unfold iteration in Hit. by rewrite H0 in Hit. }
  destruct (iteration_cases s σ Hwf Hne)
    as (cur & open & Hpop & Hperm &
        [[Hcl Heq]|(Hncl & σ1 & Hc1 & Hv1 & Hs1 & He1 &
                    [[_ Heq]|(Heq & news & Hopen1 & Hnews)])]);
    rewrite Heq in Hit; [|done|]; injection Hit as <-.
  - (* a stale entry *)
    assert (steps σ ≠ []) as Hsteps.
    { intros H0. apply (inv_closed _ _ _ Hinv) in Hcl.
      rewrite <- (inv_steps _ _ _ Hinv), H0 in Hcl. by apply elem_of_nil in Hcl. }
    assert (∀ n, n ∈ open → n ∈ open_set σ) as Hsub
      by (intros n Hn; rewrite Hperm; by right).
    destruct Hti as [Hset Hheu Hroot Hsum Hfirst Hcounts].
    constructor; simpl; auto. by intros H0.
  - (* an expansion *)
    assert (cur ∈ open_set σ) as Hcur by (rewrite Hperm; left).
    assert (∀ n, n ∈ open → n ∈ open_set σ) as Hsub
      by (intros n Hn; rewrite Hperm; by right).
    assert (steps σ = [] → open = []) as Hfirst.
    { intros H0. destruct (ti_root _ _ _ Hti H0) as (n & Hopen & _).
      rewrite Hopen in Hperm. apply Permutation_length in Hperm.
      simpl in Hperm. destruct open; [done|simpl in Hperm; lia]. }
    destruct (settled_path _ cur (ti_settled _ _ _ Hti cur Hcur) Hncl)
      as [Hnd Hall].
    constructor.
    + intros n Hn. rewrite Hopen1 in Hn. rewrite Hc1.
      apply elem_of_app in Hn as [Hn|Hn].
      * destruct (Hnews n Hn) as (d & _ & -> & _). by unfold settled.
      * pose proof (ti_settled _ _ _ Hti n (Hsub n Hn)) as Hs.
        unfold settled in Hs |- *. destruct (parent n); [|done].
        destruct Hs as [? Hq]. split; [done|]. intros q Hin.
        apply elem_of_union. left. by apply Hq.
    + intros n Hn. rewrite Hopen1 in Hn.
      apply elem_of_app in Hn as [Hn|Hn].
      * by destruct (Hnews n Hn) as (d & _ & -> & _).
      * by apply (ti_heuristic _ _ _ Hti), Hsub.
    + rewrite Hs1. intros H0. apply (f_equal length) in H0.
      rewrite length_app in H0. simpl in H0. lia.
    + intros _ n Hn. rewrite Hopen1 in Hn.
      apply elem_of_app in Hn as [Hn|Hn].
      * by destruct (Hnews n Hn) as (d & _ & -> & _).
      * apply (ti_sum _ _ _ Hti); [|by apply Hsub].
        intros H0. rewrite (Hfirst H0) in Hn. by apply elem_of_nil in Hn.
    + rewrite Hs1. intros stp Hstp.
      by apply (close_step s st σ cur _ Hinv Hti Hcur Hncl 0%nat stp Hstp).
    + rewrite Hs1. intros i stp Hstp.
      by apply (close_step s st σ cur _ Hinv Hti Hcur Hncl i stp Hstp).
Qed.

(** How [solve] ends on a solver with both endpoints. *)
Lemma solve_end s st g fuel s' found stats :
  well_formed s → start s = Some st → goal s = Some g →
  solve fuel s = Some (Ok (s', found, stats)) →
  ∃ σ', s' = set_tracking s (visited σ') (steps σ') ∧
    ((found = None ∧ invariant s st σ' ∧ trace_invariant s st σ' ∧
      open_set σ' = [] ∧ stats = unreachable_stats s (nodes_explored σ')) ∨
     (∃ σ0 cur open,
        found = Some (_reconstruct_path cur) ∧
        invariant s st σ0 ∧ trace_invariant s st σ0 ∧
        open_set σ0 ≡ₚ cur :: open ∧ (position cur ∉ closed_set σ0) ∧
        position cur = g ∧
        visited σ' = visited σ0 ++ [position cur] ∧
        steps σ' = steps σ0 ++
          [mkStep (position cur) (f_score cur) (g_score cur) (h_score cur)
             (Z.of_nat (length open))
             (Z.of_nat (size (closed_set σ0 ∪ {[position cur]})))] ∧
        stats = found_stats s (_reconstruct_path cur) cur
                  (nodes_explored σ0 + 1))).
Proof.
  intros Hwf Hst Hg Hsolve.
  pose proof (start_passable s st Hwf Hst) as Hpst.
  unfold solve in Hsolve. rewrite Hst, Hg in Hsolve.
  destruct (search fuel s (initial_search s st))
    as [[[[final found'] stats']|e]|] eqn:Hsearch; try done.
  injection Hsolve as <- <- <-. exists final. split; [done|].
  destruct (search_run (trace_invariant s st) s st Hwf Hpst
              (λ σ σ' Hinv, iteration_trace s st σ σ' Hwf Hinv)
              fuel _ _ _ _ (initial_invariant s st)
              (initial_trace_invariant s st) Hsearch)
    as [(-> & Hinv & Hti & Hopen & ->)|(σ0 & path & -> & Hinv & Hti & Hne & Hit)];
    [by left|right].
  destruct (iteration_cases s σ0 Hwf Hne)
    as (cur & open & Hpop & Hperm &
        [[Hcl Heq]|(Hncl & σ1 & Hc1 & Hv1 & Hs1 & He1 &
                    [[Hgoal Heq]|(Heq & _)])]);
    rewrite Heq in Hit; try done.
  injection Hit as <- <- <-.
  exists σ0, cur, open. repeat (split; [done|]). split; [congruence|done].
Qed.

Lemma endpoints_differ s st g :
  well_formed s → start s = Some st → goal s = Some g → st ≠ g.
Proof.
  intros (_ & _ & _ & Hs & Hgl) Hst Hg ->.
  rewrite Hs in Hst. rewrite Hgl in Hg.
  apply last_marked_Some in Hst as [_ Hm1].
  apply last_marked_Some in Hg as [_ Hm2].
  unfold marked in Hm1, Hm2. rewrite Hm1 in Hm2. done.
Qed.

Lemma returned_path_explored s st g fuel s' path stats :
  well_formed s → start s = Some st → goal s = Some g →
  solve fuel s = Some (Ok (s', Some path, stats)) →
  NoDup path ∧ (∀ p, p ∈ path → p ∈ visited_order s') ∧
  route s st g path.
Proof.
  intros Hwf Hst Hg Hsolve.
  pose proof (start_passable s st Hwf Hst) as Hpst.
  destruct (solve_end s st g fuel _ _ _ Hwf Hst Hg Hsolve)
    as (σ' & -> & [(? & _)|(σ0 & cur & open & [= ->] & Hinv & Hti & Hperm
                            & Hncl & Hpos & Hv & Hs & ->)]); [done|].
  assert (cur ∈ open_set σ0) as Hcur by (rewrite Hperm; left).
  destruct (settled_path _ cur (ti_settled _ _ _ Hti cur Hcur) Hncl)
    as [Hnd Hall].
  destruct (chain_path s st cur Hpst (inv_chain _ _ _ Hinv cur Hcur))
    as (Hhead & Hlast & Hlinked & Hpass).
  split; [unfold _reconstruct_path; by rewrite <- Permutation_rev|].
  split; [|split; [done|split; [congruence|done]]].
  intros p Hp. unfold _reconstruct_path in Hp.
  rewrite <- Permutation_rev in Hp. simpl. rewrite Hv. apply Hall in Hp.
  apply elem_of_union in Hp as [Hp|Hp%elem_of_singleton];
    apply elem_of_app; [left|right].
  - by apply (inv_closed _ _ _ Hinv).
  - by apply list_elem_of_singleton.
Qed.

(** X8: the path that [solve] returns visits no position twice, has at
    least two positions, and every position on it was explored; so the
    reported [path_length], the number of its positions, is at most
    [nodes_explored], the length of [visited_order]. *)
Theorem X8_returned_path_is_simple_and_explored
    (mz : list (list Z)) (h : HeuristicType) (d : bool) (s s' : MazeSolver)
    (fuel : nat) (path : list pos) (stats : Stats) :
  __init__ mz h d = Ok s →
  solve fuel s = Some (Ok (s', Some path, stats)) →
  NoDup path ∧
  (∀ p, p ∈ path → p ∈ visited_order s') ∧
  (2 ≤ length path ≤ length (visited_order s'))%nat ∧
  stats_get stats "path_length" = Some (PyInt (Z.of_nat (length path))) ∧
  stats_get stats "nodes_explored" =
    Some (PyInt (Z.of_nat (length (visited_order s')))).
Proof.
  intros Hinit Hsolve.
  pose proof (init_well_formed _ _ _ _ Hinit) as Hwf.
  destruct (start s) as [st|] eqn:Hst;
    [|by rewrite solve_missing_endpoints in Hsolve by (by left)].
  destruct (goal s) as [g|] eqn:Hg;
    [|by rewrite solve_missing_endpoints in Hsolve by (by right)].
  pose proof (start_passable s st Hwf Hst) as Hpst.
  destruct (solve_end s st g fuel _ _ _ Hwf Hst Hg Hsolve)
    as (σ' & -> & [(? & _)|(σ0 & cur & open & [= ->] & Hinv & Hti & Hperm
                            & Hncl & Hpos & Hv & Hs & ->)]); [done|].
  assert (cur ∈ open_set σ0) as Hcur by (rewrite Hperm; left).
  destruct (settled_path _ cur (ti_settled _ _ _ Hti cur Hcur) Hncl)
    as [Hnd Hall].
  destruct (chain_path s st cur Hpst (inv_chain _ _ _ Hinv cur Hcur))
    as (Hhead & Hlast & _).
  assert (NoDup (_reconstruct_path cur)) as Hnd'
    by (unfold _reconstruct_path; by rewrite <- Permutation_rev).
  assert (∀ p, p ∈ _reconstruct_path cur → p ∈ visited σ') as Hin.
  { intros p Hp. unfold _reconstruct_path in Hp.
    rewrite <- Permutation_rev in Hp.
    rewrite Hv. apply Hall in Hp.
    apply elem_of_union in Hp as [Hp|Hp%elem_of_singleton];
      apply elem_of_app; [left|right].
    - by apply (inv_closed _ _ _ Hinv).
    - by apply list_elem_of_singleton. }
  simpl. split; [done|]. split; [done|]. split; [split|].
  - pose proof (endpoints_differ s st g Hwf Hst Hg) as Hne.
    destruct (_reconstruct_path cur) as [|a [|b l]]; simpl in *; [done| |lia].
    congruence.
  - apply submseteq_length, NoDup_submseteq; done.
  - split; [done|]. do 2 f_equal.
    rewrite Hv, length_app, (inv_count _ _ _ Hinv). simpl. lia.
Qed.

Lemma X8_returned_path_is_simple_and_explored_witness :
  ∃ s s' stats,
    __init__ [[2; 0; 0]; [1; 1; 0]; [3; 0; 0]] EUCLIDEAN true = Ok s ∧
    solve 40 s =
      Some (Ok (s', Some [(0, 0); (0, 1); (1, 2); (2, 1); (2, 0)], stats)) ∧
    NoDup [(0, 0); (0, 1); (1, 2); (2, 1); (2, 0)] ∧
    (∀ p, p ∈ [(0, 0); (0, 1); (1, 2); (2, 1); (2, 0)] →
          p ∈ visited_order s') ∧
    (2 ≤ length [(0, 0); (0, 1); (1, 2); (2, 1); (2, 0)]
       ≤ length (visited_order s'))%nat ∧
    stats_get stats "path_length" =
      Some (PyInt (Z.of_nat
                     (length [(0, 0); (0, 1); (1, 2); (2, 1); (2, 0)]))) ∧
    stats_get stats "nodes_explored" =
      Some (PyInt (Z.of_nat (length (visited_order s')))).
Proof.
  eexists _, _, _. split; [by vm_compute|]. split; [by vm_compute|].
  eapply (X8_returned_path_is_simple_and_explored
            [[2; 0; 0]; [1; 1; 0]; [3; 0; 0]] EUCLIDEAN true
            (constructed [[2; 0; 0]; [1; 1; 0]; [3; 0; 0]] EUCLIDEAN true)
            _ 40);
    by vm_compute.
Defined.

(** X9: after [solve] on a solver with both endpoints, [search_steps]
    has one record per explored position, [nodes_explored] of them.  The
    first record is the start with g = 0 and f = h; the record at index
    [i] has [closed_count] = [i + 1] and the heuristic of its position as
    [h_score], and after the first f = g + h; when a path is returned
    the last record is the goal. *)
Theorem X9_search_steps_records
    (mz : list (list Z)) (h : HeuristicType) (d : bool) (s s' : MazeSolver)
    (st g : pos) (fuel : nat) (found : option (list pos)) (stats : Stats) :
  __init__ mz h d = Ok s →
  start s = Some st → goal s = Some g →
  solve fuel s = Some (Ok (s', found, stats)) →
  stats_get stats "nodes_explored" =
    Some (PyInt (Z.of_nat (length (search_steps s')))) ∧
  (∃ stp, search_steps s' !! 0%nat = Some stp ∧
          step_position stp = st ∧ step_g_score stp = float_of_int 0 ∧
          step_f_score stp = heuristic s st) ∧
  (∀ i stp, search_steps s' !! i = Some stp →
     closed_count stp = Z.of_nat i + 1 ∧
     step_h_score stp = heuristic s (step_position stp) ∧
     ((0 < i)%nat →
      step_f_score stp = (step_g_score stp + step_h_score stp)%float)) ∧
  (is_Some found →
   ∃ stp, last (search_steps s') = Some stp ∧ step_position stp = g).
Proof.
  intros Hinit Hst Hg Hsolve.
  pose proof (init_well_formed _ _ _ _ Hinit) as Hwf.
  destruct (solve_end s st g fuel _ _ _ Hwf Hst Hg Hsolve)
    as (σ' & -> & [(-> & Hinv & Hti & Hopen & ->)
                  |(σ0 & cur & open & -> & Hinv & Hti & Hperm
                    & Hncl & Hpos & Hv & Hs & ->)]); simpl.
  - split.
    { by rewrite (inv_count _ _ _ Hinv), (length_steps s st). }
    split; [|split; [|by intros [? ?]]].
    + destruct (steps σ') as [|stp l] eqn:Hsteps.
      * destruct (ti_root _ _ _ Hti Hsteps) as (n & Hn & _).
        by rewrite Hopen in Hn.
      * exists stp. split; [done|]. apply (ti_first _ _ _ Hti).
        by rewrite Hsteps.
    + apply (ti_counts _ _ _ Hti).
  - assert (cur ∈ open_set σ0) as Hcur by (rewrite Hperm; left).
    pose proof (close_step s st σ0 cur (Z.of_nat (length open))
                  Hinv Hti Hcur Hncl) as Hstep.
    rewrite <- Hs in Hstep. split.
    { do 2 f_equal.
      rewrite Hs, length_app, (inv_count _ _ _ Hinv), (length_steps s st σ0)
        by done.
      simpl. lia. }
    split; [|split].
    + destruct (steps σ') as [|stp l] eqn:Hsteps.
      * apply (f_equal length) in Hs. rewrite length_app in Hs.
        simpl in Hs. lia.
      * exists stp. split; [done|]. by apply (Hstep 0%nat stp).
    + intros i stp Hi. by apply (Hstep i stp).
    + intros _. rewrite Hs, last_snoc. eexists. split; [done|]. done.
Qed.

Lemma X9_search_steps_records_witness :
  ∃ s s' found stats,
    __init__ [[2; 0; 0]; [1; 1; 0]; [3; 0; 0]] EUCLIDEAN true = Ok s ∧
    start s = Some (0, 0) ∧ goal s = Some (2, 0) ∧
    solve 40 s = Some (Ok (s', found, stats)) ∧
    stats_get stats "nodes_explored" =
      Some (PyInt (Z.of_nat (length (search_steps s')))) ∧
    (∃ stp, search_steps s' !! 0%nat = Some stp ∧
            step_position stp = (0, 0) ∧ step_g_score stp = float_of_int 0 ∧
            step_f_score stp = heuristic s (0, 0)) ∧
    (∀ i stp, search_steps s' !! i = Some stp →
       closed_count stp = Z.of_nat i + 1 ∧
       step_h_score stp = heuristic s (step_position stp) ∧
       ((0 < i)%nat →
        step_f_score stp = (step_g_score stp + step_h_score stp)%float)) ∧
    (is_Some found →
     ∃ stp, last (search_steps s') = Some stp ∧ step_position stp = (2, 0)).
Proof.
  eexists _, _, _, _. split; [by vm_compute|]. split; [done|].
  split; [done|]. split; [by vm_compute|].
  eapply (X9_search_steps_records
            [[2; 0; 0]; [1; 1; 0]; [3; 0; 0]] EUCLIDEAN true _ _ _ _ 40);
    by vm_compute.
Defined.

(** * The maze generator of [main.py] *)

Lemma random_row_spec rnd wd cols k :
  random_row rnd wd cols k =
  ((λ j, random_cell rnd wd (k + j)) <$> seq 0 (Z.to_nat cols),
   (k + Z.to_nat cols)%nat).
Proof.
  unfold random_row, range. rewrite <- (length_seqZ 0 cols).
  generalize (seqZ 0 cols). intros l.
  change (@nil Z) with (@nil Z ++ []) at 1.
  assert (∀ (row : list Z) k,
    fold_left (λ '(row, k) _, (row ++ [random_cell rnd wd k], S k)) l (row, k)
    = (row ++ ((λ j, random_cell rnd wd (k + j)) <$> seq 0 (length l)),
       (k + length l)%nat)) as Hgen.
  { induction l as [|x l IH]; intros row k0; simpl.
    - by rewrite app_nil_r, Nat.add_0_r.
    - rewrite IH, <- app_assoc. simpl. rewrite Nat.add_0_r.
      rewrite <- fmap_S_seq, <- list_fmap_compose.
      do 3 f_equal; [|lia].
      apply list_fmap_ext. intros i j _. simpl. f_equal. lia. }
  by rewrite Hgen.
Qed.

Lemma random_rows_spec rnd wd rows cols :
  (random_rows rnd wd rows cols).1 =
  (λ i, (λ j, random_cell rnd wd (i * Z.to_nat cols + j))
          <$> seq 0 (Z.to_nat cols)) <$> seq 0 (Z.to_nat rows).
Proof.
  unfold random_rows, range. rewrite <- (length_seqZ 0 rows).
  generalize (seqZ 0 rows). intros l.
  assert (∀ (maze : list (list Z)) k,
    (fold_left (λ '(maze, k) _,
                 let '(row, k) := random_row rnd wd cols k in
                 (maze ++ [row], k)) l (maze, k)).1
    = maze ++ ((λ i, (λ j, random_cell rnd wd (k + i * Z.to_nat cols + j))
                       <$> seq 0 (Z.to_nat cols)) <$> seq 0 (length l)))
    as Hgen.
  { induction l as [|x l IH]; intros maze k; simpl.
    - by rewrite app_nil_r.
    - rewrite random_row_spec, IH, <- app_assoc. simpl. rewrite Nat.add_0_r.
      rewrite <- fmap_S_seq, <- list_fmap_compose.
      do 2 f_equal. apply list_fmap_ext. intros i j _. simpl.
      apply list_fmap_ext. intros i' j' _. f_equal. lia. }
  rewrite Hgen. simpl. done.
Qed.

Lemma random_rows_cell rnd wd rows cols i j :
  cell_at (random_rows rnd wd rows cols).1 i j =
  if decide (i < Z.to_nat rows ∧ j < Z.to_nat cols)%nat
  then Some (random_cell rnd wd (i * Z.to_nat cols + j)) else None.
Proof.
  rewrite random_rows_spec. unfold cell_at.
  rewrite list_lookup_fmap.
  destruct (decide (i < Z.to_nat rows)%nat) as [Hi|Hi].
  - rewrite lookup_seq_lt by done. simpl. rewrite list_lookup_fmap.
    destruct (decide (j < Z.to_nat cols)%nat) as [Hj|Hj].
    + rewrite lookup_seq_lt by done. simpl. by rewrite decide_True.
    + rewrite lookup_seq_ge by lia. simpl. by rewrite decide_False by tauto.
  - rewrite lookup_seq_ge by lia. simpl. by rewrite decide_False by tauto.
Qed.

Lemma set_cell_mark maze r c v :
  set_cell maze r c v = mark_cell (λ _, true) v maze (r, c).
Proof.
  unfold set_cell, mark_cell. simpl.
  destruct (getitem maze r) as [row|e]; simpl; [|done].
  unfold getitem, setitem.
  destruct (index (length row) c) as [k|] eqn:Hk; simpl; [|done].
  apply index_Some in Hk.
  destruct (lookup_lt_is_Some_2 row k Hk) as [x ->]. done.
Qed.

Lemma mark_cell_shape test v G p G' (c : nat) :
  mark_cell test v G p = Ok G' →
  length G' = length G ∧
  (Forall (λ row, length row = c) G → Forall (λ row, length row = c) G').
Proof.
  unfold mark_cell, getitem, setitem.
  destruct (index (length G) p.1) as [k|]; simpl; [|done].
  destruct (G !! k) as [row|] eqn:Hrow; simpl; [|done].
  destruct (index (length row) p.2) as [k2|]; simpl; [|done].
  destruct (row !! k2) as [x|]; simpl; [|done].
  destruct (test x); intros [= <-]; [|done].
  rewrite length_insert. split; [done|]. intros Hall.
  apply Forall_insert; [done|]. rewrite length_insert.
  by apply (Forall_lookup_1 _ _ _ _ Hall Hrow).
Qed.

Lemma mark_loop_shape test v ps G G' (c : nat) :
  for_each ps (mark_cell test v) G = Ok G' →
  length G' = length G ∧
  (Forall (λ row, length row = c) G → Forall (λ row, length row = c) G').
Proof.
  revert G. induction ps as [|p ps IH]; intros G; simpl.
  { by intros [= <-]. }
  destruct (mark_cell test v G p) as [G1|e] eqn:H1; simpl; [|done].
  intros H2. destruct (mark_cell_shape _ _ _ _ _ c H1) as [Hl1 Hf1].
  destruct (IH _ H2) as [Hl2 Hf2]. split; [congruence|auto].
Qed.

Lemma clear_wall_cases rows cols G p :
  clear_wall rows cols G p =
  if decide (0 ≤ p.1 < rows ∧ 0 ≤ p.2 < cols)
  then mark_cell is_wall (value EMPTY) G p else Ok G.
Proof.
  unfold clear_wall.
  destruct (Z.leb_spec 0 p.1), (Z.ltb_spec p.1 rows),
    (Z.leb_spec 0 p.2), (Z.ltb_spec p.2 cols); simpl;
    by (rewrite decide_True by lia) || (rewrite decide_False by lia).
Qed.

(** The guarded clearing of a list of positions touches the positions in
    bounds only. *)
Lemma clear_loop_eq rows cols ps G :
  for_each ps (clear_wall rows cols) G =
  for_each (filter (λ p : pos, 0 ≤ p.1 < rows ∧ 0 ≤ p.2 < cols) ps)
    (mark_cell is_wall (value EMPTY)) G.
Proof.
  revert G. induction ps as [|p ps IH]; intros G; [done|].
  cbn [for_each]. rewrite clear_wall_cases.
  destruct (decide (0 ≤ p.1 < rows ∧ 0 ≤ p.2 < cols)) as [Hin|Hout].
  - rewrite filter_cons_True by done. cbn [for_each].
    destruct (mark_cell _ _ _ _); cbn [mbind res_bind]; [apply IH|done].
  - rewrite filter_cons_False by done. cbn [mbind res_bind]. apply IH.
Qed.

(** The positions that the last loop of the generator clears, in order. *)
Lemma clear_loop_unfold rows cols G :
  for_each [(-1, 0); (1, 0); (0, -1); (0, 1)]
    (λ maze '(dr, dc),
       maze ← clear_wall rows cols maze (0 + dr, 0 + dc);
       clear_wall rows cols maze (rows - 1 + dr, cols - 1 + dc)) G =
  for_each [(0 + -1, 0 + 0); (rows - 1 + -1, cols - 1 + 0);
            (0 + 1, 0 + 0); (rows - 1 + 1, cols - 1 + 0);
            (0 + 0, 0 + -1); (rows - 1 + 0, cols - 1 + -1);
            (0 + 0, 0 + 1); (rows - 1 + 0, cols - 1 + 1)]
    (clear_wall rows cols) G.
Proof.
  cbn [for_each].
  repeat match goal with
         | |- context [clear_wall ?a ?b ?c ?d] =>
             destruct (clear_wall a b c d); cbn [mbind res_bind]
         end; done.
Qed.

Lemma cleared_positions rows cols (p : pos) :
  p ∈ filter (λ p : pos, 0 ≤ p.1 < rows ∧ 0 ≤ p.2 < cols)
        [(0 + -1, 0 + 0); (rows - 1 + -1, cols - 1 + 0);
         (0 + 1, 0 + 0); (rows - 1 + 1, cols - 1 + 0);
         (0 + 0, 0 + -1); (rows - 1 + 0, cols - 1 + -1);
         (0 + 0, 0 + 1); (rows - 1 + 0, cols - 1 + 1)] ↔
  (0 ≤ p.1 < rows ∧ 0 ≤ p.2 < cols) ∧
  (adjacent p (0, 0) ∨ adjacent p (rows - 1, cols - 1)).
Proof.
  rewrite list_elem_of_filter, !elem_of_cons, elem_of_nil.
  destruct p as [i j]. rewrite !pair_equal_spec. unfold adjacent. simpl. lia.
Qed.

Lemma random_cell_code rnd wd k :
  random_cell rnd wd k = value WALL ∨ random_cell rnd wd k = value EMPTY.
Proof. unfold random_cell. destruct (PrimFloat.ltb _ _); auto. Qed.

Lemma random_rows_shape rnd wd rows cols :
  length (random_rows rnd wd rows cols).1 = Z.to_nat rows ∧
  Forall (λ row, length row = Z.to_nat cols) (random_rows rnd wd rows cols).1.
Proof.
  rewrite random_rows_spec. split.
  - by rewrite length_fmap, length_seq.
  - apply Forall_fmap, Forall_forall. intros i _. simpl.
    by rewrite length_fmap, length_seq.
Qed.

(** The generator on a grid of at least one cell, cell by cell. *)
Lemma generate_spec rnd rows cols wd :
  1 ≤ rows → 1 ≤ cols →
  ∃ maze,
    generate_random_maze rnd rows cols wd = Ok maze ∧
    length maze = Z.to_nat rows ∧
    Forall (λ row, length row = Z.to_nat cols) maze ∧
    ∀ i j, 0 ≤ i < rows → 0 ≤ j < cols →
      cell_at maze (Z.to_nat i) (Z.to_nat j) =
      Some (generated_cell rnd wd rows cols i j).
Proof.
  intros Hrows Hcols. unfold generate_random_maze. cbv beta iota zeta.
  set (M := (random_rows rnd wd rows cols).1).
  destruct (random_rows_shape rnd wd rows cols) as [HlM HfM]. fold M in HlM, HfM.
  assert (∀ i j, cell_at M i j =
    if decide (i < Z.to_nat rows ∧ j < Z.to_nat cols)%nat
    then Some (random_cell rnd wd (i * Z.to_nat cols + j)) else None) as HcM
    by apply random_rows_cell.
  (* the start marker *)
  rewrite set_cell_mark.
  destruct (mark_cell_spec (λ _, true) (value START) M (0, 0))
    as (G1 & H1 & Hc1).
  { apply indexes_cell_at. simpl. split; [done|]. split; [done|].
    rewrite HcM, decide_True by lia. eauto. }
  assert (∀ i j, (i < Z.to_nat rows)%nat → (j < Z.to_nat cols)%nat →
                 cell_at M i j
                 = Some (random_cell rnd wd (i * Z.to_nat cols + j))) as HcM'.
  { intros i j Hi Hj. by rewrite HcM, decide_True. }
  rewrite H1. cbn [mbind res_bind].
  (* the goal marker *)
  rewrite set_cell_mark.
  destruct (mark_cell_spec (λ _, true) (value GOAL) G1 (rows - 1, cols - 1))
    as (G2 & H2 & Hc2).
  { apply indexes_cell_at. simpl. split; [lia|]. split; [lia|].
    rewrite Hc1, HcM' by lia. simpl. eauto. }
  rewrite H2. cbn [mbind res_bind].
  (* the neighbours *)
  rewrite clear_loop_unfold, clear_loop_eq.
  match goal with |- context [for_each ?l (mark_cell _ _) G2] => set (ps := l) end.
  assert (∀ p, p ∈ ps ↔ (0 ≤ p.1 < rows ∧ 0 ≤ p.2 < cols) ∧
            (adjacent p (0, 0) ∨ adjacent p (rows - 1, cols - 1))) as Hps
    by (intros p; apply cleared_positions).
  destruct (mark_loop_spec is_wall (value EMPTY) ps G2) as (G3 & H3 & Hc3).
  { apply Forall_forall. intros p [Hin _]%Hps.
    apply indexes_cell_at. split; [lia|]. split; [lia|].
    rewrite Hc2, Hc1, HcM' by lia. simpl. eauto. }
  exists G3. split; [done|].
  destruct (mark_cell_shape _ _ _ _ _ (Z.to_nat cols) H1) as [Hl1 Hf1].
  destruct (mark_cell_shape _ _ _ _ _ (Z.to_nat cols) H2) as [Hl2 Hf2].
  destruct (mark_loop_shape _ _ _ _ _ (Z.to_nat cols) H3) as [Hl3 Hf3].
  split; [congruence|]. split; [auto|].
  intros i j Hi Hj.
  rewrite Hc3, Hc2, Hc1, HcM' by lia. simpl.
  rewrite !Z2Nat.id by lia. f_equal. unfold generated_cell.
  assert (Z.to_nat i * Z.to_nat cols + Z.to_nat j = Z.to_nat (i * cols + j))%nat
    as -> by nia.
  pose proof (Hps (i, j)) as Hp. unfold adjacent in Hp |- *. simpl in Hp |- *.
  clear Hps Hc1 Hc2 Hc3 HcM HcM'.
  destruct (random_cell_code rnd wd (Z.to_nat (i * cols + j))) as [Hx|Hx];
    rewrite Hx; repeat case_decide;
    repeat match goal with
           | H : (_, _) ∈ _ |- _ => apply Hp in H
           | H : ¬ ((_, _) ∈ _) |- _ => rewrite Hp in H
           | H : (_, _) = (_, _) |- _ => rewrite pair_equal_spec in H
           | H : (_, _) ≠ (_, _) |- _ => rewrite pair_equal_spec in H
           end;
    unfold marked_code, is_wall; simpl; try done; exfalso; lia.
Qed.

(** X10: for at least one row and one column [generate_random_maze]
    returns a grid of [rows] rows of [cols] cells: the goal marker in
    the last cell, the start marker in the first one (unless that is
    the last one too), an empty cell at every other position next to
    the start or to the goal, and elsewhere a wall exactly where the
    draw made for the cell, the draws being made in row-major order, is
    below the wall density. *)
Theorem X10_generated_maze_cell_by_cell
    (rnd : nat → float) (rows cols : Z) (wall_density : float) :
  1 ≤ rows → 1 ≤ cols →
  ∃ maze,
    generate_random_maze rnd rows cols wall_density = Ok maze ∧
    Z.of_nat (length maze) = rows ∧
    Forall (λ row, Z.of_nat (length row) = cols) maze ∧
    ∀ i j, 0 ≤ i < rows → 0 ≤ j < cols →
      cell maze i j = Ok (generated_cell rnd wall_density rows cols i j).
Proof.
  intros Hrows Hcols.
  destruct (generate_spec rnd rows cols wall_density Hrows Hcols)
    as (maze & Hgen & Hlen & Hall & Hcell).
  exists maze. split; [done|]. split; [lia|]. split.
  - eapply Forall_impl; [exact Hall|]. intros row Hrow. simpl in Hrow. lia.
  - intros i j Hi Hj. apply cell_Ok; [lia..|].
    specialize (Hcell i j Hi Hj). unfold cell_at in Hcell.
    destruct (maze !! Z.to_nat i) as [row|]; [|done]. by exists row.
Qed.

Lemma X10_generated_maze_cell_by_cell_witness :
  ∃ maze,
    generate_random_maze (λ k, if Nat.even k then 0.1 else 0.9)%float 3 4 0.5
      = Ok maze ∧
    Z.of_nat (length maze) = 3 ∧
    Forall (λ row, Z.of_nat (length row) = 4) maze ∧
    ∀ i j, 0 ≤ i < 3 → 0 ≤ j < 4 →
      cell maze i j =
      Ok (generated_cell (λ k, if Nat.even k then 0.1 else 0.9)%float 0.5
            3 4 i j).
Proof.
  apply (X10_generated_maze_cell_by_cell
           (λ k, if Nat.even k then 0.1 else 0.9)%float 3 4 0.5); lia.
Defined.

(** The generated grid for that stream of draws. *)
Example generated_maze_3_by_4 :
  generate_random_maze (λ k, if Nat.even k then 0.1 else 0.9)%float 3 4 0.5
  = Ok [[2; 0; 1; 0]; [0; 0; 1; 0]; [1; 0; 0; 3]].
Proof. by vm_compute. Qed.

(** X11: without rows or without columns [generate_random_maze] raises
    [IndexError], at the assignment of the start marker. *)
Theorem X11_generator_needs_a_cell
    (rnd : nat → float) (rows cols : Z) (wall_density : float) :
  rows ≤ 0 ∨ cols ≤ 0 →
  generate_random_maze rnd rows cols wall_density = Raise IndexError.
Proof.
  intros Hempty. unfold generate_random_maze. cbv beta iota zeta.
  rewrite random_rows_spec. unfold set_cell.
  destruct (decide (rows ≤ 0)) as [Hr|Hr].
  { by replace (Z.to_nat rows) with 0%nat by lia. }
  destruct (Z.to_nat rows) as [|r] eqn:Hrows; [lia|].
  replace (Z.to_nat cols) with 0%nat by lia. done.
Qed.

Lemma X11_generator_needs_a_cell_witness :
  (5 ≤ 0 ∨ 0 ≤ 0) ∧
  generate_random_maze (λ _, 0.5%float) 5 0 0.3 = Raise IndexError.
Proof.
  split; [lia|].
  apply (X11_generator_needs_a_cell (λ _, 0.5%float) 5 0 0.3). lia.
Defined.

Lemma last_marked_None mz c cs :
  (∀ p, p ∈ cs → ¬ marked mz c p) → last_marked mz c cs = None.
Proof.
  intros Hno. destruct (last_marked mz c cs) as [q|] eqn:Hq; [|done].
  apply last_marked_Some in Hq as [Hin Hm]. by destruct (Hno q Hin).
Qed.

Lemma generated_cell_start rnd wd rows cols i j :
  generated_cell rnd wd rows cols i j = value START ↔
  (i, j) = (0, 0) ∧ (i, j) ≠ (rows - 1, cols - 1).
Proof.
  unfold generated_cell.
  destruct (random_cell_code rnd wd (Z.to_nat (i * cols + j))) as [Hx|Hx];
    rewrite Hx; repeat case_decide; simpl; split; try done;
    intros [? ?]; done.
Qed.

Lemma generated_cell_goal rnd wd rows cols i j :
  generated_cell rnd wd rows cols i j = value GOAL ↔
  (i, j) = (rows - 1, cols - 1).
Proof.
  unfold generated_cell.
  destruct (random_cell_code rnd wd (Z.to_nat (i * cols + j))) as [Hx|Hx];
    rewrite Hx; repeat case_decide; simpl; split; done.
Qed.

(** X12: the solver can be constructed from every grid that
    [generate_random_maze] returns; its goal is the last cell and its
    start the first cell, except on the grid of a single cell, which
    has a goal and no start; and the cells next to the start and to the
    goal are passable. *)
Theorem X12_generated_maze_constructs_a_solver
    (rnd : nat → float) (n m : Z) (wall_density : float)
    (h : HeuristicType) (d : bool) :
  1 ≤ n → 1 ≤ m →
  ∃ maze s,
    generate_random_maze rnd n m wall_density = Ok maze ∧
    __init__ maze h d = Ok s ∧
    rows s = n ∧ cols s = m ∧
    goal s = Some (n - 1, m - 1) ∧
    start s = (if decide (n = 1 ∧ m = 1) then None else Some (0, 0)) ∧
    ∀ p, 0 ≤ p.1 < n → 0 ≤ p.2 < m →
         adjacent p (0, 0) ∨ adjacent p (n - 1, m - 1) →
         passable s p.
Proof.
  intros Hrows Hcols.
  destruct (generate_spec rnd n m wall_density Hrows Hcols)
    as (maze & Hgen & Hlen & Hall & Hcell).
  assert (first_row_len maze = m) as Hfirst.
  { unfold first_row_len. destruct maze as [|row0 maze']; [simpl in Hlen; lia|].
    apply Forall_cons in Hall as [H0 _]. lia. }
  assert (scannable maze) as Hscan.
  { apply rectangular_scannable. unfold rectangular. rewrite Hfirst.
    eapply Forall_impl; [exact Hall|]. intros row Hrow. simpl in Hrow. lia. }
  assert (∀ i j, 0 ≤ i < n → 0 ≤ j < m →
            cell maze i j = Ok (generated_cell rnd wall_density n m i j))
    as Hread.
  { intros i j Hi Hj. apply cell_Ok; [lia..|].
    specialize (Hcell i j Hi Hj). unfold cell_at in Hcell.
    destruct (maze !! Z.to_nat i) as [row|]; [|done]. by exists row. }
  exists maze, (constructed maze h d). split; [done|].
  split; [by rewrite init_spec, decide_True|].
  simpl. split; [lia|]. split; [done|].
  replace (Z.of_nat (length maze)) with n by lia. rewrite Hfirst.
  assert (∀ c p, p ∈ grid_cells n m →
            marked maze c p ↔
            generated_cell rnd wall_density n m p.1 p.2 = value c)
    as Hmarked.
  { intros c p [Hi Hj]%elem_of_grid_cells. unfold marked.
    rewrite (Hread _ _ Hi Hj). split; [by intros [= ->]|by intros ->]. }
  split; [|split].
  - destruct (last_marked maze GOAL (grid_cells n m)) as [q|] eqn:Hq.
    + apply last_marked_Some in Hq as [Hin Hm].
      apply (Hmarked GOAL q Hin), generated_cell_goal in Hm.
      destruct q. simpl in Hm. by rewrite Hm.
    + assert (is_Some (last_marked maze GOAL (grid_cells n m))) as [? ?];
        [|congruence].
      apply (last_marked_exists _ _ _ (n - 1, m - 1)).
      * apply elem_of_grid_cells. simpl. lia.
      * apply Hmarked; [apply elem_of_grid_cells; simpl; lia|].
        by apply generated_cell_goal.
  - case_decide as H1.
    + apply last_marked_None. intros p Hin Hm.
      apply (Hmarked START p Hin), generated_cell_start in Hm.
      destruct p as [i j], Hm as [[= -> ->] Hne]. simpl in *.
      apply Hne. f_equal; lia.
    + destruct (last_marked maze START (grid_cells n m)) as [q|] eqn:Hq.
      * apply last_marked_Some in Hq as [Hin Hm].
        apply (Hmarked START q Hin), generated_cell_start in Hm.
        destruct q, Hm as [Hm _]. simpl in Hm. by rewrite Hm.
      * assert (is_Some (last_marked maze START (grid_cells n m)))
          as [? ?]; [|congruence].
        apply (last_marked_exists _ _ _ (0, 0)).
        -- apply elem_of_grid_cells. simpl. lia.
        -- apply Hmarked; [apply elem_of_grid_cells; simpl; lia|].
           apply generated_cell_start. split; [done|].
           intros [= ? ?]. lia.
  - intros p Hi Hj Hadj. split; [simpl; lia|].
    simpl. rewrite (Hread _ _ Hi Hj). eexists. split; [done|].
    unfold generated_cell.
    destruct p as [i j]. simpl in *. repeat case_decide; try done.
Qed.

Lemma X12_generated_maze_constructs_a_solver_witness :
  ∃ maze s,
    generate_random_maze (λ _, 0.1%float) 1 2 0.5 = Ok maze ∧
    __init__ maze EUCLIDEAN true = Ok s ∧
    rows s = 1 ∧ cols s = 2 ∧
    goal s = Some (1 - 1, 2 - 1) ∧
    start s = (if decide (1 = 1 ∧ 2 = 1) then None else Some (0, 0)) ∧
    ∀ p, 0 ≤ p.1 < 1 → 0 ≤ p.2 < 2 →
         adjacent p (0, 0) ∨ adjacent p (1 - 1, 2 - 1) →
         passable s p.
Proof.
  apply (X12_generated_maze_constructs_a_solver
           (λ _, 0.1%float) 1 2 0.5 EUCLIDEAN true); lia.
Defined.

(** * The annotated grid of a solved maze *)

Lemma cell_cell_at mz i j v :
  0 ≤ i → 0 ≤ j →
  cell mz i j = Ok v ↔ cell_at mz (Z.to_nat i) (Z.to_nat j) = Some v.
Proof.
  intros Hi Hj. rewrite cell_Ok by done. unfold cell_at. split.
  - by intros (row & -> & ?).
  - destruct (mz !! Z.to_nat i) as [row|]; [|done]. by exists row.
Qed.

(** X13: for the path that [solve] returned, [get_solution_maze] returns
    a grid without an exception; in it the start and goal cells keep
    their markers, every other position of the path holds [PATH] unless
    its cell carries a start or goal code, the walls are exactly the
    walls of the maze, and no cell outside [visited_order] differs from
    the maze. *)
Theorem X13_solution_maze_of_returned_path
    (mz : list (list Z)) (h : HeuristicType) (d : bool) (s s' : MazeSolver)
    (fuel : nat) (path : list pos) (stats : Stats) :
  __init__ mz h d = Ok s →
  solve fuel s = Some (Ok (s', Some path, stats)) →
  ∃ result st g,
    get_solution_maze s' path = Ok result ∧
    start s = Some st ∧ goal s = Some g ∧
    cell result st.1 st.2 = Ok (value START) ∧
    cell result g.1 g.2 = Ok (value GOAL) ∧
    (∀ p, p ∈ path →
       ∃ x, cell mz p.1 p.2 = Ok x ∧
            cell result p.1 p.2 =
            Ok (if decide (x = value START ∨ x = value GOAL) then x
                else value PATH)) ∧
    (∀ i j, 0 ≤ i → 0 ≤ j →
       cell result i j = Ok (value WALL) ↔ cell mz i j = Ok (value WALL)) ∧
    (∀ i j x, 0 ≤ i → 0 ≤ j → (i, j) ∉ visited_order s' →
       cell mz i j = Ok x → cell result i j = Ok x).
Proof.
  intros Hinit Hsolve.
  pose proof (init_well_formed _ _ _ _ Hinit) as Hwf.
  destruct (init_fields _ _ _ _ Hinit) as (Hmz & _).
  destruct (start s) as [st|] eqn:Hst;
    [|by rewrite solve_missing_endpoints in Hsolve by (by left)].
  destruct (goal s) as [g|] eqn:Hg;
    [|by rewrite solve_missing_endpoints in Hsolve by (by right)].
  destruct (returned_path_explored s st g fuel s' path stats Hwf Hst Hg Hsolve)
    as (Hnd & Hsub & Hhead & Hlast & Hlinked & Hpass).
  destruct (solve_same_grid _ _ _ _ _ Hsolve) as (Hmz' & _).
  pose proof (solve_visited_indexes _ _ _ _ _ _ _ _ Hinit Hsolve) as Hvis.
  assert (Forall (indexes mz) path) as Hpath.
  { eapply Forall_impl; [exact Hpass|]. intros p Hp.
    rewrite <- Hmz. by apply passable_indexes. }
  destruct (get_solution_maze_spec s' path) as (result & Hres & Hcell);
    [by rewrite Hmz', Hmz..|].
  rewrite Hmz', Hmz in Hcell.
  assert (∀ i j x, 0 ≤ i → 0 ≤ j → cell mz i j = Ok x →
            cell result i j = Ok (annotation (visited_order s') path (i, j) x))
    as Hann.
  { intros i j x Hi Hj Hx. apply cell_cell_at in Hx; [|done..].
    apply cell_cell_at; [done..|]. rewrite Hcell, Hx. simpl.
    by rewrite !Z2Nat.id. }
  assert (∀ p, p ∈ path → ∃ x, cell mz p.1 p.2 = Ok x ∧ x ≠ value WALL ∧
                              0 ≤ p.1 ∧ 0 ≤ p.2) as Hon.
  { intros p Hp. rewrite Forall_forall in Hpass.
    destruct (Hpass p Hp) as ((? & ?) & x & Hx & Hne).
    exists x. rewrite <- Hmz. split; [done|]. split; [done|lia]. }
  assert (marked mz START st ∧ marked mz GOAL g) as [Hms Hmg].
  { destruct Hwf as (_ & _ & _ & Hs & Hgl).
    rewrite Hs in Hst. rewrite Hgl in Hg.
    apply last_marked_Some in Hst as [_ ?]. apply last_marked_Some in Hg as [_ ?].
    by rewrite <- Hmz. }
  assert (st ∈ path ∧ g ∈ path) as [Hstp Hgp].
  { split; [by apply head_Some_elem_of|by apply last_Some_elem_of]. }
  exists result, st, g. repeat (split; [done|]).
  split; [|split; [|split; [|split]]].
  - destruct (Hon st Hstp) as (x & Hx & _ & ? & ?).
    rewrite (Hann _ _ x) by (done || by destruct st).
    unfold marked in Hms. assert (x = value START) as -> by congruence.
    unfold annotation. rewrite decide_False by tauto.
    by rewrite decide_False by (by intros [_ ?]).
  - destruct (Hon g Hgp) as (x & Hx & _ & ? & ?).
    rewrite (Hann _ _ x) by (done || by destruct g).
    unfold marked in Hmg. assert (x = value GOAL) as -> by congruence.
    unfold annotation. rewrite decide_False by tauto.
    by rewrite decide_False by (by intros [_ ?]).
  - intros p Hp. destruct (Hon p Hp) as (x & Hx & Hne & ? & ?).
    exists x. split; [done|]. rewrite (Hann _ _ x) by done.
    f_equal. unfold annotation. destruct p as [i j]. simpl in *.
    repeat case_decide; first [done|lia|exfalso; tauto].
  - intros i j Hi Hj. split.
    + intros Hr. destruct (cell mz i j) as [x|e] eqn:Hx.
      * rewrite (Hann _ _ x) in Hr by done. injection Hr as Hr.
        unfold annotation in Hr. repeat case_decide; by subst.
      * apply cell_cell_at in Hr; [|done..]. rewrite Hcell in Hr.
        destruct (cell_at mz (Z.to_nat i) (Z.to_nat j)) as [x|] eqn:Hx';
          [|done].
        apply cell_cell_at in Hx'; [|done..]. congruence.
    + intros Hx. rewrite (Hann _ _ _ Hi Hj Hx). f_equal.
      unfold annotation. rewrite decide_False.
      * by rewrite decide_False by (by intros [_ ?]).
      * intros (Hp & _). destruct (Hon _ Hp) as (x & Hx' & Hne & _).
        simpl in Hx'. congruence.
  - intros i j x Hi Hj Hnv Hx. rewrite (Hann _ _ _ Hi Hj Hx). f_equal.
    unfold annotation. rewrite decide_False by (intros (Hp & _); auto).
    by rewrite decide_False by tauto.
Qed.

Lemma X13_solution_maze_of_returned_path_witness :
  ∃ s s' stats,
    __init__ [[2; 0; 0]; [1; 1; 0]; [3; 0; 0]] EUCLIDEAN true = Ok s ∧
    solve 40 s =
      Some (Ok (s', Some [(0, 0); (0, 1); (1, 2); (2, 1); (2, 0)], stats)) ∧
    ∃ result st g,
      get_solution_maze s' [(0, 0); (0, 1); (1, 2); (2, 1); (2, 0)]
        = Ok result ∧
      start s = Some st ∧ goal s = Some g ∧
      cell result st.1 st.2 = Ok (value START) ∧
      cell result g.1 g.2 = Ok (value GOAL) ∧
      (∀ p, p ∈ [(0, 0); (0, 1); (1, 2); (2, 1); (2, 0)] →
         ∃ x, cell [[2; 0; 0]; [1; 1; 0]; [3; 0; 0]] p.1 p.2 = Ok x ∧
              cell result p.1 p.2 =
              Ok (if decide (x = value START ∨ x = value GOAL) then x
                  else value PATH)) ∧
      (∀ i j, 0 ≤ i → 0 ≤ j →
         cell result i j = Ok (value WALL) ↔
         cell [[2; 0; 0]; [1; 1; 0]; [3; 0; 0]] i j = Ok (value WALL)) ∧
      (∀ i j x, 0 ≤ i → 0 ≤ j → (i, j) ∉ visited_order s' →
         cell [[2; 0; 0]; [1; 1; 0]; [3; 0; 0]] i j = Ok x →
         cell result i j = Ok x).
Proof.
  eexists _, _, _. split; [by vm_compute|]. split; [by vm_compute|].
  eapply (X13_solution_maze_of_returned_path
            [[2; 0; 0]; [1; 1; 0]; [3; 0; 0]] EUCLIDEAN true
            (constructed [[2; 0; 0]; [1; 1; 0]; [3; 0; 0]] EUCLIDEAN true)
            _ 40);
    by vm_compute.
Defined.

(** * The order of expansion with whole-number costs *)

Section expansion_order.
Context (s : MazeSolver) (st g : pos).
Hypothesis Hwf : well_formed s.
Hypothesis Hst : passable s st.
Hypothesis Hg : goal s = Some g.
Hypothesis Hdirs : directions s = DIRECTIONS_4.
Hypothesis Hheur : heuristic_type s ≠ EUCLIDEAN.
Hypothesis Hexact : whole_costs_exact (cost_bound s).

(** The step recorded for the node that [heappop] returns carries the
    largest priority so far. *)
Lemma order_extend σ cur open stp :
  invariant s st σ → cost_invariant s st σ → order_invariant s σ →
  heapq.heappop (open_set σ) = Some (cur, open) →
  step_f_score stp = f_score cur →
  (∀ i j a b,
     (i ≤ j)%nat → (steps σ ++ [stp]) !! i = Some a →
     (steps σ ++ [stp]) !! j = Some b →
     ∃ ka kb, step_f_score a = float_of_int ka ∧
              step_f_score b = float_of_int kb ∧
              0 ≤ ka ∧ ka ≤ kb ∧ kb ≤ cost_bound s) ∧
  (∀ a, a ∈ steps σ ++ [stp] →
     ∃ ka, step_f_score a = float_of_int ka ∧ 0 ≤ ka ≤ key s cur) ∧
  (∀ n, n ∈ open → key s cur ≤ key s n).
Proof.
  intros Hinv Hci Hoi Hpop Hf.
  pose proof (heappop_perm _ _ _ Hpop) as Hperm.
  assert (cur ∈ open_set σ) as Hcur by (rewrite Hperm; left).
  assert (Forall (ranked s) (open_set σ)) as Hrk.
  { apply Forall_forall. intros n Hn. by eapply open_ranked. }
  destruct (heappop_ok (key s) (ranked s) (ranked_cmp s Hexact) _ _ _ Hpop Hrk
              (ci_heap _ _ _ Hci)) as [_ Hmin].
  destruct (open_ranked s st g Hwf Hst Hg σ cur Hinv Hci Hcur) as [Hfc Hkc].
  assert (∀ a, a ∈ steps σ ++ [stp] →
            ∃ ka, step_f_score a = float_of_int ka ∧ 0 ≤ ka ≤ key s cur)
    as Hall.
  { intros a [Ha| ->%list_elem_of_singleton]%elem_of_app.
    - by apply (oi_open _ _ Hoi).
    - exists (key s cur). split; [congruence|lia]. }
  split; [|by split].
  intros i j a b Hij Ha Hb.
  apply lookup_app_Some in Hb as [Hb|[Hlen Hb]].
  - assert (steps σ !! i = Some a) as Ha'.
    { apply lookup_lt_Some in Hb. by rewrite lookup_app_l in Ha by lia. }
    by apply (oi_sorted _ _ Hoi i j).
  - apply list_lookup_singleton_Some in Hb as [_ <-].
    destruct (Hall a) as (ka & Hka & Hr); [by eapply list_elem_of_lookup_2|].
    exists ka, (key s cur). split; [done|]. split; [congruence|lia].
Qed.

Lemma iteration_order σ σ' :
  invariant s st σ → cost_invariant s st σ ∧ order_invariant s σ →
  iteration s σ = Ok (Continue σ') →
  cost_invariant s st σ' ∧ order_invariant s σ'.
Proof.
  intros Hinv [Hci Hoi] Hit. split.
  { pose proof (iteration_whole s st g Hwf Hst Hg Hdirs Hheur Hexact σ Hinv Hci)
      as Hw. by rewrite Hit in Hw. }
  assert (open_set σ ≠ []) as Hne.
  { intros H0. unfold iteration in Hit. by rewrite H0 in Hit. }
  destruct (iteration_cases s σ Hwf Hne)
    as (cur & open & Hpop & Hperm &
        [[Hcl Heq]|(Hncl & σ1 & Hc1 & Hv1 & Hs1 & He1 &
                    [[_ Heq]|(Heq & news & Hopen1 & Hnews)])]);
    rewrite Heq in Hit; [|done|]; injection Hit as <-.
  - destruct Hoi as [Hsorted Hopen]. constructor; simpl; [done|].
    intros a n Ha Hn. apply Hopen; [done|]. rewrite Hperm. by right.
  - destruct (order_extend σ cur open
                (mkStep (position cur) (f_score cur) (g_score cur)
                   (h_score cur) (Z.of_nat (length open))
                   (Z.of_nat (size (closed_set σ ∪ {[position cur]}))))
                Hinv Hci Hoi Hpop eq_refl) as (Hsorted & Hall & Hmin).
    constructor; rewrite Hs1; [done|].
    intros a n Ha Hn. destruct (Hall a Ha) as (ka & Hka & Hr).
    exists ka. split; [done|]. split; [lia|].
    rewrite Hopen1 in Hn. apply elem_of_app in Hn as [Hn|Hn].
    + destruct (Hnews n Hn) as (d & Hd & -> & _).
      rewrite Hdirs in Hd.
      pose proof (whole_heuristic_step s (position cur) d Hd) as Hstep.
      unfold key in *. simpl.
      assert (depth (neighbor_node s cur d) = depth cur + 1) as ->
        by (by apply depth_parent).
      lia.
    + specialize (Hmin n Hn). lia.
Qed.

Lemma initial_order_invariant : order_invariant s (initial_search s st).
Proof.
  constructor; simpl.
  - intros i j a b _ Ha. by rewrite lookup_nil in Ha.
  - by intros a n ?%elem_of_nil.
Qed.

(** The priorities of the steps that a search leaves behind. *)
Lemma search_order fuel σ' found stats i j a b :
  search fuel s (initial_search s st) = Some (Ok (σ', found, stats)) →
  (i ≤ j)%nat → steps σ' !! i = Some a → steps σ' !! j = Some b →
  PrimFloat.leb (step_f_score a) (step_f_score b) = true.
Proof.
  intros Hsearch Hij Ha Hb.
  assert (∃ ka kb, step_f_score a = float_of_int ka ∧
                   step_f_score b = float_of_int kb ∧
                   0 ≤ ka ∧ ka ≤ kb ∧ kb ≤ cost_bound s)
    as (ka & kb & -> & -> & H0 & Hab & Hb').
  { destruct (search_run (λ σ, cost_invariant s st σ ∧ order_invariant s σ)
                s st Hwf Hst iteration_order fuel _ _ _ _
                (initial_invariant s st)
                (conj (initial_cost_invariant s st g Hwf Hst Hg Hheur Hexact)
                      initial_order_invariant) Hsearch)
      as [(_ & _ & [_ Hoi] & _)|(σ0 & path & _ & Hinv & [Hci Hoi] & Hne & Hit)].
    { by apply (oi_sorted _ _ Hoi i j). }
    destruct (iteration_cases s σ0 Hwf Hne)
      as (cur & open & Hpop & Hperm &
          [[Hcl Heq]|(Hncl & σ1 & Hc1 & Hv1 & Hs1 & He1 &
                      [[_ Heq]|(Heq & _)])]);
      rewrite Heq in Hit; try done.
    injection Hit as <- _ _.
    destruct (order_extend σ0 cur open
                (mkStep (position cur) (f_score cur) (g_score cur)
                   (h_score cur) (Z.of_nat (length open))
                   (Z.of_nat (size (closed_set σ0 ∪ {[position cur]}))))
                Hinv Hci Hoi Hpop eq_refl) as (Hsorted & _).
    rewrite Hs1 in Ha, Hb. by apply (Hsorted i j). }
  destruct Hexact as [_ Hcmp].
  destruct (Hcmp ka kb) as [_ ->]; [lia..|]. by apply Z.leb_le.
Qed.

End expansion_order.

(** X14: with 4-directional movement and the Manhattan or the Chebyshev
    heuristic, on a grid whose whole-number costs binary64 adds and
    compares exactly, positions are expanded in the order of their
    priority: the [f_score] values recorded in [search_steps] never
    decrease. *)
Theorem X14_f_scores_never_decrease
    (mz : list (list Z)) (h : HeuristicType) (s s' : MazeSolver)
    (fuel : nat) (found : option (list pos)) (stats : Stats)
    (i j : nat) (a b : Step) :
  __init__ mz h false = Ok s → h ≠ EUCLIDEAN →
  whole_costs_exact (cost_bound s) →
  solve fuel s = Some (Ok (s', found, stats)) →
  (i ≤ j)%nat →
  search_steps s' !! i = Some a → search_steps s' !! j = Some b →
  PrimFloat.leb (step_f_score a) (step_f_score b) = true.
Proof.
  intros Hinit Hh Hexact Hsolve Hij Ha Hb.
  pose proof (init_well_formed _ _ _ _ Hinit) as Hwf.
  destruct (init_fields _ _ _ _ Hinit) as (_ & _ & _ & Hht & Hd & _ & Hs0).
  destruct (start s) as [st|] eqn:Hst.
  2: { rewrite solve_missing_endpoints in Hsolve by (by left).
       injection Hsolve as <- _ _. by rewrite Hs0 in Ha. }
  destruct (goal s) as [g|] eqn:Hg.
  2: { rewrite solve_missing_endpoints in Hsolve by (by right).
       injection Hsolve as <- _ _. by rewrite Hs0 in Ha. }
  unfold solve in Hsolve. rewrite Hst, Hg in Hsolve.
  destruct (search fuel s (initial_search s st))
    as [[[[final found'] stats']|e]|] eqn:Hsearch; try done.
  injection Hsolve as <- _ _. simpl in Ha, Hb.
  rewrite <- Hht in Hh.
  by apply (search_order s st g Hwf (start_passable s st Hwf Hst) Hg Hd Hh
              Hexact fuel final found' stats' i j a b).
Qed.

Lemma X14_f_scores_never_decrease_witness :
  ∃ s s' found stats a b,
    __init__ [[2; 0; 0]; [1; 1; 0]; [3; 0; 0]] MANHATTAN false = Ok s ∧
    MANHATTAN ≠ EUCLIDEAN ∧ whole_costs_exact (cost_bound s) ∧
    solve 50 s = Some (Ok (s', found, stats)) ∧ (1 ≤ 4)%nat ∧
    search_steps s' !! 1%nat = Some a ∧ search_steps s' !! 4%nat = Some b ∧
    PrimFloat.leb (step_f_score a) (step_f_score b) = true.
Proof.
  eexists _, _, _, _, _, _. split; [by vm_compute|]. split; [done|].
  split; [apply whole_costs_exactb_spec; by vm_compute|].
  split; [by vm_compute|]. split; [lia|].
  split; [by vm_compute|]. split; [by vm_compute|].
  eapply (X14_f_scores_never_decrease
            [[2; 0; 0]; [1; 1; 0]; [3; 0; 0]] MANHATTAN
            (constructed [[2; 0; 0]; [1; 1; 0]; [3; 0; 0]] MANHATTAN false)
            _ 50 _ _ 1 4);
    [by vm_compute|done|apply whole_costs_exactb_spec; by vm_compute
    |by vm_compute|lia|by vm_compute|by vm_compute].
Defined.

(** * The least exact cost *)

(** ** Exact costs of walks and of nodes *)

Lemma milli_cost_range dr dc : 1000 ≤ milli_cost dr dc ≤ 1414.
Proof. unfold milli_cost. case_match; lia. Qed.

Lemma exact_from_nonneg p l : 0 ≤ exact_from p l.
Proof.
  revert p. induction l as [|q l IH]; intros p; simpl; [lia|].
  pose proof (milli_cost_range (q.1 - p.1) (q.2 - p.2)).
  specialize (IH q). lia.
Qed.


Lemma exact_from_snoc p l q :
  exact_from p (l ++ [q]) =
  exact_from p l +
  milli_cost (q.1 - (default p (last l)).1) (q.2 - (default p (last l)).2).
Proof.
  revert p. induction l as [|a l IH]; intros p; simpl; [lia|].
  rewrite IH. rewrite last_cons. destruct (last l); simpl; lia.
Qed.

Lemma exact_cost_nonneg l : 0 ≤ exact_cost l.
Proof. destruct l; simpl; [lia|apply exact_from_nonneg]. Qed.

Lemma exact_cost_snoc l y q :
  last l = Some y →
  exact_cost (l ++ [q]) = exact_cost l + milli_cost (q.1 - y.1) (q.2 - y.2).
Proof.
  destruct l as [|p l]; [done|]. intros Hlast. simpl.
  rewrite exact_from_snoc. by rewrite (last_default _ _ _ Hlast).
Qed.

Lemma milli_cost_step p d :
  milli_cost ((step p d).1 - p.1) ((step p d).2 - p.2) = milli_cost d.1 d.2.
Proof. unfold step. simpl. f_equal; lia. Qed.

Lemma last_reconstruct_path n : last (_reconstruct_path n) = Some (position n).
Proof.
  unfold _reconstruct_path. destruct n as [f p g h par]. simpl.
  by rewrite last_snoc.
Qed.

Lemma node_cost_root n : parent n = None → node_cost n = 0.
Proof.
  intros Hp. unfold node_cost, _reconstruct_path.
  destruct n as [f p g h par]. simpl in *. by rewrite Hp.
Qed.

Lemma node_cost_child n p d :
  parent n = Some p → position n = step (position p) d →
  node_cost n = node_cost p + milli_cost d.1 d.2.
Proof.
  intros Hp Hpos. unfold node_cost.
  assert (_reconstruct_path n = _reconstruct_path p ++ [position n]) as ->.
  { unfold _reconstruct_path. destruct n as [f q g h par]. simpl in *.
    by rewrite Hp. }
  rewrite (exact_cost_snoc _ _ _ (last_reconstruct_path p)).
  by rewrite Hpos, milli_cost_step.
Qed.

Lemma node_cost_nonneg n : 0 ≤ node_cost n.
Proof. apply exact_cost_nonneg. Qed.





(** ** The search under a priority *)

Section least_cost.
Context (s : MazeSolver) (st : pos) (K : Z → pos → Z).
Hypothesis Hwf : well_formed s.
Hypothesis Hstart : start s = Some st.
Hypothesis HK : priority s K.









End least_cost.

(** ** Four directions: exact costs count moves *)

Lemma exact_from_cardinal s p l :
  directions s = DIRECTIONS_4 → linked s (p :: l) →
  exact_from p l = 1000 * Z.of_nat (length l).
Proof.
  intros Hdirs. revert p. induction l as [|q l IH]; intros p Hl; [done|].
  destruct (Hl 0%nat p q eq_refl eq_refl) as (d & Hd & ->).
  cbn [exact_from length]. rewrite milli_cost_step.
  rewrite (IH _ (linked_tail _ _ _ Hl)).
  rewrite Hdirs in Hd. unfold DIRECTIONS_4 in Hd.
  repeat (apply elem_of_cons in Hd as [->|Hd]); [..|by apply elem_of_nil in Hd];
    unfold milli_cost; simpl; lia.
Qed.

Lemma exact_cost_cardinal s l :
  directions s = DIRECTIONS_4 → linked s l → l ≠ [] →
  exact_cost l = 1000 * (Z.of_nat (length l) - 1).
Proof.
  intros Hdirs Hl Hne. destruct l as [|p l]; [done|].
  simpl. rewrite (exact_from_cardinal s p l Hdirs Hl). lia.
Qed.

(** A path without repetition fits in the grid. *)
Lemma simple_path_length s l :
  NoDup l → Forall (passable s) l →
  (length l ≤ length (grid_cells (rows s) (cols s)))%nat.
Proof.
  intros Hnd Hpass. apply submseteq_length, NoDup_submseteq; [done|].
  intros x Hx. apply elem_of_grid_cells.
  rewrite Forall_forall in Hpass. by destruct (Hpass x Hx).
Qed.


(** ** Priorities checked by enumeration *)

Lemma entry_eqb_eq a b : entry_eqb a b = true → a = b.
Proof.
  unfold entry_eqb. intros [H1 H2]%andb_true_iff.
  apply bool_decide_eq_true in H1.
  apply FloatAxioms.Leibniz.eqb_spec in H2.
  destruct a, b. simpl in *. congruence.
Qed.

Lemma score_eqb_eq a b : score_eqb a b = true → a = b.
Proof.
  unfold score_eqb. intros [H1%Z.eqb_eq H2]%andb_true_iff.
  apply FloatAxioms.Leibniz.eqb_spec in H2.
  destruct a, b. simpl in *. congruence.
Qed.

Lemma elem_of_distinct {A} (eqb : A → A → bool) (l : list A) x :
  (∀ a b, eqb a b = true → a = b) → x ∈ l → x ∈ distinct eqb l.
Proof.
  intros Heqb. unfold distinct.
  induction l as [|a l IH]; intros Hin; [done|].
  simpl. unfold add_new at 1.
  destruct (existsb (eqb a) (foldr (add_new eqb) [] l)) eqn:Hex.
  - apply elem_of_cons in Hin as [->|?]; [|auto].
    apply existsb_exists in Hex as (y & Hy & Heq).
    apply Heqb in Heq as ->. by apply list_elem_of_In.
  - apply elem_of_cons in Hin as [->|?]; [by left|right; auto].
Qed.

Lemma elem_of_next_layer s layer e e' :
  e ∈ layer → e' ∈ extend s e → e' ∈ next_layer s layer.
Proof.
  intros He He'. apply elem_of_distinct; [apply entry_eqb_eq|].
  apply list_elem_of_bind; eauto.
Qed.

Lemma elem_of_layers s k i layer e :
  (i ≤ k)%nat → e ∈ Nat.iter i (next_layer s) layer → e ∈ layers s k layer.
Proof.
  revert k layer. induction i as [|i IH]; intros k layer Hik He.
  - destruct k; simpl; apply elem_of_app; by left.
  - destruct k as [|k]; [lia|]. rewrite Nat.iter_succ_r in He.
    simpl. apply elem_of_app. right. apply IH; [lia|done].
Qed.

(** The entry of a chained node is in the layer of its depth. *)
Lemma chain_layer s st n :
  chain s st n →
  entry_of n ∈ Nat.iter (length (path_to_root n) - 1) (next_layer s)
                 [(st, 0, float_of_int 0)].
Proof.
  induction 1 as [n Hp Hpos Hg|n p d Hp Hch IH Hd Hpos Hpass Hg].
  - unfold entry_of. rewrite (node_cost_root n Hp), Hpos, Hg.
    destruct n as [f q g h par]. simpl in Hp. subst par. simpl. by left.
  - assert (length (path_to_root n) - 1
            = S (length (path_to_root p) - 1))%nat as ->.
    { destruct n as [f q g h par]. simpl in Hp. subst par. simpl.
      destruct p. simpl. lia. }
    simpl. eapply elem_of_next_layer; [exact IH|].
    unfold extend, entry_of. apply list_elem_of_omap. exists d.
    split; [done|]. simpl. rewrite <- Hpos.
    rewrite bool_decide_eq_true_2 by done.
    by rewrite (node_cost_child n p d Hp Hpos), Hg.
Qed.

Lemma entries_complete s st n :
  passable s st → search_node s st n → entry_of n ∈ entries s st.
Proof.
  intros Hst (Hch & Hnd & _). unfold entries.
  eapply elem_of_layers; [|by apply chain_layer].
  destruct (chain_path s st n Hst Hch) as (_ & _ & _ & Hpass).
  assert (length (path_to_root n) ≤
          length (filter (passable s) (grid_cells (rows s) (cols s))))%nat;
    [|lia].
  apply submseteq_length, NoDup_submseteq; [done|].
  intros x Hx. rewrite Forall_forall in Hpass.
  assert (passable s x) as Hp.
  { apply Hpass. unfold _reconstruct_path. by rewrite <- Permutation_rev. }
  apply list_elem_of_filter. split; [done|].
  apply elem_of_grid_cells. by destruct Hp.
Qed.

Lemma entry_f_node s st n :
  search_node s st n → entry_f s st (entry_of n) = f_score n.
Proof.
  intros (Hch & _ & Hf). unfold entry_f, entry_of. simpl. rewrite Hf.
  inversion Hch as [n0 Hp Hpos Hg|n0 p d Hp Hchp Hd Hpos Hpass Hg];
    rewrite Hp.
  - by rewrite (node_cost_root n Hp).
  - rewrite (node_cost_child n p d Hp Hpos).
    pose proof (node_cost_nonneg p). pose proof (milli_cost_range d.1 d.2).
    by destruct (Z.eqb_spec (node_cost p + milli_cost d.1 d.2) 0); [lia|].
Qed.

(** A priority that the enumeration confirms. *)
Lemma priority_checked s st (K : Z → pos → Z) :
  well_formed s → start s = Some st →
  (∀ p c c', passable s p → 0 ≤ c → c < c' → c' ≤ cost_range s →
             K c p < K c' p) →
  (∀ p d c, passable s p → d ∈ directions s → passable s (step p d) →
            0 ≤ c → c + milli_cost d.1 d.2 ≤ cost_range s →
            K c p ≤ K (c + milli_cost d.1 d.2) (step p d)) →
  priority_checkb s st K = true → priority s K.
Proof.
  intros Hwf Hs Hcost Hmove Hcheck.
  pose proof (start_passable s st Hwf Hs) as Hst.
  assert (∀ x y, search_node s st x → search_node s st y →
    (rank K x < rank K y →
     node_lt x y = true ∧ node_lt y x = false) ∧
    (position x = position y → node_cost x < node_cost y →
     PrimFloat.leb (g_score y) (g_score x) = false)) as Hall.
  { intros x y Hx Hy. unfold priority_checkb in Hcheck. cbv zeta in Hcheck.
    apply andb_true_iff in Hcheck as [Hheap Htable]. split.
    - rewrite forallb_forall in Hheap.
      assert (∀ n, search_node s st n →
                In (rank K n, f_score n)
                   (distinct score_eqb
                      ((λ e, (K e.1.2 e.1.1, entry_f s st e))
                         <$> entries s st))) as Hin.
      { intros n Hn.
        apply list_elem_of_In, elem_of_distinct; [apply score_eqb_eq|].
        apply list_elem_of_fmap. exists (entry_of n).
        split; [|by apply entries_complete].
        by rewrite (entry_f_node s st n Hn). }
      specialize (Hheap _ (Hin x Hx)). rewrite forallb_forall in Hheap.
      specialize (Hheap _ (Hin y Hy)). simpl in Hheap.
      intros Hlt. apply Z.ltb_lt in Hlt. rewrite Hlt in Hheap.
      apply andb_true_iff in Hheap as [H1 H2]. unfold node_lt.
      split; [done|]. by apply negb_true_iff.
    - intros Hpos Hlt. rewrite forallb_forall in Htable.
      destruct Hy as (Hchy & Hy').
      destruct (chain_reachable s st y Hst Hchy) as [_ [Hgrid _]].
      specialize (Htable (position y)
                    ltac:(by apply list_elem_of_In, elem_of_grid_cells)).
      simpl in Htable. rewrite forallb_forall in Htable.
      specialize (Htable (entry_of x)). rewrite forallb_forall in Htable.
      specialize (Htable
        ltac:(apply list_elem_of_In, list_elem_of_filter;
              split; [done|by apply entries_complete])
        (entry_of y)
        ltac:(apply list_elem_of_In, list_elem_of_filter;
              split; [done|apply entries_complete; [done|by split]])).
      simpl in Htable. apply Z.ltb_lt in Hlt. rewrite Hlt in Htable.
      by apply negb_true_iff. }
  constructor; [done|done|..].
  - intros st' x y Hs' Hx Hy. assert (st' = st) as -> by congruence.
    by apply Hall.
  - intros st' x y Hs' Hx Hy. assert (st' = st) as -> by congruence.
    by apply Hall.
Qed.

(** ** The priorities of the three heuristics *)

Lemma whole_heuristic_step_8 s p d :
  heuristic_type s ≠ MANHATTAN → d ∈ DIRECTIONS_8 →
  whole_heuristic s p ≤ whole_heuristic s (step p d) + 1.
Proof.
  intros Hh Hd. unfold whole_heuristic, step. destruct (goal s); [|lia].
  unfold DIRECTIONS_8 in Hd.
  repeat (apply elem_of_cons in Hd as [->|Hd]); [..|by apply elem_of_nil in Hd];
    simpl; destruct (heuristic_type s); try done; lia.
Qed.

Lemma whole_priority_cost s p c c' :
  c < c' → whole_priority s c p < whole_priority s c' p.
Proof. unfold whole_priority. lia. Qed.

(** The Chebyshev heuristic is consistent with both topologies, the
    Manhattan heuristic with four directions. *)
Lemma whole_priority_move s p d c :
  (heuristic_type s = MANHATTAN → directions s = DIRECTIONS_4) →
  (∀ x, x ∈ directions s → x ∈ DIRECTIONS_8) →
  d ∈ directions s →
  whole_priority s c p ≤
  whole_priority s (c + milli_cost d.1 d.2) (step p d).
Proof.
  intros Hman Hdirs Hd. unfold whole_priority.
  pose proof (milli_cost_range d.1 d.2).
  assert (whole_heuristic s p ≤ whole_heuristic s (step p d) + 1); [|lia].
  destruct (heuristic_type s) eqn:Hh.
  - apply whole_heuristic_step. by rewrite <- (Hman eq_refl).
  - apply whole_heuristic_step_8; [by rewrite Hh|auto].
  - apply whole_heuristic_step_8; [by rewrite Hh|auto].
Qed.


(** The distance to the goal drops by at most one along a straight
    move, also when rounded down in units of [B]. *)
Lemma sqrt_step B a b m :
  0 < B → 0 ≤ a → 0 ≤ m → m * m ≤ b → a ≤ b + 2 * m + 1 →
  Z.sqrt (B * B * a) ≤ B + Z.sqrt (B * B * b).
Proof.
  intros HB Ha Hm Hmb Hab.
  assert (0 ≤ B * B * b) as Hb by nia.
  pose proof (Z.sqrt_spec _ Hb) as [Hlo Hhi].
  pose proof (Z.sqrt_nonneg (B * B * b)) as Hs0.
  set (S := Z.sqrt (B * B * b)) in *.
  assert (B * m ≤ S) as HmS.
  { apply Z.sqrt_le_square; [done|nia|nia]. }
  apply Z.lt_succ_r. apply Z.sqrt_lt_square; [nia|lia|].
  unfold Z.succ in Hhi. nia.
Qed.

Lemma euclidean_priority_cost s p c c' :
  c < c' → euclidean_priority s c p < euclidean_priority s c' p.
Proof. unfold euclidean_priority. destruct (goal s); lia. Qed.

(** The Euclidean heuristic is consistent with four directions. *)
Lemma euclidean_priority_move s p d c :
  d ∈ DIRECTIONS_4 →
  euclidean_priority s c p ≤
  euclidean_priority s (c + milli_cost d.1 d.2) (step p d).
Proof.
  intros Hd. unfold euclidean_priority.
  pose proof (milli_cost_range d.1 d.2) as Hmc.
  destruct (goal s) as [g|]; [|lia].
  assert (milli_cost d.1 d.2 = 1000) as ->.
  { unfold DIRECTIONS_4 in Hd.
    repeat (apply elem_of_cons in Hd as [->|Hd]);
      [..|by apply elem_of_nil in Hd]; done. }
  change 1000000000000000000 with (1000000000 * 1000000000).
  assert (∃ m, 0 ≤ m ∧
    m * m ≤ ((step p d).1 - g.1) * ((step p d).1 - g.1) +
            ((step p d).2 - g.2) * ((step p d).2 - g.2) ∧
    (p.1 - g.1) * (p.1 - g.1) + (p.2 - g.2) * (p.2 - g.2) ≤
    ((step p d).1 - g.1) * ((step p d).1 - g.1) +
    ((step p d).2 - g.2) * ((step p d).2 - g.2) + 2 * m + 1)
    as (m & Hm & Hmb & Hab).
  { unfold DIRECTIONS_4 in Hd. unfold step.
    repeat (apply elem_of_cons in Hd as [->|Hd]);
      [..|by apply elem_of_nil in Hd]; simpl.
    - exists (Z.abs (p.1 + -1 - g.1)). split; [lia|].
      pose proof (Z.square_nonneg (p.2 + 0 - g.2)).
      destruct (Z.abs_spec (p.1 + -1 - g.1)) as [[? ->]|[? ->]]; split; lia.
    - exists (Z.abs (p.1 + 1 - g.1)). split; [lia|].
      pose proof (Z.square_nonneg (p.2 + 0 - g.2)).
      destruct (Z.abs_spec (p.1 + 1 - g.1)) as [[? ->]|[? ->]]; split; lia.
    - exists (Z.abs (p.2 + -1 - g.2)). split; [lia|].
      pose proof (Z.square_nonneg (p.1 + 0 - g.1)).
      destruct (Z.abs_spec (p.2 + -1 - g.2)) as [[? ->]|[? ->]]; split; lia.
    - exists (Z.abs (p.2 + 1 - g.2)). split; [lia|].
      pose proof (Z.square_nonneg (p.1 + 0 - g.1)).
      destruct (Z.abs_spec (p.2 + 1 - g.2)) as [[? ->]|[? ->]]; split; lia. }
  match goal with
  | |- _ + Z.sqrt (_ * ?a) ≤ _ + Z.sqrt (_ * ?b) =>
      pose proof (sqrt_step 1000000000 a b m ltac:(lia)
                    ltac:(pose proof (Z.square_nonneg (p.1 - g.1));
                          pose proof (Z.square_nonneg (p.2 - g.2)); lia)
                    Hm Hmb Hab)
  end.
  lia.
Qed.

Lemma euclidean_priority_checked s st :
  well_formed s → start s = Some st → directions s = DIRECTIONS_4 →
  priority_checkb s st (euclidean_priority s) = true →
  priority s (euclidean_priority s).
Proof.
  intros Hwf Hs Hdirs. apply priority_checked; [done..| |].
  - intros p c c' _ _ Hlt _. by apply euclidean_priority_cost.
  - intros p d c _ Hd _ _ _. rewrite Hdirs in Hd.
    by apply euclidean_priority_move.
Qed.

(** With four directions and a whole-number heuristic, the nodes of a
    search carry the floats of their depth and of their key. *)
Lemma search_node_whole s st g n :
  well_formed s → start s = Some st → goal s = Some g →
  directions s = DIRECTIONS_4 → heuristic_type s ≠ EUCLIDEAN →
  whole_costs_exact (cost_bound s) → search_node s st n →
  node_cost n = 1000 * depth n ∧ 0 ≤ depth n ∧
  g_score n = float_of_int (depth n) ∧ ranked s n.
Proof.
  intros Hwf Hs Hg Hdirs Hh Hexact (Hch & Hnd & Hf).
  pose proof (start_passable s st Hwf Hs) as Hst.
  destruct (chain_path s st n Hst Hch) as (Hhead & _ & Hlinked & Hpass).
  destruct (chain_reachable s st n Hst Hch) as [_ Hpn].
  assert (NoDup (_reconstruct_path n)) as Hnd'.
  { unfold _reconstruct_path. by rewrite <- Permutation_rev. }
  pose proof (simple_path_length s _ Hnd' Hpass) as Hlen.
  assert (depth n = Z.of_nat (length (_reconstruct_path n)) - 1) as Hdep.
  { unfold depth, _reconstruct_path. by rewrite length_rev. }
  pose proof (depth_nonneg n) as Hd0.
  pose proof (whole_heuristic_bound s g _ Hg (goal_passable s g Hwf Hg) Hpn)
    as Hhb.
  pose proof (whole_heuristic_nonneg s (position n)) as Hh0.
  destruct Hst as [[? ?] ?].
  assert (g_score n = float_of_int (depth n)) as Hgn.
  { rewrite (chain_cost s st n Hch), Hdep.
    destruct (_reconstruct_path n) as [|p l]; [done|].
    injection Hhead as ->. simpl accumulated_cost.
    rewrite (accumulate_cardinal s (cost_bound s) l Hexact Hdirs 0 st Hlinked).
    - f_equal. simpl length. lia.
    - lia.
    - unfold cost_bound. simpl length in Hlen. lia. }
  split.
  { unfold node_cost. rewrite Hdep.
    apply (exact_cost_cardinal s); [done..|].
    by destruct (_reconstruct_path n). }
  split; [done|]. split; [done|].
  split; [|unfold key, cost_bound; lia].
  rewrite Hf. unfold key.
  inversion Hch as [n0 Hp Hpos Hg0|n0 p d Hp Hchp Hd Hpos Hpass' Hg0];
    rewrite Hp.
  - rewrite (depth_root n Hp), Hpos. by apply heuristic_whole.
  - rewrite Hgn, (heuristic_whole s _ Hh).
    destruct Hexact as [Hadd _]. apply Hadd; [done..|].
    unfold cost_bound. lia.
Qed.

(** Every such solver in the exact range has a priority. *)
Lemma whole_priority_four_directions s g :
  well_formed s → goal s = Some g →
  directions s = DIRECTIONS_4 → heuristic_type s ≠ EUCLIDEAN →
  whole_costs_exact (cost_bound s) → priority s (whole_priority s).
Proof.
  intros Hwf Hg Hdirs Hh Hexact. constructor.
  - intros p c c' _ _ Hlt _. by apply whole_priority_cost.
  - intros p d c _ Hd _ _ _. apply whole_priority_move; [done| |done].
    intros x. rewrite Hdirs. unfold DIRECTIONS_4, DIRECTIONS_8.
    rewrite !elem_of_cons. tauto.
  - intros st x y Hs Hx Hy Hlt.
    destruct (search_node_whole s st g x Hwf Hs Hg Hdirs Hh Hexact Hx)
      as (Hcx & _ & _ & Hrx).
    destruct (search_node_whole s st g y Hwf Hs Hg Hdirs Hh Hexact Hy)
      as (Hcy & _ & _ & Hry).
    unfold rank, whole_priority in Hlt. rewrite Hcx, Hcy in Hlt.
    rewrite !(ranked_lt s Hexact) by done. unfold key.
    split; [apply Z.ltb_lt|apply Z.ltb_ge]; lia.
  - intros st x y Hs Hx Hy Hpos Hlt.
    destruct (search_node_whole s st g x Hwf Hs Hg Hdirs Hh Hexact Hx)
      as (Hcx & Hx0 & Hgx & [_ Hkx]).
    destruct (search_node_whole s st g y Hwf Hs Hg Hdirs Hh Hexact Hy)
      as (Hcy & Hy0 & Hgy & [_ Hky]).
    rewrite Hgx, Hgy. rewrite Hcx, Hcy in Hlt.
    pose proof (whole_heuristic_nonneg s (position x)).
    pose proof (whole_heuristic_nonneg s (position y)).
    unfold key in Hkx, Hky.
    destruct Hexact as [_ Hcmp].
    destruct (Hcmp (depth y) (depth x)) as [_ ->]; [lia..|].
    apply Z.leb_gt. lia.
Qed.


(** The Euclidean heuristic with four directions has a priority on the
    grid below, so that the theorem above applies to it. *)
Example euclidean_four_directions_priority :
  ∃ s, __init__ [[2; 0; 0; 0]; [0; 1; 1; 0]; [0; 0; 0; 0]; [1; 0; 1; 3]]
         EUCLIDEAN false = Ok s ∧
       priority s (euclidean_priority s).
Proof.
  eexists. split; [by vm_compute|].
  apply (euclidean_priority_checked _ (0, 0)).
  - by apply (init_well_formed
                [[2; 0; 0; 0]; [0; 1; 1; 0]; [0; 0; 0; 0]; [1; 0; 1; 3]]
                EUCLIDEAN false).
  - by vm_compute.
  - done.
  - by vm_compute.
Qed.

(** With diagonal moves the Manhattan heuristic has no such priority:
    no priority grows with the cost and is kept along the diagonal
    move whose end the heuristic rates two cheaper. *)
Example manhattan_diagonal_rank_drops :
  ∃ s, __init__ [[2; 0; 0; 0]; [0; 1; 0; 0]; [0; 0; 0; 3]] MANHATTAN true
         = Ok s ∧
       whole_priority s 1414 (1, 2) < whole_priority s 0 (0, 1).
Proof. eexists. split; [by vm_compute|]. by vm_compute. Qed.
